(** * Swizzle transcoders of SwizzleSpeedTest.cpp

    A shallow embedding of [linear_to_swizzle], [slowSwizzle], [fastSwizzle]
    and the benchmark entry point [main] of
    [src/SwizzleSpeedTest/SwizzleSpeedTest.cpp], with the properties the
    specification states about them.

    Conventions.
    - A [u32] / [u16] / [int] value is a [Z]; every operation that can leave
      the range of its C++ type has its wrap-around written out ([wrap32],
      [sint32]).
    - A pixel buffer ([u32*]) is a [list Z]; an access is fallible: reading or
      writing outside the buffer yields [None] (the C++ program has no defined
      behaviour there).
    - The [while] loop of [linear_to_swizzle] runs on fuel and yields [None]
      when the fuel runs out; the fuel handed to it is shown to suffice. *)

From Stdlib Require Import ZArith Lia Bool List String.
From stdpp Require Import base option list.

Local Open Scope Z_scope.
Local Open Scope bool_scope.

(** ** Machine integers *)

(** Conversion to [u32]. *)
Definition wrap32 (v : Z) : Z := v mod 2 ^ 32.

(** Conversion to a 32-bit [int] (two's complement). *)
Definition sint32 (v : Z) : Z := (v + 2 ^ 31) mod 2 ^ 32 - 2 ^ 31.

(** [~v] on a [u32]. *)
Definition not32 (v : Z) : Z := wrap32 (Z.lnot v).

(** [log2(d)] of <cmath> on a [u16] converted back to an integer type: the
    conversion truncates, so for [1 <= d] this is the floor of the binary
    logarithm.  ([log2(0)] is minus infinity, whose conversion C++ leaves
    undefined; the transcoders are only stated for [1 <= d].) *)
Definition log2_trunc (d : Z) : Z := Z.log2 d.

(** ** The option monad of fallible steps *)

Notation "'let?' x ':=' e1 'in' e2" :=
  (match e1 with Some x => e2 | None => None end)
  (at level 10, x pattern, e1 at level 100, e2 at level 200, only parsing).

(** [for (i = lo; i < lo + n; ++i) s = body(i, s)] with a fallible body. *)
Fixpoint for_loop {S : Type} (n : nat) (i : Z) (body : Z -> S -> option S) (s : S)
  : option S :=
  match n with
  | O => Some s
  | Datatypes.S n' => let? s' := body i s in for_loop n' (i + 1) body s'
  end.

(** [for (i = 0; i < hi; ++i)]. *)
Definition for_lt {S : Type} (hi : Z) (body : Z -> S -> option S) (s : S) : option S :=
  for_loop (Z.to_nat hi) 0 body s.

(** Two fallible results agree: both fail, or both succeed with related
    values. *)
Definition option_sim {A B : Type} (R : A -> B -> Prop)
    (oa : option A) (ob : option B) : Prop :=
  match oa, ob with
  | Some a, Some b => R a b
  | None, None => True
  | _, _ => False
  end.

(** ** Pixel buffers *)

(** [buf[i]] as an rvalue. *)
Definition load (buf : list Z) (i : Z) : option Z :=
  if i <? 0 then None else buf !! Z.to_nat i.

(** [buf[i] = v]. *)
Definition store (buf : list Z) (i : Z) (v : Z) : option (list Z) :=
  if (0 <=? i) && (i <? Z.of_nat (length buf))
  then Some (<[Z.to_nat i := v]> buf)
  else None.

(** ** Arithmetic descriptions of the swizzled offset *)

(** The offset that interleaves the low [nx] bits of [x] with the low [ny]
    bits of [y]: bit [i] of [x] and bit [i] of [y] go to positions [2i] and
    [2i+1] while both axes have bits left, and the longer axis fills the
    positions above with its remaining bits. *)
Fixpoint interleave (nx ny : nat) (x y : Z) : Z :=
  match nx with
  | O => y mod 2 ^ Z.of_nat ny
  | Datatypes.S nx' =>
      match ny with
      | O => x mod 2 ^ Z.of_nat nx
      | Datatypes.S ny' =>
          x mod 2 + 2 * (y mod 2) + 4 * interleave nx' ny' (x / 2) (y / 2)
      end
  end.

(** The swizzled offset of the element with linear index [k] of a surface
    that is [2^nx] wide: column [k mod 2^nx] of row [k / 2^nx]. *)
Definition cell_offset (nx ny : nat) (k : Z) : Z :=
  interleave nx ny (k mod 2 ^ Z.of_nat nx) (k / 2 ^ Z.of_nat nx).

(** [lane m v]: the low [m] bits of [v] on the even positions
    [0, 2, .., 2m-2], and the rest of [v] from position [2m] on. *)
Fixpoint lane (m : nat) (v : Z) : Z :=
  match m with
  | O => v
  | Datatypes.S m' => v mod 2 + 4 * lane m' (v / 2)
  end.

(** *** The interleaving in the words of the specification *)

(** The [n] low bits of [v], least significant first. *)
Fixpoint bits_of (n : nat) (v : Z) : list bool :=
  match n with
  | O => []
  | Datatypes.S n' => Z.odd v :: bits_of n' (v / 2)
  end.

(** One bit of [xs], one bit of [ys], alternately, starting with [xs]; once
    one list is exhausted, the rest of the other. *)
Fixpoint alternate (xs ys : list bool) : list bool :=
  match xs, ys with
  | [], _ => ys
  | _, [] => xs
  | a :: xs', b :: ys' => a :: b :: alternate xs' ys'
  end.

(** The integer whose bits are [bs], the first at position 0, each next one
    at the next free position. *)
Fixpoint of_bits (bs : list bool) : Z :=
  match bs with
  | [] => 0
  | b :: bs' => Z.b2z b + 2 * of_bits bs'
  end.

(** The offset as the specification words it: the bits of [x] and [y] within
    their budgets, consumed alternately and placed from position 0 upwards. *)
Definition interleave_spec (x y bitsX bitsY : Z) : Z :=
  of_bits (alternate (bits_of (Z.to_nat bitsX) x) (bits_of (Z.to_nat bitsY) y)).

(** A dimension the transcoders are meant for: a power of two that fits
    [u16]. *)
Definition pow2_dim (d : Z) : bool :=
  (0 <? d) && (d <? 65536) && (d =? 2 ^ Z.log2 d).

(** The shift of an x86 processor for a count of 32 or more: only the low
    five bits of the count are used. *)
Definition shl_x86 (a s : Z) : Z := Z.shiftl a (s mod 32).

(** Two defective transcoders, to exercise the benchmark where its two
    outputs differ: one writes nothing, the other writes a single 0 into the
    first element. *)
Definition keep_destination (src dst : list Z) (width height : Z) (swap : bool)
    : option (list Z) := Some dst.

Definition zero_first (src dst : list Z) (width height : Z) (swap : bool)
    : option (list Z) := store dst 0 0.

(** *** Three axes *)

(** What one guarded block of [linear_to_swizzle] does for an axis that has
    [n] bits left: the bit it contributes, the factor by which the next
    output position grows, and what is left of the coordinate. *)
Definition axis_bit (n : nat) (v : Z) : Z :=
  match n with O => 0 | Datatypes.S _ => v mod 2 end.

Definition axis_step (n : nat) : Z :=
  match n with O => 1 | Datatypes.S _ => 2 end.

Definition axis_rest (n : nat) (v : Z) : Z :=
  match n with O => v | Datatypes.S _ => v / 2 end.

(** The offset that takes, round after round, one bit of [x], one of [y] and
    one of [z] from the axes that still have bits, for [rounds] rounds. *)
Fixpoint interleave3 (rounds nx ny nz : nat) (x y z : Z) : Z :=
  match rounds with
  | O => 0
  | Datatypes.S rounds' =>
      axis_bit nx x + axis_step nx *
        (axis_bit ny y + axis_step ny *
           (axis_bit nz z + axis_step nz *
              interleave3 rounds' (Nat.pred nx) (Nat.pred ny) (Nat.pred nz)
                (axis_rest nx x) (axis_rest ny y) (axis_rest nz z)))
  end.

(** [deposit n mask v]: the low bits of [v] placed, in order, on the
    positions below [n] where [mask] has a 1; the other positions are 0. *)
Fixpoint deposit (n : nat) (mask v : Z) : Z :=
  match n with
  | O => 0
  | Datatypes.S n' =>
      if Z.odd mask then v mod 2 + 2 * deposit n' (mask / 2) (v / 2)
      else 2 * deposit n' (mask / 2) v
  end.

(** A value of type [u32]. *)
Definition is_u32 (v : Z) : Prop := 0 <= v < 2 ^ 32.


Section Transcoders.

(** C++ defines [a << s] on a 32-bit operand only for [s < 32].  The value a
    machine produces for a larger count (x86 shifts by [s mod 32], ARM yields
    0) is a parameter of the development: every result below holds whatever
    it is. *)
Variable shl_oob : Z -> Z -> Z.

(** [a << s] on [u32]. *)
Definition shl32 (a s : Z) : Z :=
  if s <? 32 then wrap32 (Z.shiftl a s) else wrap32 (shl_oob a s).

(** ** linear_to_swizzle *)

(** The state of the [while] loop: the three coordinates, their remaining bit
    budgets, and the two locals. *)
Record swz_state := SwzState {
  swz_x : Z; swz_y : Z; swz_z : Z;
  swz_log2_width : Z; swz_log2_height : Z; swz_log2_depth : Z;
  swz_offset : Z; swz_shift_count : Z
}.

(** The block guarded by [if (log2_width)] (and likewise for the other two
    axes): [offset |= (v & 0x01) << shift_count; v >>= 1; ++shift_count;
    --budget;].  Yields the new [(offset, shift_count, v, budget)]. *)
Definition take_bit (offset shift_count v budget : Z) : Z * Z * Z * Z :=
  if budget =? 0 then (offset, shift_count, v, budget)
  else (Z.lor offset (shl32 (Z.land v 1) shift_count),
        wrap32 (shift_count + 1),
        Z.shiftr v 1,
        wrap32 (budget - 1)).

(** One pass through the body of the [while] loop. *)
Definition swz_body (s : swz_state) : swz_state :=
  let '(offset, shift_count, x, log2_width) :=
    take_bit (swz_offset s) (swz_shift_count s) (swz_x s) (swz_log2_width s) in
  let '(offset, shift_count, y, log2_height) :=
    take_bit offset shift_count (swz_y s) (swz_log2_height s) in
  let '(offset, shift_count, z, log2_depth) :=
    take_bit offset shift_count (swz_z s) (swz_log2_depth s) in
  SwzState x y z log2_width log2_height log2_depth offset shift_count.

(** [while (log2_width | log2_height | log2_depth) body; return offset;] *)
Fixpoint swz_loop (fuel : nat) (s : swz_state) : option Z :=
  if Z.lor (Z.lor (swz_log2_width s) (swz_log2_height s)) (swz_log2_depth s) =? 0
  then Some (swz_offset s)
  else match fuel with
       | O => None
       | Datatypes.S fuel' => swz_loop fuel' (swz_body s)
       end.

Definition linear_to_swizzle (x y z log2_width log2_height log2_depth : Z) : option Z :=
  swz_loop (Z.to_nat (Z.max log2_width (Z.max log2_height log2_depth)))
           (SwzState x y z log2_width log2_height log2_depth 0 0).

(** ** slowSwizzle *)

(** The reference transcoder.  [log2Width] and [log2Height] are [u16] in the
    source and at most 15; [rowStart] is the [int] product [y * width]
    converted to [u32]; [rowStart + x] is a [u32] sum. *)
Definition slowSwizzle (inputPixels outputPixels : list Z) (width height : Z)
    (swap : bool) : option (list Z) :=
  let log2Width := log2_trunc width in
  let log2Height := log2_trunc height in
  let pixelSrc := inputPixels in
  for_lt height (fun y pixelDst =>
    let rowStart := wrap32 (y * width) in
    for_lt width (fun x pixelDst =>
      if swap then
        let? o := linear_to_swizzle x y 0 log2Width log2Height 0 in
        let? v := load pixelSrc (wrap32 (rowStart + x)) in
        store pixelDst o v
      else
        let? o := linear_to_swizzle x y 0 log2Width log2Height 0 in
        let? v := load pixelSrc o in
        store pixelDst (wrap32 (rowStart + x)) v)
      pixelDst)
    outputPixels.

(** ** fastSwizzle *)

(** The masks and the row increment computed before the loops:
    [(x_mask, y_mask, y_incr)].  [1 << (limitMask << 1)] is an [int] shift
    whose result is converted to [u32]. *)
Definition fast_masks (width height : Z) : Z * Z * Z :=
  let log2width := log2_trunc width in
  let log2height := log2_trunc height in
  let x_mask := 0x555555 in
  let y_mask := 0xAAAAAA in
  let limitMask := if log2width <? log2height then log2width else log2height in
  let limitMask := shl32 1 (shl32 limitMask 1) in
  let x_mask := Z.lor x_mask (not32 (wrap32 (limitMask - 1))) in
  let y_mask := Z.land y_mask (wrap32 (limitMask - 1)) in
  let y_incr := limitMask in
  (x_mask, y_mask, y_incr).

(** [offs = (offs - mask) & mask] on [u32]. *)
Definition masked_next (mask offs : Z) : Z := Z.land (wrap32 (offs - mask)) mask.

(** The end of a row: [offs_y = (offs_y - y_mask) & y_mask;
    if (offs_y == 0) offs_x0 += y_incr;] on the pair [(offs_y, offs_x0)]. *)
Definition fast_next_row (y_mask y_incr : Z) (st : Z * Z) : Z * Z :=
  let '(offs_y, offs_x0) := st in
  let offs_y := masked_next y_mask offs_y in
  let offs_x0 := if offs_y =? 0 then wrap32 (offs_x0 + y_incr) else offs_x0 in
  (offs_y, offs_x0).

(** The fast transcoder.  [src] and [dst] of the source are pointers into the
    two buffers: [src[i]] with [src = inputPixels + b] is the element
    [b + i] of [inputPixels].  [y*width] is an [int] product. *)
Definition fastSwizzle (inputPixels outputPixels : list Z) (width height : Z)
    (swap : bool) : option (list Z) :=
  let '(x_mask, y_mask, y_incr) := fast_masks width height in
  let offs_y := 0 in
  let offs_x0 := 0 in
  if swap then
    let? (_, outputPixels) :=
      for_lt height (fun y '(offs, outputPixels) =>
        let '(offs_y, offs_x0) := offs in
        let src := sint32 (y * width) in
        let dst := offs_y in
        let offs_x := offs_x0 in
        let? (_, outputPixels) :=
          for_lt width (fun x '(offs_x, outputPixels) =>
            let? v := load inputPixels (src + x) in
            let? outputPixels := store outputPixels (dst + offs_x) v in
            Some (masked_next x_mask offs_x, outputPixels))
          (offs_x, outputPixels) in
        Some (fast_next_row y_mask y_incr (offs_y, offs_x0), outputPixels))
      ((offs_y, offs_x0), outputPixels) in
    Some outputPixels
  else
    let? (_, outputPixels) :=
      for_lt height (fun y '(offs, outputPixels) =>
        let '(offs_y, offs_x0) := offs in
        let src := offs_y in
        let dst := sint32 (y * width) in
        let offs_x := offs_x0 in
        let? (_, outputPixels) :=
          for_lt width (fun x '(offs_x, outputPixels) =>
            let? v := load inputPixels (src + offs_x) in
            let? outputPixels := store outputPixels (dst + x) v in
            Some (masked_next x_mask offs_x, outputPixels))
          (offs_x, outputPixels) in
        Some (fast_next_row y_mask y_incr (offs_y, offs_x0), outputPixels))
      ((offs_y, offs_x0), outputPixels) in
    Some outputPixels.

(** The index [fastSwizzle] uses for column [x] of row [y]: the row base
    [offs_y] after [y] row steps plus [offs_x] after [x] column steps from
    the [offs_x0] of that row. *)
Definition fast_offset (width height : Z) (x y : nat) : Z :=
  let '(x_mask, y_mask, y_incr) := fast_masks width height in
  let '(offs_y, offs_x0) := Nat.iter y (fast_next_row y_mask y_incr) (0, 0) in
  offs_y + Nat.iter x (masked_next x_mask) offs_x0.

(** ** The benchmark entry point *)

(** The bytes of a [u32] in memory, least significant first (the program is a
    Windows console application). *)
Definition bytes_of_u32 (v : Z) : list Z :=
  [v mod 256; (v / 2 ^ 8) mod 256; (v / 2 ^ 16) mod 256; (v / 2 ^ 24) mod 256].

(** The memory image of a buffer. *)
Definition buffer_bytes (buf : list Z) : list Z := flat_map bytes_of_u32 buf.

Fixpoint u32s_of_bytes (bs : list Z) : list Z :=
  match bs with
  | b0 :: b1 :: b2 :: b3 :: bs' =>
      (b0 + 2 ^ 8 * b1 + 2 ^ 16 * b2 + 2 ^ 24 * b3) :: u32s_of_bytes bs'
  | _ => []
  end.

(** [memset(buf, c, n)]: the first [n] bytes of the buffer become [c]. *)
Definition memset (buf : list Z) (c n : Z) : option (list Z) :=
  if (0 <=? n) && (n <=? 4 * Z.of_nat (length buf))
  then Some (u32s_of_bytes (replicate (Z.to_nat n) (c mod 256)
                              ++ drop (Z.to_nat n) (buffer_bytes buf)))
  else None.

Fixpoint bytes_cmp (a b : list Z) : Z :=
  match a, b with
  | x :: a', y :: b' => if x =? y then bytes_cmp a' b' else x - y
  | _, _ => 0
  end.

(** [memcmp(a, b, n)]: compares the first [n] bytes of the two buffers. *)
Definition memcmp (a b : list Z) (n : Z) : option Z :=
  if (0 <=? n) && (n <=? 4 * Z.of_nat (length a)) && (n <=? 4 * Z.of_nat (length b))
  then Some (bytes_cmp (take (Z.to_nat n) (buffer_bytes a))
                       (take (Z.to_nat n) (buffer_bytes b)))
  else None.

(** What the program does to the outside, in order.  The three lines written
    to [cout] at the end carry clock readings, which are not modelled. *)
Inductive event :=
  | Printf (s : string)
  | CinInt
  | CoutTimes
  | SystemPause.

Definition newline : string := String (Ascii.ascii_of_nat 10) EmptyString.

Definition transcoder : Type := list Z -> list Z -> Z -> Z -> bool -> option (list Z).

(** The test of the [if] in the benchmark loop:
    [memcmp(slowSwizzlePixels, fastSwizzlePixels, max_h * max_w) != 0]. *)
Definition outputs_differ (slowSwizzlePixels fastSwizzlePixels : list Z)
    (max_w max_h : Z) : option bool :=
  let? c := memcmp slowSwizzlePixels fastSwizzlePixels (max_h * max_w) in
  Some (negb (c =? 0)).

(** One pass through the benchmark loop, on the two output buffers and the
    events so far.  The two transcoders are parameters; [swap] takes its
    default, [false]. *)
Definition bench_iteration (slow fast : transcoder) (linearPixels : list Z)
    (max_w max_h : Z) (st : list Z * list Z * list event)
    : option (list Z * list Z * list event) :=
  let '(slowSwizzlePixels, fastSwizzlePixels, out) := st in
  let? slowSwizzlePixels := memset slowSwizzlePixels 0xcc (max_w * max_h) in
  let? fastSwizzlePixels := memset fastSwizzlePixels 0xcc (max_w * max_h) in
  let? slowSwizzlePixels := slow linearPixels slowSwizzlePixels max_w max_h false in
  let? fastSwizzlePixels := fast linearPixels fastSwizzlePixels max_w max_h false in
  let? differ := outputs_differ slowSwizzlePixels fastSwizzlePixels max_w max_h in
  Some (slowSwizzlePixels, fastSwizzlePixels,
        if differ then out ++ [Printf ("mismatch!" ++ newline); CinInt] else out).

(** [main] over two transcoders.  The three arguments are the contents of the
    three [new u32[max_w * max_h]] arrays as allocated, which C++ leaves
    indeterminate.  The result is the events and the exit status. *)
Definition main_with (slow fast : transcoder) (linear0 slow0 fast0 : list Z)
    : option (list event * Z) :=
  let max_h := 128 in
  let max_w := 128 in
  let numTimes := 4 in
  let? linearPixels :=
    for_lt (max_w * max_h) (fun i linearPixels => store linearPixels i i) linear0 in
  let? (_, out) :=
    for_lt numTimes (fun count st =>
      bench_iteration slow fast linearPixels max_w max_h st)
    (slow0, fast0, []) in
  Some (out ++ [CoutTimes; SystemPause], 0).

Definition main : list Z -> list Z -> list Z -> option (list event * Z) :=
  main_with slowSwizzle fastSwizzle.

(** Either transcoder, chosen by a flag. *)
Definition run_transcoder (use_fast : bool) : transcoder :=
  if use_fast then fastSwizzle else slowSwizzle.

(** What the benchmark emits when the comparison of a pass fails. *)
Definition mismatch_report : list event :=
  [Printf ("mismatch!" ++ newline); CinInt].




(** ** Bit-level facts *)

Lemma wrap32_small v : 0 <= v < 2 ^ 32 -> wrap32 v = v.
Proof. intros H. unfold wrap32. apply Z.mod_small. exact H. Qed.

Lemma wrap32_range v : 0 <= wrap32 v < 2 ^ 32.
Proof. unfold wrap32. apply Z.mod_pos_bound. lia. Qed.

Lemma sint32_small v : 0 <= v < 2 ^ 31 -> sint32 v = v.
Proof. intros H. unfold sint32. rewrite Z.mod_small; lia. Qed.


Lemma pow2_gt0 n : 0 <= n -> 0 < 2 ^ n.
Proof. intros H. apply Z.pow_pos_nonneg; lia. Qed.

Lemma pow2_succ_nat (n : nat) : 2 ^ Z.of_nat (Datatypes.S n) = 2 * 2 ^ Z.of_nat n.
Proof. rewrite Nat2Z.inj_succ, Z.pow_succ_r by lia. reflexivity. Qed.

Lemma land_wrap32 t M : 0 <= M < 2 ^ 32 -> Z.land (wrap32 t) M = Z.land t M.
Proof.
  intros HM. unfold wrap32.
  rewrite <- Z.land_ones by lia.
  rewrite <- Z.land_assoc. f_equal.
  rewrite Z.land_comm, Z.land_ones by lia.
  apply Z.mod_small. exact HM.
Qed.

(** A value below [2^n] and a multiple of [2^n] share no bit, so their
    bitwise or is their sum. *)
Lemma land_low_high a t n : 0 <= n -> 0 <= a < 2 ^ n -> Z.land a (t * 2 ^ n) = 0.
Proof.
  intros Hn Ha. apply Z.bits_inj'. intros i Hi.
  rewrite Z.land_spec, Z.bits_0.
  destruct (Z.lt_ge_cases i n) as [Hlt | Hge].
  - rewrite Z.mul_pow2_bits_low by lia. apply andb_false_r.
  - rewrite <- (Z.mod_small a (2 ^ n)) by lia.
    rewrite Z.mod_pow2_bits_high by lia. reflexivity.
Qed.

Lemma lor_low_high a t n :
  0 <= n -> 0 <= a < 2 ^ n -> Z.lor a (t * 2 ^ n) = a + t * 2 ^ n.
Proof.
  intros Hn Ha.
  pose proof (Z.add_lor_land a (t * 2 ^ n)) as H.
  rewrite (land_low_high a t n Hn Ha) in H. lia.
Qed.

Lemma land_double_bit a b (p q : bool) :
  Z.land (2 * a + Z.b2z p) (2 * b + Z.b2z q) = 2 * Z.land a b + Z.b2z (p && q).
Proof.
  apply Z.bits_inj'. intros i Hi.
  rewrite Z.land_spec.
  destruct (Z.eq_dec i 0) as [-> | Hne].
  - rewrite !Z.testbit_0_r. reflexivity.
  - replace i with (Z.succ (i - 1)) by lia.
    rewrite !Z.testbit_succ_r by lia.
    rewrite Z.land_spec. reflexivity.
Qed.

Lemma land_double a b : Z.land (2 * a) (2 * b) = 2 * Z.land a b.
Proof.
  pose proof (land_double_bit a b false false) as H. simpl in H.
  rewrite !Z.add_0_r in H. exact H.
Qed.

Lemma land_quad_01 a b : Z.land (4 * a) (1 + 4 * b) = 4 * Z.land a b.
Proof.
  replace (4 * a) with (2 * (2 * a + Z.b2z false) + Z.b2z false) by (simpl; lia).
  replace (1 + 4 * b) with (2 * (2 * b + Z.b2z false) + Z.b2z true) by (simpl; lia).
  rewrite !land_double_bit. simpl. lia.
Qed.

Lemma land_quad_11 a b : Z.land (1 + 4 * a) (1 + 4 * b) = 1 + 4 * Z.land a b.
Proof.
  replace (1 + 4 * a) with (2 * (2 * a + Z.b2z false) + Z.b2z true) by (simpl; lia).
  replace (1 + 4 * b) with (2 * (2 * b + Z.b2z false) + Z.b2z true) by (simpl; lia).
  rewrite !land_double_bit. simpl. lia.
Qed.

Lemma land_quad_31 a b : Z.land (3 + 4 * a) (1 + 4 * b) = 1 + 4 * Z.land a b.
Proof.
  replace (3 + 4 * a) with (2 * (2 * a + Z.b2z true) + Z.b2z true) by (simpl; lia).
  replace (1 + 4 * b) with (2 * (2 * b + Z.b2z false) + Z.b2z true) by (simpl; lia).
  rewrite !land_double_bit. simpl. lia.
Qed.

(** Subtracting a mask from one of its subsets, and one more, borrows
    through exactly the bits outside the mask. *)
Lemma land_sub_pred_mask o M : Z.land o M = o -> Z.land (o - M - 1) M = o.
Proof.
  intros Hsub.
  assert (Hdis : Z.land o (Z.lnot M) = 0).
  { rewrite <- Hsub, <- Z.land_assoc, Z.land_lnot_diag. apply Z.land_0_r. }
  rewrite <- Z.add_lnot_r.
  pose proof (Z.add_lor_land o (Z.lnot M)) as H. rewrite Hdis in H.
  replace (o + Z.lnot M) with (Z.lor o (Z.lnot M)) by lia.
  rewrite Z.land_lor_distr_l, Hsub.
  rewrite (Z.land_comm (Z.lnot M)), Z.land_lnot_diag. apply Z.lor_0_r.
Qed.

(** ** The lanes of the fast transcoder *)

Lemma lane_nonneg m : forall v, 0 <= v -> 0 <= lane m v.
Proof.
  induction m as [| m IH]; intros v Hv; simpl; [exact Hv |].
  assert (0 <= v / 2) by (apply Z.div_pos; lia).
  pose proof (Z.mod_pos_bound v 2 ltac:(lia)).
  specialize (IH (v / 2) H). lia.
Qed.

Lemma lane_eq_0 m : forall v, 0 <= v -> lane m v = 0 -> v = 0.
Proof.
  induction m as [| m IH]; intros v Hv H0; simpl in H0; [exact H0 |].
  assert (Hd : 0 <= v / 2) by (apply Z.div_pos; lia).
  pose proof (Z.mod_pos_bound v 2 ltac:(lia)) as Hm.
  pose proof (lane_nonneg m (v / 2) Hd) as Hl.
  assert (Hl0 : lane m (v / 2) = 0) by lia.
  specialize (IH _ Hd Hl0).
  pose proof (Z.div_mod v 2 ltac:(lia)). lia.
Qed.

Lemma lane_0 m : lane m 0 = 0.
Proof. induction m as [| m IH]; simpl; [reflexivity |]. rewrite Zdiv_0_l, IH. reflexivity. Qed.

Lemma lane_succ_odd m q : lane (Datatypes.S m) (2 * q + 1) = 1 + 4 * lane m q.
Proof.
  clear shl_oob.
  simpl. replace ((2 * q + 1) mod 2) with 1 by (Z.div_mod_to_equations; lia).
  replace ((2 * q + 1) / 2) with q by (Z.div_mod_to_equations; lia).
  reflexivity.
Qed.

Lemma lane_succ_even m q : lane (Datatypes.S m) (2 * q) = 4 * lane m q.
Proof.
  clear shl_oob.
  simpl. replace ((2 * q) mod 2) with 0 by (Z.div_mod_to_equations; lia).
  replace (2 * q / 2) with q by (Z.div_mod_to_equations; lia).
  reflexivity.
Qed.

Lemma pow2_succ_add (m : nat) K :
  0 <= K -> 2 ^ (Z.of_nat (Datatypes.S m) + K) = 2 * 2 ^ (Z.of_nat m + K).
Proof.
  intros HK. rewrite Nat2Z.inj_succ.
  replace (Z.succ (Z.of_nat m) + K) with (Z.succ (Z.of_nat m + K)) by lia.
  apply Z.pow_succ_r. lia.
Qed.

Lemma land_pow2_pred a n : 0 <= n -> Z.land a (2 ^ n - 1) = a mod 2 ^ n.
Proof.
  intros Hn. rewrite <- Z.land_ones by lia. f_equal.
  rewrite Z.ones_equiv. lia.
Qed.

(** The mask [lane m (2^(m+K) - 1)] has the [m] low even positions and the
    [K] positions from [2m] on.  Every [lane m v] with [v] below [2^(m+K)]
    lies within it. *)
Lemma lane_subset m : forall K v,
  0 <= K -> 0 <= v < 2 ^ (Z.of_nat m + K) ->
  Z.land (lane m v) (lane m (2 ^ (Z.of_nat m + K) - 1)) = lane m v.
Proof.
  clear shl_oob.
  induction m as [| m IH]; intros K v HK Hv.
  - simpl in *. rewrite land_pow2_pred by lia.
    apply Z.mod_small. lia.
  - rewrite pow2_succ_add in * by lia.
    set (P := 2 ^ (Z.of_nat m + K)) in *.
    replace (2 * P - 1) with (2 * (P - 1) + 1) by lia.
    rewrite lane_succ_odd.
    pose proof (Z.div_mod v 2 ltac:(lia)) as Hdm.
    pose proof (Z.mod_pos_bound v 2 ltac:(lia)) as Hr.
    assert (Hq : 0 <= v / 2 < P) by lia.
    specialize (IH K (v / 2) HK Hq). fold P in IH.
    assert (Hc : v mod 2 = 0 \/ v mod 2 = 1) by lia.
    simpl lane. destruct Hc as [-> | ->].
    + rewrite Z.add_0_l, land_quad_01, IH. reflexivity.
    + rewrite land_quad_11, IH. reflexivity.
Qed.

(** The carry trick: subtracting the mask and masking again advances the
    value spread over the mask by one. *)
Lemma lane_masked_step m : forall K v,
  0 <= K -> 0 <= v < 2 ^ (Z.of_nat m + K) ->
  Z.land (lane m v - lane m (2 ^ (Z.of_nat m + K) - 1))
         (lane m (2 ^ (Z.of_nat m + K) - 1))
  = lane m ((v + 1) mod 2 ^ (Z.of_nat m + K)).
Proof.
  clear shl_oob.
  induction m as [| m IH]; intros K v HK Hv.
  - change (Z.of_nat 0) with 0 in *. rewrite Z.add_0_l in *.
    simpl lane. rewrite land_pow2_pred by lia.
    replace (v - (2 ^ K - 1)) with (v + 1 + (-1) * 2 ^ K) by lia.
    apply Z.mod_add. pose proof (pow2_gt0 K HK). lia.
  - pose proof (lane_subset m K (v / 2) HK) as Hsub.
    rewrite pow2_succ_add in * by lia.
    set (P := 2 ^ (Z.of_nat m + K)) in *.
    replace (2 * P - 1) with (2 * (P - 1) + 1) by lia.
    rewrite lane_succ_odd.
    pose proof (Z.div_mod v 2 ltac:(lia)) as Hdm.
    pose proof (Z.mod_pos_bound v 2 ltac:(lia)) as Hr.
    assert (Hq : 0 <= v / 2 < P) by lia.
    specialize (IH K (v / 2) HK Hq). fold P in IH.
    specialize (Hsub Hq).
    assert (Hc : v mod 2 = 0 \/ v mod 2 = 1) by lia.
    destruct Hc as [Hc | Hc].
    + rewrite Z.mod_small by lia.
      replace (v + 1) with (2 * (v / 2) + 1) by lia.
      rewrite lane_succ_odd.
      replace v with (2 * (v / 2)) at 1 by lia.
      rewrite lane_succ_even.
      replace (4 * lane m (v / 2) - (1 + 4 * lane m (P - 1)))
        with (3 + 4 * (lane m (v / 2) - lane m (P - 1) - 1)) by lia.
      rewrite land_quad_31, land_sub_pred_mask by exact Hsub.
      reflexivity.
    + replace v with (2 * (v / 2) + 1) at 1 by lia.
      rewrite lane_succ_odd.
      replace (1 + 4 * lane m (v / 2) - (1 + 4 * lane m (P - 1)))
        with (4 * (lane m (v / 2) - lane m (P - 1))) by lia.
      rewrite land_quad_01, IH.
      replace (v + 1) with (2 * (v / 2 + 1)) by lia.
      rewrite Z.mul_mod_distr_l by lia.
      rewrite lane_succ_even. reflexivity.
Qed.

Lemma lane_high m : forall c v,
  0 <= v < 2 ^ Z.of_nat m ->
  lane m (2 ^ Z.of_nat m * c + v) = 4 ^ Z.of_nat m * c + lane m v.
Proof.
  induction m as [| m IH]; intros c v Hv.
  - simpl. lia.
  - rewrite pow2_succ_nat in *.
    rewrite Nat2Z.inj_succ, Z.pow_succ_r by lia.
    set (P := 2 ^ Z.of_nat m) in *.
    simpl lane.
    pose proof (Z.div_mod v 2 ltac:(lia)) as Hdm.
    pose proof (Z.mod_pos_bound v 2 ltac:(lia)) as Hr.
    replace (2 * P * c + v) with (v + (P * c) * 2) by lia.
    rewrite Z.mod_add, Z.div_add by lia.
    rewrite (Z.add_comm (v / 2)), IH by lia.
    lia.
Qed.

Lemma lane_bound m : forall K v,
  0 <= K -> 0 <= v < 2 ^ (Z.of_nat m + K) ->
  0 <= lane m v < 4 ^ Z.of_nat m * 2 ^ K.
Proof.
  induction m as [| m IH]; intros K v HK Hv.
  - change (Z.of_nat 0) with 0 in *. rewrite Z.add_0_l in Hv.
    simpl lane. rewrite Z.pow_0_r. lia.
  - rewrite pow2_succ_add in Hv by lia.
    rewrite Nat2Z.inj_succ, Z.pow_succ_r by lia.
    pose proof (Z.div_mod v 2 ltac:(lia)) as Hdm.
    pose proof (Z.mod_pos_bound v 2 ltac:(lia)) as Hr.
    assert (Hq : 0 <= v / 2 < 2 ^ (Z.of_nat m + K)) by lia.
    specialize (IH K (v / 2) HK Hq). simpl lane. lia.
Qed.

(** The constants of [fastSwizzle] as lanes.  The two 24-bit patterns
    [0x555555] and [0xAAAAAA] carry twelve lane positions each, which is why
    the smaller dimension may have at most twelve bits. *)
Lemma fast_masks_pow2 (a b : Z) (m : nat) :
  0 <= a <= 15 -> 0 <= b <= 15 -> Z.of_nat m = Z.min a b -> (m <= 12)%nat ->
  fast_masks (2 ^ a) (2 ^ b)
  = (lane m (2 ^ (Z.of_nat m + (32 - 2 * Z.of_nat m)) - 1),
     2 * lane m (2 ^ (Z.of_nat m + 0) - 1),
     4 ^ Z.of_nat m).
Proof.
  intros Ha Hb Hm Hle. unfold fast_masks, log2_trunc.
  rewrite !Z.log2_pow2 by lia.
  replace (if a <? b then a else b) with (Z.of_nat m)
    by (destruct (Z.ltb_spec a b); lia).
  clear Ha Hb Hm a b.
  do 13 (destruct m as [| m]; [vm_compute; reflexivity |]).
  lia.
Qed.

Lemma col_step (m : nat) v :
  (m <= 12)%nat -> 0 <= v -> v + 1 < 2 ^ 20 ->
  masked_next (lane m (2 ^ (Z.of_nat m + (32 - 2 * Z.of_nat m)) - 1)) (lane m v)
  = lane m (v + 1).
Proof.
  clear shl_oob.
  intros Hm Hv Hlt. unfold masked_next.
  set (K := 32 - 2 * Z.of_nat m).
  assert (HK : 0 <= K) by lia.
  assert (Hp : 2 ^ 20 <= 2 ^ (Z.of_nat m + K))
    by (apply Z.pow_le_mono_r; lia).
  assert (Hpos : 0 < 2 ^ (Z.of_nat m + K)) by lia.
  rewrite land_wrap32.
  - rewrite lane_masked_step by lia.
    rewrite Z.mod_small by lia. reflexivity.
  - pose proof (lane_bound m K (2 ^ (Z.of_nat m + K) - 1) HK ltac:(lia)) as Hb.
    replace (4 ^ Z.of_nat m) with (2 ^ (2 * Z.of_nat m)) in Hb
      by (rewrite Z.pow_mul_r by lia; reflexivity).
    rewrite <- Z.pow_add_r in Hb by lia.
    replace (2 * Z.of_nat m + K) with 32 in Hb by lia.
    exact Hb.
Qed.

Lemma row_step (m : nat) u :
  (m <= 12)%nat -> 0 <= u < 2 ^ Z.of_nat m ->
  masked_next (2 * lane m (2 ^ (Z.of_nat m + 0) - 1)) (2 * lane m u)
  = 2 * lane m ((u + 1) mod 2 ^ Z.of_nat m).
Proof.
  clear shl_oob.
  intros Hm Hu. unfold masked_next.
  pose proof (pow2_gt0 (Z.of_nat m) ltac:(lia)) as Hpos.
  rewrite land_wrap32.
  - replace (2 * lane m u - 2 * lane m (2 ^ (Z.of_nat m + 0) - 1))
      with (2 * (lane m u - lane m (2 ^ (Z.of_nat m + 0) - 1))) by lia.
    rewrite land_double, lane_masked_step by (rewrite ?Z.add_0_r; lia).
    rewrite Z.add_0_r. reflexivity.
  - rewrite Z.add_0_r.
    pose proof (lane_bound m 0 (2 ^ Z.of_nat m - 1) ltac:(lia)
                  ltac:(rewrite Z.add_0_r; lia)) as Hb.
    assert (4 ^ Z.of_nat m <= 4 ^ 12) by (apply Z.pow_le_mono_r; lia).
    change (4 ^ 12) with 16777216 in *. change (2 ^ 0) with 1 in Hb.
    change (2 ^ 32) with 4294967296. lia.
Qed.

Lemma div_mod_succ P y :
  0 < P -> 0 <= y ->
  (y + 1) / P = (if (y + 1) mod P =? 0 then y / P + 1 else y / P).
Proof.
  clear shl_oob.
  intros HP Hy.
  destruct (Z.eqb_spec ((y + 1) mod P) 0) as [H0 | Hn];
    Z.div_mod_to_equations; nia.
Qed.

Lemma fast_next_row_lane (m : nat) y :
  (m <= 12)%nat -> 0 <= y < 2 ^ 15 ->
  fast_next_row (2 * lane m (2 ^ (Z.of_nat m + 0) - 1)) (4 ^ Z.of_nat m)
    (2 * lane m (y mod 2 ^ Z.of_nat m), 4 ^ Z.of_nat m * (y / 2 ^ Z.of_nat m))
  = (2 * lane m ((y + 1) mod 2 ^ Z.of_nat m),
     4 ^ Z.of_nat m * ((y + 1) / 2 ^ Z.of_nat m)).
Proof.
  clear shl_oob.
  intros Hm Hy. unfold fast_next_row.
  pose proof (pow2_gt0 (Z.of_nat m) ltac:(lia)) as Hpos.
  set (P := 2 ^ Z.of_nat m) in *.
  pose proof (Z.mod_pos_bound y P Hpos) as Hr.
  rewrite row_step by (fold P; lia). fold P.
  rewrite Z.add_mod_idemp_l by lia.
  rewrite (div_mod_succ P y) by lia.
  pose proof (Z.mod_pos_bound (y + 1) P Hpos) as Hr'.
  assert (Hq : 0 <= y / P <= y) by (split; [apply Z.div_pos; lia | apply Z.div_le_upper_bound; nia]).
  assert (H4 : 4 ^ Z.of_nat m = P * P)
    by (change 4 with (2 * 2); apply Z.pow_mul_l).
  assert (HP : P <= 2 ^ 12) by (apply Z.pow_le_mono_r; lia).
  pose proof (Z.mul_div_le y P Hpos) as Hmd.
  change (2 ^ 12) with 4096 in HP. change (2 ^ 15) with 32768 in Hy.
  destruct (Z.eqb_spec ((y + 1) mod P) 0) as [H0 | Hn].
  - rewrite H0, lane_0. simpl (2 * 0 =? 0).
    cbv iota. rewrite wrap32_small; [f_equal; lia |].
    change (2 ^ 32) with 4294967296. rewrite H4.
    assert (P * (P * (y / P)) <= P * y) by (apply Z.mul_le_mono_nonneg_l; lia).
    assert (P * y <= 4096 * 32768) by (apply Z.mul_le_mono_nonneg; lia).
    assert (P * P <= 4096 * 4096) by (apply Z.mul_le_mono_nonneg; lia).
    assert (0 <= P * (P * (y / P))) by (apply Z.mul_nonneg_nonneg; [| apply Z.mul_nonneg_nonneg]; lia).
    lia.
  - destruct (Z.eqb_spec (2 * lane m ((y + 1) mod P)) 0) as [E | _]; [| reflexivity].
    exfalso. apply Hn. apply (lane_eq_0 m); lia.
Qed.

(** ** The interleaved offset *)

Lemma mod_double_mod2 P y : 0 < P -> (y mod (2 * P)) mod 2 = y mod 2.
Proof.
  intros HP. rewrite Z.rem_mul_r by lia.
  rewrite (Z.mul_comm 2), Z.mod_add by lia.
  apply Z.mod_mod. lia.
Qed.

Lemma mod_double_div2 P y : 0 < P -> (y mod (2 * P)) / 2 = (y / 2) mod P.
Proof.
  intros HP. rewrite Z.rem_mul_r by lia.
  rewrite (Z.mul_comm 2), Z.div_add by lia.
  rewrite (Z.div_small (y mod 2)) by (apply Z.mod_pos_bound; lia).
  lia.
Qed.

Lemma mod_pow2_succ (n : nat) v :
  v mod 2 ^ Z.of_nat (Datatypes.S n) = v mod 2 + 2 * ((v / 2) mod 2 ^ Z.of_nat n).
Proof.
  rewrite pow2_succ_nat. apply Z.rem_mul_r; [lia |].
  apply pow2_gt0. lia.
Qed.

Lemma interleave_lanes nx : forall ny x y,
  0 <= x < 2 ^ Z.of_nat nx -> 0 <= y < 2 ^ Z.of_nat ny ->
  interleave nx ny x y
  = 2 * lane (Nat.min nx ny) (y mod 2 ^ Z.of_nat (Nat.min nx ny))
    + lane (Nat.min nx ny)
        (2 ^ Z.of_nat (Nat.min nx ny) * (y / 2 ^ Z.of_nat (Nat.min nx ny)) + x).
Proof.
  induction nx as [| nx IH]; intros ny x y Hx Hy.
  - simpl. change (2 ^ 0) with 1 in *.
    rewrite Z.mod_1_r, Z.div_1_r, Z.mod_small by lia. lia.
  - destruct ny as [| ny].
    + simpl interleave. simpl Nat.min. simpl lane.
      change (2 ^ Z.of_nat 0) with 1 in *.
      rewrite Z.mod_1_r, Z.div_1_r, Z.mod_small by lia. lia.
    + simpl interleave. simpl Nat.min.
      rewrite pow2_succ_nat in Hx, Hy.
      pose proof (Z.div_mod x 2 ltac:(lia)) as Hdx.
      pose proof (Z.mod_pos_bound x 2 ltac:(lia)) as Hrx.
      pose proof (Z.div_mod y 2 ltac:(lia)) as Hdy.
      pose proof (Z.mod_pos_bound y 2 ltac:(lia)) as Hry.
      rewrite (IH ny (x / 2) (y / 2)) by lia.
      rewrite pow2_succ_nat.
      pose proof (pow2_gt0 (Z.of_nat (Nat.min nx ny)) ltac:(lia)) as HP.
      set (P := 2 ^ Z.of_nat (Nat.min nx ny)) in *.
      simpl lane.
      rewrite mod_double_mod2, mod_double_div2 by lia.
      rewrite <- (Z.div_div y 2 P) by lia.
      replace (2 * P * (y / 2 / P) + x) with (x + (P * (y / 2 / P)) * 2) by lia.
      rewrite Z.mod_add, Z.div_add by lia.
      rewrite (Z.add_comm (x / 2)). lia.
Qed.

Lemma interleave_bound nx : forall ny x y,
  0 <= interleave nx ny x y < 2 ^ (Z.of_nat nx + Z.of_nat ny).
Proof.
  induction nx as [| nx IH]; intros ny x y.
  - simpl. apply Z.mod_pos_bound. apply pow2_gt0. lia.
  - destruct ny as [| ny].
    + simpl interleave. rewrite Z.add_0_r. apply Z.mod_pos_bound.
      apply pow2_gt0. lia.
    + simpl interleave.
      replace (Z.of_nat (Datatypes.S nx) + Z.of_nat (Datatypes.S ny))
        with (Z.succ (Z.succ (Z.of_nat nx + Z.of_nat ny))) by lia.
      rewrite !Z.pow_succ_r by lia.
      specialize (IH ny (x / 2) (y / 2)).
      pose proof (Z.mod_pos_bound x 2 ltac:(lia)).
      pose proof (Z.mod_pos_bound y 2 ltac:(lia)).
      lia.
Qed.

Lemma interleave_inj nx : forall ny x y x' y',
  0 <= x < 2 ^ Z.of_nat nx -> 0 <= y < 2 ^ Z.of_nat ny ->
  0 <= x' < 2 ^ Z.of_nat nx -> 0 <= y' < 2 ^ Z.of_nat ny ->
  interleave nx ny x y = interleave nx ny x' y' -> x = x' /\ y = y'.
Proof.
  induction nx as [| nx IH]; intros ny x y x' y' Hx Hy Hx' Hy' E.
  - simpl in E. change (2 ^ Z.of_nat 0) with 1 in *.
    rewrite !Z.mod_small in E by lia. lia.
  - destruct ny as [| ny].
    + simpl interleave in E. change (2 ^ Z.of_nat 0) with 1 in *.
      rewrite !Z.mod_small in E by lia. lia.
    + simpl interleave in E. rewrite pow2_succ_nat in Hx, Hy, Hx', Hy'.
      pose proof (Z.div_mod x 2 ltac:(lia)).
      pose proof (Z.mod_pos_bound x 2 ltac:(lia)).
      pose proof (Z.div_mod y 2 ltac:(lia)).
      pose proof (Z.mod_pos_bound y 2 ltac:(lia)).
      pose proof (Z.div_mod x' 2 ltac:(lia)).
      pose proof (Z.mod_pos_bound x' 2 ltac:(lia)).
      pose proof (Z.div_mod y' 2 ltac:(lia)).
      pose proof (Z.mod_pos_bound y' 2 ltac:(lia)).
      destruct (IH ny (x / 2) (y / 2) (x' / 2) (y' / 2)) as [E1 E2]; lia.
Qed.

Lemma double_add_mod2 q r : 0 <= r < 2 -> (2 * q + r) mod 2 = r.
Proof. clear shl_oob. intros H. Z.div_mod_to_equations. lia. Qed.

Lemma double_add_div2 q r : 0 <= r < 2 -> (2 * q + r) / 2 = q.
Proof. clear shl_oob. intros H. Z.div_mod_to_equations. lia. Qed.

Lemma interleave_surj nx : forall ny o,
  0 <= o < 2 ^ (Z.of_nat nx + Z.of_nat ny) ->
  exists x y, 0 <= x < 2 ^ Z.of_nat nx /\ 0 <= y < 2 ^ Z.of_nat ny /\
              interleave nx ny x y = o.
Proof.
  clear shl_oob.
  induction nx as [| nx IH]; intros ny o Ho.
  - exists 0, o. change (Z.of_nat 0) with 0 in *. rewrite Z.add_0_l in Ho.
    simpl. rewrite Z.mod_small by lia. change (2 ^ 0) with 1. lia.
  - destruct ny as [| ny].
    + exists o, 0. change (Z.of_nat 0) with 0 in *. rewrite Z.add_0_r in Ho.
      simpl interleave. rewrite Z.mod_small by lia. change (2 ^ 0) with 1. lia.
    + replace (Z.of_nat (Datatypes.S nx) + Z.of_nat (Datatypes.S ny))
        with (Z.succ (Z.succ (Z.of_nat nx + Z.of_nat ny))) in Ho by lia.
      rewrite !Z.pow_succ_r in Ho by lia.
      pose proof (Z.div_mod o 4 ltac:(lia)) as Hd.
      pose proof (Z.mod_pos_bound o 4 ltac:(lia)) as Hr.
      destruct (IH ny (o / 4) ltac:(lia)) as (x & y & Hx & Hy & E).
      exists (2 * x + (o mod 4) mod 2), (2 * y + (o mod 4) / 2).
      rewrite !pow2_succ_nat. simpl interleave.
      pose proof (Z.div_mod (o mod 4) 2 ltac:(lia)).
      pose proof (Z.mod_pos_bound (o mod 4) 2 ltac:(lia)).
      assert (0 <= o mod 4 / 2 < 2) by (split; [apply Z.div_pos | apply Z.div_lt_upper_bound]; lia).
      rewrite !double_add_mod2, !double_add_div2 by lia.
      rewrite E. lia.
Qed.

Lemma of_bits_bits_of n : forall v, of_bits (bits_of n v) = v mod 2 ^ Z.of_nat n.
Proof.
  induction n as [| n IH]; intros v.
  - simpl. symmetry. apply Z.mod_1_r.
  - simpl bits_of. simpl of_bits. rewrite IH, mod_pow2_succ.
    rewrite <- Z.bit0_mod, Z.bit0_odd. reflexivity.
Qed.

Lemma interleave_spec_eq nx : forall ny x y,
  of_bits (alternate (bits_of nx x) (bits_of ny y)) = interleave nx ny x y.
Proof.
  induction nx as [| nx IH]; intros ny x y.
  - simpl. apply of_bits_bits_of.
  - destruct ny as [| ny].
    + change (interleave (Datatypes.S nx) 0 x y)
        with (x mod 2 ^ Z.of_nat (Datatypes.S nx)).
      rewrite <- of_bits_bits_of. reflexivity.
    + simpl. rewrite IH. rewrite <- !Z.bit0_mod, !Z.bit0_odd. lia.
Qed.

(** ** linear_to_swizzle computes the interleaved offset *)

Lemma take_bit_zero offset sc v : take_bit offset sc v 0 = (offset, sc, v, 0).
Proof. reflexivity. Qed.

Lemma land_1_mod2 v : Z.land v 1 = v mod 2.
Proof. change 1 with (Z.ones 1). apply Z.land_ones. lia. Qed.

Lemma take_bit_pos offset sc v budget :
  0 < budget < 2 ^ 32 -> 0 <= sc < 32 -> 0 <= offset < 2 ^ sc ->
  take_bit offset sc v budget
  = (offset + v mod 2 * 2 ^ sc, sc + 1, v / 2, budget - 1).
Proof.
  intros Hb Hsc Ho. unfold take_bit, shl32.
  destruct (Z.eqb_spec budget 0) as [-> | _]; [lia |].
  destruct (Z.ltb_spec sc 32) as [_ | ?]; [| lia].
  rewrite land_1_mod2, Z.shiftl_mul_pow2, Z.shiftr_div_pow2 by lia.
  change (2 ^ 1) with 2.
  pose proof (Z.mod_pos_bound v 2 ltac:(lia)) as Hr.
  assert (Hp : 0 < 2 ^ sc <= 2 ^ 31)
    by (split; [apply pow2_gt0; lia | apply Z.pow_le_mono_r; lia]).
  change (2 ^ 31) with 2147483648 in Hp.
  rewrite !wrap32_small by (change (2 ^ 32) with 4294967296 in *; nia).
  rewrite lor_low_high by lia. reflexivity.
Qed.

Lemma interleave_x_only n x y : interleave n 0 x y = x mod 2 ^ Z.of_nat n.
Proof. destruct n; [| reflexivity]. simpl. rewrite !Z.mod_1_r. reflexivity. Qed.

Lemma swz_loop_interleave fuel : forall (nx ny : nat) x y offset sc,
  (Nat.max nx ny <= fuel)%nat ->
  0 <= sc -> sc + Z.of_nat nx + Z.of_nat ny <= 32 ->
  0 <= offset < 2 ^ sc ->
  swz_loop fuel (SwzState x y 0 (Z.of_nat nx) (Z.of_nat ny) 0 offset sc)
  = Some (offset + 2 ^ sc * interleave nx ny x y).
Proof.
  induction fuel as [| fuel IH]; intros nx ny x y offset sc Hf Hsc Hsum Ho.
  - assert (nx = 0%nat) by lia. assert (ny = 0%nat) by lia. subst.
    simpl. rewrite Z.mod_1_r. f_equal. lia.
  - pose proof (Z.mod_pos_bound x 2 ltac:(lia)) as Hrx.
    pose proof (Z.mod_pos_bound y 2 ltac:(lia)) as Hry.
    pose proof (pow2_gt0 sc Hsc) as Hp.
    pose proof (Z.pow_succ_r 2 sc Hsc) as Hp1.
    pose proof (Z.pow_succ_r 2 (Z.succ sc) ltac:(lia)) as Hp2.
    destruct nx as [| nx], ny as [| ny].
    + simpl. rewrite Z.mod_1_r. f_equal. lia.
    + pose proof (IH 0%nat ny) as IH0. change (Z.of_nat 0) with 0 in *.
      cbn [swz_loop swz_log2_width swz_log2_height swz_log2_depth].
      rewrite Z.lor_0_r, Z.lor_0_l.
      destruct (Z.eqb_spec (Z.of_nat (Datatypes.S ny)) 0) as [? | _]; [lia |].
      unfold swz_body. cbn [swz_offset swz_shift_count swz_x swz_y swz_z
        swz_log2_width swz_log2_height swz_log2_depth].
      rewrite (take_bit_zero offset sc x).
      rewrite take_bit_pos by (change (2 ^ 32) with 4294967296; lia).
      rewrite take_bit_zero.
      replace (Z.of_nat (Datatypes.S ny) - 1) with (Z.of_nat ny) by lia.
      replace (sc + 1) with (Z.succ sc) by lia.
      rewrite IH0 by (try lia; nia).
      f_equal. simpl interleave. rewrite mod_pow2_succ. lia.
    + pose proof (IH nx 0%nat) as IH0. change (Z.of_nat 0) with 0 in *.
      cbn [swz_loop swz_log2_width swz_log2_height swz_log2_depth].
      rewrite !Z.lor_0_r.
      destruct (Z.eqb_spec (Z.of_nat (Datatypes.S nx)) 0) as [? | _]; [lia |].
      unfold swz_body. cbn [swz_offset swz_shift_count swz_x swz_y swz_z
        swz_log2_width swz_log2_height swz_log2_depth].
      rewrite take_bit_pos by (change (2 ^ 32) with 4294967296; lia).
      rewrite (take_bit_zero _ _ y), take_bit_zero.
      replace (Z.of_nat (Datatypes.S nx) - 1) with (Z.of_nat nx) by lia.
      replace (sc + 1) with (Z.succ sc) by lia.
      rewrite IH0 by (try lia; nia).
      f_equal. rewrite !interleave_x_only, mod_pow2_succ. lia.
    + cbn [swz_loop swz_log2_width swz_log2_height swz_log2_depth].
      rewrite Z.lor_0_r.
      destruct (Z.eqb_spec (Z.lor (Z.of_nat (Datatypes.S nx)) (Z.of_nat (Datatypes.S ny))) 0)
        as [E | _]; [apply Z.lor_eq_0_iff in E; lia |].
      unfold swz_body. cbn [swz_offset swz_shift_count swz_x swz_y swz_z
        swz_log2_width swz_log2_height swz_log2_depth].
      rewrite take_bit_pos by (change (2 ^ 32) with 4294967296; lia).
      replace (sc + 1) with (Z.succ sc) by lia.
      rewrite take_bit_pos by (change (2 ^ 32) with 4294967296; try lia; nia).
      rewrite take_bit_zero.
      replace (Z.of_nat (Datatypes.S nx) - 1) with (Z.of_nat nx) by lia.
      replace (Z.of_nat (Datatypes.S ny) - 1) with (Z.of_nat ny) by lia.
      replace (Z.succ sc + 1) with (Z.succ (Z.succ sc)) by lia.
      rewrite (IH nx ny) by (try lia; nia).
      f_equal. simpl interleave. lia.
Qed.

Lemma linear_to_swizzle_interleave x y bitsX bitsY :
  0 <= bitsX -> 0 <= bitsY -> bitsX + bitsY <= 32 ->
  linear_to_swizzle x y 0 bitsX bitsY 0
  = Some (interleave (Z.to_nat bitsX) (Z.to_nat bitsY) x y).
Proof.
  intros Hx Hy Hs. unfold linear_to_swizzle.
  rewrite <- (Z2Nat.id bitsX) at 2 by lia.
  rewrite <- (Z2Nat.id bitsY) at 2 by lia.
  rewrite swz_loop_interleave; [f_equal; lia | lia | lia | lia | lia].
Qed.

(** ** Loops *)

Lemma for_loop_inv {S : Type} (P : Z -> S -> Prop) (body : Z -> S -> option S) n :
  forall i s,
  P i s ->
  (forall j s, i <= j < i + Z.of_nat n -> P j s ->
     exists s', body j s = Some s' /\ P (j + 1) s') ->
  exists s', for_loop n i body s = Some s' /\ P (i + Z.of_nat n) s'.
Proof.
  induction n as [| n IH]; intros i s Hs Hbody.
  - exists s. simpl. rewrite Z.add_0_r. auto.
  - destruct (Hbody i s ltac:(lia) Hs) as (s1 & E1 & H1).
    destruct (IH (i + 1) s1 H1) as (s2 & E2 & H2).
    { intros j t Hj. apply Hbody. lia. }
    exists s2. simpl. rewrite E1. split; [exact E2 |].
    replace (i + Z.of_nat (Datatypes.S n)) with (i + 1 + Z.of_nat n) by lia.
    exact H2.
Qed.

Lemma for_lt_inv {S : Type} (P : Z -> S -> Prop) (body : Z -> S -> option S) hi s :
  0 <= hi -> P 0 s ->
  (forall j s, 0 <= j < hi -> P j s -> exists s', body j s = Some s' /\ P (j + 1) s') ->
  exists s', for_lt hi body s = Some s' /\ P hi s'.
Proof.
  intros Hhi Hs Hbody. unfold for_lt.
  destruct (for_loop_inv P body (Z.to_nat hi) 0 s Hs) as (s' & E & H).
  - intros j t Hj. apply Hbody. lia.
  - exists s'. split; [exact E |]. rewrite Z2Nat.id in H by lia. exact H.
Qed.

Lemma for_loop_sim {A B : Type} (R : Z -> A -> B -> Prop)
    (f : Z -> A -> option A) (g : Z -> B -> option B) n :
  forall i a b,
  R i a b ->
  (forall j a b, i <= j < i + Z.of_nat n -> R j a b ->
     option_sim (R (j + 1)) (f j a) (g j b)) ->
  option_sim (R (i + Z.of_nat n)) (for_loop n i f a) (for_loop n i g b).
Proof.
  induction n as [| n IH]; intros i a b Hab Hstep.
  - simpl. rewrite Z.add_0_r. exact Hab.
  - simpl. pose proof (Hstep i a b ltac:(lia) Hab) as H1.
    unfold option_sim in H1.
    destruct (f i a) as [a1 |], (g i b) as [b1 |]; try contradiction; [| exact I].
    replace (i + Z.of_nat (Datatypes.S n)) with (i + 1 + Z.of_nat n) by lia.
    apply IH; [exact H1 |].
    intros j a' b' Hj. apply Hstep. lia.
Qed.

Lemma for_lt_sim {A B : Type} (R : Z -> A -> B -> Prop)
    (f : Z -> A -> option A) (g : Z -> B -> option B) hi a b :
  0 <= hi -> R 0 a b ->
  (forall j a b, 0 <= j < hi -> R j a b -> option_sim (R (j + 1)) (f j a) (g j b)) ->
  option_sim (R hi) (for_lt hi f a) (for_lt hi g b).
Proof.
  intros Hhi Hab Hstep. unfold for_lt.
  pose proof (for_loop_sim R f g (Z.to_nat hi) 0 a b Hab) as H.
  rewrite Z.add_0_l, Z2Nat.id in H by lia.
  apply H. intros j a' b' Hj. apply Hstep. lia.
Qed.

(** ** Buffers *)

Lemma store_length d i v d' : store d i v = Some d' -> length d' = length d.
Proof.
  unfold store. destruct (_ && _); [| discriminate].
  intros [= <-]. apply length_insert.
Qed.

Lemma store_in d i v :
  0 <= i < Z.of_nat (length d) -> store d i v = Some (<[Z.to_nat i := v]> d).
Proof.
  intros Hi. unfold store.
  destruct (Z.leb_spec 0 i); [| lia].
  destruct (Z.ltb_spec i (Z.of_nat (length d))); [| lia].
  reflexivity.
Qed.

Lemma store_out d i v : ~ (0 <= i < Z.of_nat (length d)) -> store d i v = None.
Proof.
  intros Hi. unfold store.
  destruct (Z.leb_spec 0 i); [| reflexivity].
  destruct (Z.ltb_spec i (Z.of_nat (length d))); [lia | reflexivity].
Qed.

Lemma load_in (l : list Z) i :
  0 <= i < Z.of_nat (length l) -> exists v, load l i = Some v.
Proof.
  intros Hi. unfold load. destruct (Z.ltb_spec i 0); [lia |].
  destruct (lookup_lt_is_Some_2 l (Z.to_nat i)) as [v Hv]; [lia |].
  exists v. exact Hv.
Qed.

Lemma load_out (l : list Z) i : ~ (0 <= i < Z.of_nat (length l)) -> load l i = None.
Proof.
  intros Hi. unfold load. destruct (Z.ltb_spec i 0); [reflexivity |].
  apply lookup_ge_None. lia.
Qed.

Lemma load_store_eq d i v d' : store d i v = Some d' -> load d' i = Some v.
Proof.
  unfold store, load.
  destruct (Z.leb_spec 0 i); [| discriminate].
  destruct (Z.ltb_spec i (Z.of_nat (length d))); [| discriminate].
  intros [= <-]. destruct (Z.ltb_spec i 0); [lia |].
  apply list_lookup_insert_eq. lia.
Qed.

Lemma load_store_ne d i v d' j : store d i v = Some d' -> j <> i -> load d' j = load d j.
Proof.
  unfold store, load.
  destruct (Z.leb_spec 0 i); [| discriminate].
  destruct (Z.ltb_spec i (Z.of_nat (length d))); [| discriminate].
  intros [= <-] Hne. destruct (Z.ltb_spec j 0); [reflexivity |].
  apply list_lookup_insert_ne. lia.
Qed.

Lemma load_ext (a b : list Z) :
  length a = length b ->
  (forall i, 0 <= i < Z.of_nat (length a) -> load a i = load b i) -> a = b.
Proof.
  intros Hlen H. apply list_eq. intros k.
  destruct (Nat.lt_ge_cases k (length a)) as [Hk | Hk].
  - specialize (H (Z.of_nat k) ltac:(lia)). unfold load in H.
    destruct (Z.ltb_spec (Z.of_nat k) 0); [lia |].
    rewrite Nat2Z.id in H. exact H.
  - rewrite !lookup_ge_None_2 by lia. reflexivity.
Qed.

(** ** The two transcoders make the same accesses *)

Lemma option_sim_eq {A : Type} (oa ob : option A) : option_sim eq oa ob -> oa = ob.
Proof.
  unfold option_sim. destruct oa, ob; intros H; try contradiction; congruence.
Qed.

Lemma pow2_le_dim (a : nat) : (a <= 15)%nat -> 0 < 2 ^ Z.of_nat a <= 32768.
Proof.
  intros Ha. split; [apply pow2_gt0; lia |].
  change 32768 with (2 ^ 15). apply Z.pow_le_mono_r; lia.
Qed.

Lemma row_base_bounds P y : 0 < P -> 0 <= y -> 0 <= P * (y / P) <= y.
Proof.
  intros HP Hy. pose proof (Z.mul_div_le y P HP).
  assert (0 <= y / P) by (apply Z.div_pos; lia). nia.
Qed.

(** The offset of [linear_to_swizzle] split the way [fastSwizzle] builds it:
    the row part [offs_y] plus the column part [offs_x]. *)
Lemma swizzle_offset_split (a b : nat) x y :
  (a <= 15)%nat -> (b <= 15)%nat ->
  0 <= x < 2 ^ Z.of_nat a -> 0 <= y < 2 ^ Z.of_nat b ->
  linear_to_swizzle x y 0 (Z.of_nat a) (Z.of_nat b) 0
  = Some (2 * lane (Nat.min a b) (y mod 2 ^ Z.of_nat (Nat.min a b))
          + lane (Nat.min a b)
              (2 ^ Z.of_nat (Nat.min a b) * (y / 2 ^ Z.of_nat (Nat.min a b)) + x)).
Proof.
  intros Ha Hb Hx Hy.
  rewrite linear_to_swizzle_interleave, !Nat2Z.id by lia.
  rewrite interleave_lanes by lia. reflexivity.
Qed.

(** The cell step of the simulation: after the offset of the reference
    transcoder is rewritten as row part plus column part, both transcoders
    read and write the same elements. *)
Ltac same_cell Hsplit P :=
  rewrite Hsplit by lia; fold P;
  rewrite sint32_small, !wrap32_small
    by (change (2 ^ 31) with 2147483648; change (2 ^ 32) with 4294967296;
        try rewrite wrap32_small; nia);
  destruct (load _ _) as [? |]; [| exact I];
  destruct (store _ _ _) as [? |]; [| exact I];
  split; [reflexivity |]; cbn [fst];
  rewrite col_step by (change (2 ^ 20) with 1048576; lia);
  f_equal; lia.

Lemma fast_eq_slow (a b : nat) src dst swap :
  (a <= 15)%nat -> (b <= 15)%nat -> (Nat.min a b <= 12)%nat ->
  fastSwizzle src dst (2 ^ Z.of_nat a) (2 ^ Z.of_nat b) swap
  = slowSwizzle src dst (2 ^ Z.of_nat a) (2 ^ Z.of_nat b) swap.
Proof.
  intros Ha Hb Hm.
  pose proof (pow2_le_dim a Ha) as Hw. pose proof (pow2_le_dim b Hb) as Hh.
  pose proof (swizzle_offset_split a b) as Hsplit.
  unfold fastSwizzle.
  rewrite (fast_masks_pow2 (Z.of_nat a) (Z.of_nat b) (Nat.min a b))
    by (rewrite ?Nat2Z.inj_min; lia).
  unfold slowSwizzle, log2_trunc. rewrite !Z.log2_pow2 by lia.
  set (m := Nat.min a b) in *.
  pose proof (pow2_gt0 (Z.of_nat m) ltac:(lia)) as HP.
  set (w := 2 ^ Z.of_nat a) in *. set (h := 2 ^ Z.of_nat b) in *.
  set (P := 2 ^ Z.of_nat m) in *.
  set (R := fun (y : Z) (st : Z * Z * list Z) (d' : list Z) =>
              snd st = d' /\
              fst st = (2 * lane m (y mod P), 4 ^ Z.of_nat m * (y / P))).
  assert (Hinit : R 0 (0, 0, dst) dst).
  { split; [reflexivity |]. cbn [fst]. rewrite Z.mod_0_l, Z.div_0_l, lane_0 by lia.
    f_equal; lia. }
  assert (Hin0 : forall y d, 0 <= y ->
            (fun (x : Z) (st : Z * list Z) (d' : list Z) =>
               snd st = d' /\ fst st = lane m (P * (y / P) + x))
              0 (4 ^ Z.of_nat m * (y / P), d) d).
  { intros y d Hy. split; [reflexivity |]. cbn [fst].
    rewrite lane_high, lane_0 by (fold P; lia). fold P. lia. }
  destruct swap.
  all: match goal with
       | |- match for_lt _ ?F ?s with _ => _ end = for_lt _ ?G ?d =>
           pose proof (for_lt_sim R F G h s d ltac:(lia) Hinit) as Hsim
       end.
  all: match type of Hsim with
       | ?A -> _ => assert (Hstep : A); [clear Hsim | specialize (Hsim Hstep)]
       end.
  1, 3: intros y [[oy ox0] d] d' Hy [Hd Ho];
        cbn [fst snd] in Hd, Ho; subst d'; injection Ho as -> ->; cbv beta iota;
        pose proof (row_base_bounds P y HP ltac:(lia)) as Hrb;
        match goal with
        | |- option_sim _ (match for_lt _ ?F ?s with _ => _ end) (for_lt _ ?G ?d) =>
            pose proof (for_lt_sim _ F G w s d ltac:(lia) (Hin0 y d ltac:(lia))) as Hin
        end;
        match type of Hin with
        | ?A -> _ => assert (Hcell : A); [clear Hin | specialize (Hin Hcell)]
        end;
        [ intros x [ox e] e' Hx [He Hox];
          cbn [fst snd] in He, Hox; subst e' ox; cbv beta iota;
          same_cell Hsplit P
        | unfold option_sim in Hin |- *;
          destruct (for_lt w _ (_, d)) as [[ox e] |], (for_lt w _ d) as [e' |];
          try contradiction; [| exact I];
          destruct Hin as [He _]; cbn [snd] in He; subst e';
          split; [reflexivity |]; cbn [fst];
          apply fast_next_row_lane; [exact Hm | change (2 ^ 15) with 32768; lia] ].
  all: unfold option_sim in Hsim;
       destruct (for_lt h _ (_, dst)) as [[offs d1] |], (for_lt h _ dst) as [d2 |];
       try contradiction; [| reflexivity];
       destruct Hsim as [Hd _]; cbn [snd] in Hd; congruence.
Qed.




(** ** What the reference transcoder leaves in the destination *)

Lemma cell_offset_bound (a b : nat) k :
  0 <= cell_offset a b k < 2 ^ Z.of_nat a * 2 ^ Z.of_nat b.
Proof.
  unfold cell_offset. rewrite <- Z.pow_add_r by lia. apply interleave_bound.
Qed.

Lemma cell_offset_inj (a b : nat) k k' :
  0 <= k < 2 ^ Z.of_nat a * 2 ^ Z.of_nat b ->
  0 <= k' < 2 ^ Z.of_nat a * 2 ^ Z.of_nat b ->
  cell_offset a b k = cell_offset a b k' -> k = k'.
Proof.
  intros Hk Hk' E. unfold cell_offset in E.
  pose proof (pow2_gt0 (Z.of_nat a) ltac:(lia)) as Hw.
  pose proof (pow2_gt0 (Z.of_nat b) ltac:(lia)) as Hh.
  set (w := 2 ^ Z.of_nat a) in *. set (h := 2 ^ Z.of_nat b) in *.
  pose proof (Z.div_mod k w ltac:(lia)) as Hd.
  pose proof (Z.div_mod k' w ltac:(lia)) as Hd'.
  pose proof (Z.mod_pos_bound k w Hw) as Hr.
  pose proof (Z.mod_pos_bound k' w Hw) as Hr'.
  assert (Hq : 0 <= k / w < h)
    by (split; [apply Z.div_pos; lia | apply Z.div_lt_upper_bound; lia]).
  assert (Hq' : 0 <= k' / w < h)
    by (split; [apply Z.div_pos; lia | apply Z.div_lt_upper_bound; lia]).
  destruct (interleave_inj a b _ _ _ _ Hr Hq Hr' Hq' E) as [E1 E2].
  rewrite Hd, Hd', E1, E2. reflexivity.
Qed.

Lemma cell_offset_row_col (a b : nat) x y :
  0 <= x < 2 ^ Z.of_nat a ->
  cell_offset a b (y * 2 ^ Z.of_nat a + x) = interleave a b x y.
Proof.
  intros Hx. unfold cell_offset.
  rewrite Z.add_comm, Z.mod_add, Z.div_add by lia.
  rewrite Z.mod_small, Z.div_small by lia. f_equal.
Qed.

Lemma slowSwizzle_spec (a b : nat) (src dst : list Z) (swap : bool) :
  (a <= 15)%nat -> (b <= 15)%nat ->
  Z.of_nat (length src) = 2 ^ Z.of_nat a * 2 ^ Z.of_nat b ->
  Z.of_nat (length dst) = 2 ^ Z.of_nat a * 2 ^ Z.of_nat b ->
  exists d',
    slowSwizzle src dst (2 ^ Z.of_nat a) (2 ^ Z.of_nat b) swap = Some d' /\
    length d' = length dst /\
    forall k, 0 <= k < 2 ^ Z.of_nat a * 2 ^ Z.of_nat b ->
      if swap then load d' (cell_offset a b k) = load src k
      else load d' k = load src (cell_offset a b k).
Proof.
  intros Ha Hb Hsrc Hdst.
  pose proof (pow2_le_dim a Ha) as Hw. pose proof (pow2_le_dim b Hb) as Hh.
  pose proof (cell_offset_bound a b) as Hcb.
  pose proof (cell_offset_inj a b) as Hci.
  pose proof (cell_offset_row_col a b) as Hrc.
  unfold slowSwizzle, log2_trunc. rewrite !Z.log2_pow2 by lia.
  set (w := 2 ^ Z.of_nat a) in *. set (h := 2 ^ Z.of_nat b) in *.
  set (Q := fun (k : Z) (d : list Z) =>
              length d = length dst /\
              forall j, 0 <= j < k ->
                if swap then load d (cell_offset a b j) = load src j
                else load d j = load src (cell_offset a b j)).
  match goal with
  | |- exists d', for_lt _ ?F _ = _ /\ _ =>
      destruct (for_lt_inv (fun y d => Q (y * w) d) F h dst) as (d' & E & HQ)
  end.
  - lia.
  - split; [reflexivity |]. intros j Hj. lia.
  - intros y d Hy HQ. cbv beta.
    match goal with
    | |- exists d', for_lt _ ?F _ = _ /\ _ =>
        destruct (for_lt_inv (fun x d => Q (y * w + x) d) F w d) as (d2 & E & HQ')
    end.
    + lia.
    + rewrite Z.add_0_r. exact HQ.
    + clear d HQ. intros x d Hx [Hlen HQ]. cbv beta.
      assert (Hk : 0 <= y * w + x < w * h) by nia.
      rewrite linear_to_swizzle_interleave, !Nat2Z.id by lia.
      rewrite <- Hrc by lia. fold w.
      rewrite !wrap32_small
        by (change (2 ^ 32) with 4294967296; try rewrite wrap32_small; nia).
      set (k := y * w + x) in *.
      specialize (Hcb k).
      unfold Q. destruct swap.
      * destruct (load_in src k ltac:(lia)) as [v Hv]. rewrite Hv.
        rewrite store_in by lia. eexists. split; [reflexivity |].
        split; [rewrite length_insert; exact Hlen |].
        intros j Hj. destruct (Z.eq_dec j k) as [-> | Hne].
        -- rewrite Hv. eapply load_store_eq. apply store_in. lia.
        -- rewrite <- HQ by lia.
           eapply load_store_ne; [apply store_in; lia |].
           intros Heq. apply Hne. apply Hci; [lia | lia | exact Heq].
      * destruct (load_in src (cell_offset a b k) ltac:(lia)) as [v Hv]. rewrite Hv.
        rewrite store_in by lia. eexists. split; [reflexivity |].
        split; [rewrite length_insert; exact Hlen |].
        intros j Hj. destruct (Z.eq_dec j k) as [-> | Hne].
        -- rewrite Hv. eapply load_store_eq. apply store_in. lia.
        -- rewrite <- HQ by lia.
           eapply load_store_ne; [apply store_in; lia | exact Hne].
    + exists d2. split; [exact E |].
      replace ((y + 1) * w) with (y * w + w) by lia. exact HQ'.
  - exists d'. split; [exact E |]. destruct HQ as [Hlen HQ].
    split; [exact Hlen |]. intros k Hk. apply HQ. lia.
Qed.

(** ** linear_to_swizzle on arbitrary arguments *)

Lemma lor_lt_pow2 a b k :
  0 <= a < 2 ^ k -> 0 <= b < 2 ^ k -> 0 <= Z.lor a b < 2 ^ k.
Proof.
  intros Ha Hb.
  assert (Hnn : 0 <= Z.lor a b) by (apply Z.lor_nonneg; lia).
  split; [exact Hnn |].
  destruct (Z.eq_dec (Z.lor a b) 0) as [-> | Hne]; [lia |].
  destruct (Z.lt_ge_cases k 0) as [Hk | Hk];
    [rewrite Z.pow_neg_r in Ha by lia; lia |].
  apply Z.log2_lt_pow2; [lia |].
  rewrite Z.log2_lor by lia.
  assert (Hla : Z.log2 a < k).
  { destruct (Z.eq_dec a 0) as [-> | ?].
    - destruct (Z.eq_dec b 0) as [-> | ?]; [rewrite Z.lor_0_l in Hne; lia |].
      change (Z.log2 0) with 0.
      assert (Z.log2 b < k) by (apply Z.log2_lt_pow2; lia).
      pose proof (Z.log2_nonneg b). lia.
    - apply Z.log2_lt_pow2; lia. }
  assert (Hlb : Z.log2 b < k).
  { destruct (Z.eq_dec b 0) as [-> | ?].
    - change (Z.log2 0) with 0. pose proof (Z.log2_nonneg a). lia.
    - apply Z.log2_lt_pow2; lia. }
  lia.
Qed.

Lemma shl32_bit_bound v sc cnt :
  0 <= cnt -> sc = cnt mod 2 ^ 32 ->
  0 <= shl32 (Z.land v 1) sc < 2 ^ 32 /\ shl32 (Z.land v 1) sc < 2 ^ (cnt + 1).
Proof.
  intros Hcnt Hsc.
  assert (Hr : 0 <= shl32 (Z.land v 1) sc < 2 ^ 32)
    by (unfold shl32; destruct (sc <? 32); apply wrap32_range).
  split; [exact Hr |].
  destruct (Z.lt_ge_cases cnt 32) as [Hlt | Hge].
  - rewrite Z.mod_small in Hsc by (change (2 ^ 32) with 4294967296; lia).
    subst sc. unfold shl32.
    destruct (Z.ltb_spec cnt 32) as [_ | ?]; [| lia].
    rewrite land_1_mod2, Z.shiftl_mul_pow2 by lia.
    pose proof (Z.mod_pos_bound v 2 ltac:(lia)) as Hv.
    pose proof (pow2_gt0 cnt Hcnt) as Hp.
    assert (Hle : 2 ^ cnt <= 2 ^ 31) by (apply Z.pow_le_mono_r; lia).
    change (2 ^ 31) with 2147483648 in Hle.
    rewrite wrap32_small by (change (2 ^ 32) with 4294967296; nia).
    replace (cnt + 1) with (Z.succ cnt) by lia.
    rewrite Z.pow_succ_r by lia. nia.
  - assert (2 ^ 32 <= 2 ^ (cnt + 1)) by (apply Z.pow_le_mono_r; lia). lia.
Qed.

(** What each guarded block does to the locals, for a budget [n] that is a
    [u32]: [cnt] counts the bits consumed so far without wrap-around, and the
    offset stays below [2^cnt]. *)
Lemma take_bit_count offset sc v (n : nat) cnt :
  Z.of_nat n < 2 ^ 32 -> 0 <= cnt -> sc = cnt mod 2 ^ 32 ->
  0 <= offset < 2 ^ 32 -> offset < 2 ^ cnt ->
  exists offset' v',
    take_bit offset sc v (Z.of_nat n)
    = (offset', (cnt + Z.of_nat (Nat.min 1 n)) mod 2 ^ 32, v', Z.of_nat (Nat.pred n)) /\
    0 <= offset' < 2 ^ 32 /\ offset' < 2 ^ (cnt + Z.of_nat (Nat.min 1 n)).
Proof.
  intros Hn Hcnt Hsc Ho Hoc. destruct n as [| n].
  - exists offset, v. change (Z.of_nat (Nat.min 1 0)) with 0.
    rewrite Z.add_0_r, <- Hsc. auto.
  - unfold take_bit.
    destruct (Z.eqb_spec (Z.of_nat (Datatypes.S n)) 0) as [? | _]; [lia |].
    change (Z.of_nat (Nat.min 1 (Datatypes.S n))) with 1.
    destruct (shl32_bit_bound v sc cnt Hcnt Hsc) as [Ht Htc].
    assert (Hp : 2 ^ cnt <= 2 ^ (cnt + 1)) by (apply Z.pow_le_mono_r; lia).
    eexists _, _. split; [| split].
    + replace (wrap32 (sc + 1)) with ((cnt + 1) mod 2 ^ 32)
        by (unfold wrap32; rewrite Hsc, Z.add_mod_idemp_l by lia; reflexivity).
      replace (wrap32 (Z.of_nat (Datatypes.S n) - 1))
        with (Z.of_nat (Nat.pred (Datatypes.S n)))
        by (simpl Nat.pred; rewrite wrap32_small; lia).
      reflexivity.
    + apply lor_lt_pow2; lia.
    + apply lor_lt_pow2; lia.
Qed.

Lemma swz_loop_total fuel : forall (nx ny : nat) x y z offset sc cnt,
  (Nat.max nx ny <= fuel)%nat ->
  Z.of_nat nx < 2 ^ 32 -> Z.of_nat ny < 2 ^ 32 ->
  0 <= cnt -> sc = cnt mod 2 ^ 32 ->
  0 <= offset < 2 ^ 32 -> offset < 2 ^ cnt ->
  exists o,
    swz_loop fuel (SwzState x y z (Z.of_nat nx) (Z.of_nat ny) 0 offset sc) = Some o /\
    0 <= o < 2 ^ 32 /\ o < 2 ^ (cnt + Z.of_nat nx + Z.of_nat ny).
Proof.
  induction fuel as [| fuel IH];
    intros nx ny x y z offset sc cnt Hf Hnx Hny Hcnt Hsc Ho Hoc.
  - assert (nx = 0%nat) by lia. assert (ny = 0%nat) by lia. subst nx ny.
    exists offset. simpl. rewrite !Z.add_0_r. auto.
  - cbn [swz_loop swz_log2_width swz_log2_height swz_log2_depth].
    rewrite Z.lor_0_r.
    destruct (Z.eqb_spec (Z.lor (Z.of_nat nx) (Z.of_nat ny)) 0) as [E | Hne].
    + apply Z.lor_eq_0_iff in E. destruct E as [Ex Ey].
      exists offset. rewrite Ex, Ey, !Z.add_0_r. auto.
    + unfold swz_body. cbn [swz_offset swz_shift_count swz_x swz_y swz_z
        swz_log2_width swz_log2_height swz_log2_depth].
      destruct (take_bit_count offset sc x nx cnt Hnx Hcnt Hsc Ho Hoc)
        as (o1 & x' & -> & Ho1 & Hoc1).
      destruct (take_bit_count o1 _ y ny (cnt + Z.of_nat (Nat.min 1 nx)) Hny
                  ltac:(lia) eq_refl Ho1 Hoc1)
        as (o2 & y' & -> & Ho2 & Hoc2).
      rewrite take_bit_zero.
      destruct (IH (Nat.pred nx) (Nat.pred ny) x' y' z o2 _
                  (cnt + Z.of_nat (Nat.min 1 nx) + Z.of_nat (Nat.min 1 ny))
                  ltac:(lia) ltac:(lia) ltac:(lia) ltac:(lia) eq_refl Ho2 Hoc2)
        as (o & E & Hor & Hob).
      exists o. split; [exact E |]. split; [exact Hor |].
      replace (cnt + Z.of_nat nx + Z.of_nat ny)
        with (cnt + Z.of_nat (Nat.min 1 nx) + Z.of_nat (Nat.min 1 ny)
              + Z.of_nat (Nat.pred nx) + Z.of_nat (Nat.pred ny)) by lia.
      exact Hob.
Qed.

Lemma mod_pow2_agree_le v1 v2 n k :
  0 <= k <= n -> v1 mod 2 ^ n = v2 mod 2 ^ n -> v1 mod 2 ^ k = v2 mod 2 ^ k.
Proof.
  intros Hk E.
  assert (Hdiv : (2 ^ k | 2 ^ n)).
  { exists (2 ^ (n - k)). rewrite <- Z.pow_add_r by lia. f_equal. lia. }
  rewrite <- (Z.mod_mod_divide v1 (2 ^ n) (2 ^ k) Hdiv).
  rewrite <- (Z.mod_mod_divide v2 (2 ^ n) (2 ^ k) Hdiv).
  rewrite E. reflexivity.
Qed.

Lemma take_bit_agree offset sc v1 v2 n :
  0 <= n -> v1 mod 2 ^ n = v2 mod 2 ^ n ->
  exists o s v1' v2' n',
    take_bit offset sc v1 n = (o, s, v1', n') /\
    take_bit offset sc v2 n = (o, s, v2', n') /\
    0 <= n' /\ v1' mod 2 ^ n' = v2' mod 2 ^ n'.
Proof.
  intros Hn E. unfold take_bit.
  destruct (Z.eqb_spec n 0) as [-> | Hne].
  - exists offset, sc, v1, v2, 0. auto.
  - rewrite !land_1_mod2, !Z.shiftr_div_pow2 by lia. change (2 ^ 1) with 2.
    assert (E2 : v1 mod 2 = v2 mod 2)
      by (apply (mod_pow2_agree_le v1 v2 n 1); [lia | exact E]).
    rewrite E2.
    eexists _, _, _, _, _. split; [reflexivity |]. split; [reflexivity |].
    pose proof (wrap32_range (n - 1)) as Hr.
    split; [lia |].
    assert (Hle : wrap32 (n - 1) <= n - 1) by (apply Z.mod_le; lia).
    apply (mod_pow2_agree_le _ _ (n - 1)); [lia |].
    pose proof (pow2_gt0 (n - 1) ltac:(lia)) as Hp.
    rewrite <- !mod_double_div2 by lia.
    replace (2 * 2 ^ (n - 1)) with (2 ^ n)
      by (rewrite <- Z.pow_succ_r by lia; f_equal; lia).
    rewrite E. reflexivity.
Qed.

(** The loop reads only the bits of each coordinate below its budget. *)
Lemma swz_loop_agree fuel : forall x1 x2 y1 y2 z lw lh ld offset sc,
  0 <= lw -> 0 <= lh ->
  x1 mod 2 ^ lw = x2 mod 2 ^ lw -> y1 mod 2 ^ lh = y2 mod 2 ^ lh ->
  swz_loop fuel (SwzState x1 y1 z lw lh ld offset sc)
  = swz_loop fuel (SwzState x2 y2 z lw lh ld offset sc).
Proof.
  induction fuel as [| fuel IH]; intros x1 x2 y1 y2 z lw lh ld offset sc Hw Hh Ex Ey;
    cbn [swz_loop swz_log2_width swz_log2_height swz_log2_depth swz_offset];
    destruct (_ =? 0); try reflexivity.
  unfold swz_body. cbn [swz_offset swz_shift_count swz_x swz_y swz_z
    swz_log2_width swz_log2_height swz_log2_depth].
  destruct (take_bit_agree offset sc x1 x2 lw Hw Ex)
    as (o1 & s1 & x1' & x2' & lw' & -> & -> & Hw' & Ex').
  destruct (take_bit_agree o1 s1 y1 y2 lh Hh Ey)
    as (o2 & s2 & y1' & y2' & lh' & -> & -> & Hh' & Ey').
  destruct (take_bit o2 s2 z ld) as [[[o3 s3] z'] ld'].
  apply IH; assumption.
Qed.

Lemma linear_to_swizzle_total x y bitsX bitsY :
  0 <= bitsX < 2 ^ 32 -> 0 <= bitsY < 2 ^ 32 ->
  exists o, linear_to_swizzle x y 0 bitsX bitsY 0 = Some o /\
            0 <= o < 2 ^ 32 /\ o < 2 ^ (bitsX + bitsY).
Proof.
  intros Hx Hy. unfold linear_to_swizzle.
  assert (Hf : (Nat.max (Z.to_nat bitsX) (Z.to_nat bitsY)
               <= Z.to_nat (Z.max bitsX (Z.max bitsY 0)))%nat) by lia.
  assert (Hnx : Z.of_nat (Z.to_nat bitsX) < 2 ^ 32) by lia.
  assert (Hny : Z.of_nat (Z.to_nat bitsY) < 2 ^ 32) by lia.
  assert (H0 : 0 <= 0 < 2 ^ 32) by (change (2 ^ 32) with 4294967296; lia).
  destruct (swz_loop_total _ _ _ x y 0 0 0 0 Hf Hnx Hny (Z.le_refl 0) eq_refl H0
              ltac:(change (2 ^ 0) with 1; lia))
    as (o & E & Hr & Hb).
  rewrite !Z2Nat.id in E, Hb by lia. exists o. auto.
Qed.

(** ** Dimensions *)

Lemma pow2_dim_exp d :
  pow2_dim d = true ->
  exists a : nat, (a <= 15)%nat /\ d = 2 ^ Z.of_nat a /\ log2_trunc d = Z.of_nat a.
Proof.
  unfold pow2_dim, log2_trunc. intros H.
  apply andb_prop in H. destruct H as [H H3].
  apply andb_prop in H. destruct H as [H1 H2].
  apply Z.ltb_lt in H1, H2. apply Z.eqb_eq in H3.
  pose proof (Z.log2_nonneg d) as Hl.
  exists (Z.to_nat (Z.log2 d)). rewrite Z2Nat.id by lia.
  split; [| split; [exact H3 | reflexivity]].
  assert (Z.log2 d < 16) by (apply Z.log2_lt_pow2; [lia | exact H2]).
  lia.
Qed.

Lemma min_dim_exp (a b : nat) :
  Z.min (2 ^ Z.of_nat a) (2 ^ Z.of_nat b) <= 4096 -> (Nat.min a b <= 12)%nat.
Proof.
  intros H. change 4096 with (2 ^ 12) in H.
  destruct (Z.min_spec (2 ^ Z.of_nat a) (2 ^ Z.of_nat b)) as [[_ E] | [_ E]];
    rewrite E in H; apply Z.pow_le_mono_r_iff in H; lia.
Qed.

(** ** Round trip and degenerate surfaces, for the reference transcoder *)

Lemma slow_round_trip (a b : nat) (src dst0 dst1 : list Z) :
  (a <= 15)%nat -> (b <= 15)%nat ->
  Z.of_nat (length src) = 2 ^ Z.of_nat a * 2 ^ Z.of_nat b ->
  Z.of_nat (length dst0) = 2 ^ Z.of_nat a * 2 ^ Z.of_nat b ->
  Z.of_nat (length dst1) = 2 ^ Z.of_nat a * 2 ^ Z.of_nat b ->
  exists mid,
    slowSwizzle src dst0 (2 ^ Z.of_nat a) (2 ^ Z.of_nat b) true = Some mid /\
    slowSwizzle mid dst1 (2 ^ Z.of_nat a) (2 ^ Z.of_nat b) false = Some src.
Proof.
  intros Ha Hb Hs H0 H1.
  destruct (slowSwizzle_spec a b src dst0 true Ha Hb Hs H0) as (mid & E1 & L1 & S1).
  destruct (slowSwizzle_spec a b mid dst1 false Ha Hb ltac:(lia) H1)
    as (out & E2 & L2 & S2).
  exists mid. split; [exact E1 |]. rewrite E2. f_equal.
  apply load_ext; [lia |].
  intros k Hk. rewrite S2, S1 by lia. reflexivity.
Qed.

Lemma cell_offset_single_row (a : nat) k :
  0 <= k < 2 ^ Z.of_nat a -> cell_offset a 0 k = k.
Proof.
  intros Hk. unfold cell_offset.
  rewrite interleave_x_only, Z.mod_mod, Z.mod_small; lia.
Qed.

Lemma cell_offset_single_column (b : nat) k :
  0 <= k < 2 ^ Z.of_nat b -> cell_offset 0 b k = k.
Proof.
  intros Hk. unfold cell_offset. change (2 ^ Z.of_nat 0) with 1.
  rewrite Z.div_1_r. simpl. apply Z.mod_small. exact Hk.
Qed.

Lemma slow_degenerate (a b : nat) (src dst : list Z) (swap : bool) :
  (a <= 15)%nat -> (b <= 15)%nat -> a = 0%nat \/ b = 0%nat ->
  Z.of_nat (length src) = 2 ^ Z.of_nat a * 2 ^ Z.of_nat b ->
  Z.of_nat (length dst) = 2 ^ Z.of_nat a * 2 ^ Z.of_nat b ->
  slowSwizzle src dst (2 ^ Z.of_nat a) (2 ^ Z.of_nat b) swap = Some src.
Proof.
  intros Ha Hb Hz Hs Hd.
  destruct (slowSwizzle_spec a b src dst swap Ha Hb Hs Hd) as (out & E & L & S).
  rewrite E. f_equal. apply load_ext; [lia |].
  intros k Hk. rewrite L, Hd in Hk. specialize (S k Hk).
  assert (Hid : cell_offset a b k = k).
  { destruct Hz as [-> | ->].
    - apply cell_offset_single_column. change (2 ^ Z.of_nat 0) with 1 in Hk. lia.
    - apply cell_offset_single_row. change (2 ^ Z.of_nat 0) with 1 in Hk. lia. }
  rewrite Hid in S. destruct swap; exact S.
Qed.

(** ** The benchmark *)

Lemma fill_linear_ok (l0 : list Z) n :
  Z.of_nat (length l0) = n ->
  exists l, for_lt n (fun i linearPixels => store linearPixels i i) l0 = Some l /\
            length l = length l0.
Proof.
  intros Hn.
  apply (for_lt_inv (fun (_ : Z) (l : list Z) => length l = length l0)).
  - lia.
  - reflexivity.
  - intros j l Hj Hl. rewrite store_in by lia.
    eexists. split; [reflexivity |]. rewrite length_insert. exact Hl.
Qed.

Lemma bench_iteration_report slow fast linearPixels max_w max_h sp fp out sp' fp' out' :
  bench_iteration slow fast linearPixels max_w max_h (sp, fp, out) = Some (sp', fp', out') ->
  exists differ,
    outputs_differ sp' fp' max_w max_h = Some differ /\
    out' = if differ then out ++ [Printf ("mismatch!" ++ newline); CinInt] else out.
Proof.
  unfold bench_iteration.
  destruct (memset sp _ _) as [sp1 |]; [| discriminate].
  destruct (memset fp _ _) as [fp1 |]; [| discriminate].
  destruct (slow _ _ _ _ _) as [sp2 |]; [| discriminate].
  destruct (fast _ _ _ _ _) as [fp2 |]; [| discriminate].
  destruct (outputs_differ sp2 fp2 max_w max_h) as [differ |] eqn:E; [| discriminate].
  intros [= <- <- <-]. exists differ. auto.
Qed.

Lemma main_with_exit slow fast l0 s0 f0 tr code :
  main_with slow fast l0 s0 f0 = Some (tr, code) ->
  code = 0 /\ exists reports, tr = reports ++ [CoutTimes; SystemPause].
Proof.
  unfold main_with.
  destruct (for_lt (128 * 128) _ l0) as [l |]; [| discriminate].
  destruct (for_lt 4 _ _) as [[[sp fp] out] |]; [| discriminate].
  intros [= <- <-]. split; [reflexivity |]. exists out. reflexivity.
Qed.

(** With a fast transcoder that differs from the reference on the first
    element, every one of the four passes reports, and the exit status is 0
    all the same. *)
Lemma main_with_defective_run :
  main_with keep_destination zero_first
    (replicate (Z.to_nat 16384) 0) (replicate (Z.to_nat 16384) 0)
    (replicate (Z.to_nat 16384) 0)
  = Some ([Printf ("mismatch!" ++ newline); CinInt;
           Printf ("mismatch!" ++ newline); CinInt;
           Printf ("mismatch!" ++ newline); CinInt;
           Printf ("mismatch!" ++ newline); CinInt;
           CoutTimes; SystemPause], 0).
Proof.
  unfold main_with.
  destruct (fill_linear_ok (replicate (Z.to_nat 16384) 0) (128 * 128))
    as (l & -> & _).
  { rewrite length_replicate. reflexivity. }
  vm_compute. reflexivity.
Qed.

(** ** The benchmark on the two real transcoders *)

Lemma buffer_bytes_length (l : list Z) :
  length (buffer_bytes l) = (4 * length l)%nat.
Proof.
  unfold buffer_bytes. induction l as [| v l IH]; [reflexivity |].
  cbn [flat_map]. rewrite length_app, IH. simpl length. lia.
Qed.

Lemma u32s_of_bytes_length (k : nat) :
  forall bs, length bs = (4 * k)%nat -> length (u32s_of_bytes bs) = k.
Proof.
  induction k as [| k IH]; intros bs Hbs.
  - destruct bs; [reflexivity | discriminate].
  - destruct bs as [| b0 [| b1 [| b2 [| b3 bs]]]]; simpl in Hbs; try lia.
    cbn [u32s_of_bytes length]. rewrite IH by lia. reflexivity.
Qed.

Lemma memset_ok (buf : list Z) c n :
  0 <= n <= 4 * Z.of_nat (length buf) ->
  exists buf', memset buf c n = Some buf' /\ length buf' = length buf.
Proof.
  intros Hn. unfold memset.
  destruct (Z.leb_spec 0 n); [| lia].
  destruct (Z.leb_spec n (4 * Z.of_nat (length buf))); [| lia].
  eexists. split; [reflexivity |].
  apply u32s_of_bytes_length.
  rewrite length_app, length_replicate, length_drop, buffer_bytes_length. lia.
Qed.

Lemma bytes_cmp_refl (l : list Z) : bytes_cmp l l = 0.
Proof.
  induction l as [| v l IH]; [reflexivity |].
  cbn [bytes_cmp]. rewrite Z.eqb_refl. exact IH.
Qed.

Lemma outputs_differ_same (a : list Z) max_w max_h :
  0 <= max_h * max_w <= 4 * Z.of_nat (length a) ->
  outputs_differ a a max_w max_h = Some false.
Proof.
  intros Hn. unfold outputs_differ, memcmp.
  destruct (Z.leb_spec 0 (max_h * max_w)); [| lia].
  destruct (Z.leb_spec (max_h * max_w) (4 * Z.of_nat (length a))); [| lia].
  cbn [andb]. rewrite bytes_cmp_refl. reflexivity.
Qed.

Lemma take_buffer_bytes (k : nat) :
  forall l, take (4 * k) (buffer_bytes l) = buffer_bytes (take k l).
Proof.
  unfold buffer_bytes. induction k as [| k IH]; intros l; [reflexivity |].
  destruct l as [| v l]; [reflexivity |].
  replace (4 * Datatypes.S k)%nat
    with (Datatypes.S (Datatypes.S (Datatypes.S (Datatypes.S (4 * k))))) by lia.
  cbn [flat_map]. unfold bytes_of_u32 at 1 3.
  cbn [app take firstn]. rewrite IH. reflexivity.
Qed.

(** The comparison of the benchmark loop never looks beyond the first
    [max_h * max_w / 4] elements. *)
Lemma outputs_differ_first_quarter (a b : list Z) :
  length a = Z.to_nat 16384 -> length b = Z.to_nat 16384 ->
  take (Z.to_nat 4096) a = take (Z.to_nat 4096) b ->
  outputs_differ a b 128 128 = Some false.
Proof.
  intros Ha Hb Hab. unfold outputs_differ, memcmp.
  rewrite Ha, Hb.
  change ((0 <=? 128 * 128) && (128 * 128 <=? 4 * Z.of_nat (Z.to_nat 16384))
          && (128 * 128 <=? 4 * Z.of_nat (Z.to_nat 16384))) with true.
  cbv iota.
  change (Z.to_nat (128 * 128)) with (4 * Z.to_nat 4096)%nat.
  rewrite !take_buffer_bytes, Hab, bytes_cmp_refl. reflexivity.
Qed.

Lemma deswizzle_ignores_destination (a b : nat) (src dst dst' : list Z) :
  (a <= 15)%nat -> (b <= 15)%nat ->
  Z.of_nat (length src) = 2 ^ Z.of_nat a * 2 ^ Z.of_nat b ->
  Z.of_nat (length dst) = 2 ^ Z.of_nat a * 2 ^ Z.of_nat b ->
  Z.of_nat (length dst') = 2 ^ Z.of_nat a * 2 ^ Z.of_nat b ->
  exists out,
    slowSwizzle src dst (2 ^ Z.of_nat a) (2 ^ Z.of_nat b) false = Some out /\
    slowSwizzle src dst' (2 ^ Z.of_nat a) (2 ^ Z.of_nat b) false = Some out /\
    length out = length dst.
Proof.
  intros Ha Hb Hs Hd Hd'.
  destruct (slowSwizzle_spec a b src dst false Ha Hb Hs Hd) as (out & E & L & S).
  destruct (slowSwizzle_spec a b src dst' false Ha Hb Hs Hd') as (out' & E' & L' & S').
  exists out. split; [exact E |]. split; [| exact L].
  rewrite E'. f_equal. apply load_ext; [lia |].
  intros k Hk. rewrite S', S by lia. reflexivity.
Qed.

Lemma bench_iteration_agree (linearPixels sp fp : list Z) (out : list event) :
  length linearPixels = Z.to_nat 16384 ->
  length sp = Z.to_nat 16384 -> length fp = Z.to_nat 16384 ->
  exists o,
    bench_iteration slowSwizzle fastSwizzle linearPixels 128 128 (sp, fp, out)
    = Some (o, o, out) /\
    length o = Z.to_nat 16384.
Proof.
  intros Hl Hsp Hfp. unfold bench_iteration.
  destruct (memset_ok sp 204 (128 * 128)) as (sp1 & -> & Lsp1);
    [rewrite Hsp; vm_compute; split; discriminate |].
  destruct (memset_ok fp 204 (128 * 128)) as (fp1 & -> & Lfp1);
    [rewrite Hfp; vm_compute; split; discriminate |].
  change 128 with (2 ^ Z.of_nat 7).
  rewrite (fast_eq_slow 7 7) by lia.
  destruct (deswizzle_ignores_destination 7 7 linearPixels sp1 fp1)
    as (o & -> & -> & Lo); try lia;
    try (rewrite ?Lsp1, ?Lfp1, ?Hl, ?Hsp, ?Hfp; reflexivity).
  rewrite outputs_differ_same
    by (rewrite Lo, Lsp1, Hsp; vm_compute; split; discriminate).
  exists o. split; [reflexivity |]. rewrite Lo, Lsp1. exact Hsp.
Qed.

(** With [slowSwizzle] and [fastSwizzle] the program reports no mismatch,
    whatever the allocated arrays hold to begin with. *)
Lemma main_reports_no_mismatch (l0 s0 f0 : list Z) :
  length l0 = Z.to_nat 16384 -> length s0 = Z.to_nat 16384 ->
  length f0 = Z.to_nat 16384 ->
  main l0 s0 f0 = Some ([CoutTimes; SystemPause], 0).
Proof.
  intros Hl Hs Hf. unfold main, main_with.
  destruct (fill_linear_ok l0 (128 * 128)) as (l & -> & Ll);
    [rewrite Hl; reflexivity |].
  match goal with
  | |- match for_lt _ ?F ?s with _ => _ end = _ =>
      destruct (for_lt_inv
                  (fun (_ : Z) (st : list Z * list Z * list event) =>
                     length (fst (fst st)) = Z.to_nat 16384 /\
                     length (snd (fst st)) = Z.to_nat 16384 /\
                     snd st = [])
                  F 4 s) as ([[sp fp] out] & -> & _ & _ & Hout)
  end.
  - lia.
  - cbn [fst snd]. auto.
  - intros j [[sp fp] out] _ (Hsp & Hfp & Hout). cbn [fst snd] in *. subst out.
    destruct (bench_iteration_agree l sp fp [] ltac:(lia) Hsp Hfp) as (o & -> & Lo).
    eexists. split; [reflexivity |]. cbn [fst snd]. auto.
  - cbn [fst snd] in Hout. subst out. reflexivity.
Qed.

(** ** Beyond twelve bits in both dimensions *)

Lemma for_loop_none {S : Type} (I : Z -> S -> Prop) (body : Z -> S -> option S) n :
  forall i s j,
  I i s -> i <= j < i + Z.of_nat n ->
  (forall k s s', i <= k < j -> I k s -> body k s = Some s' -> I (k + 1) s') ->
  (forall s, I j s -> body j s = None) ->
  for_loop n i body s = None.
Proof.
  induction n as [| n IH]; intros i s j Hs Hj Hstep Hfail; [lia |].
  simpl. destruct (Z.eq_dec i j) as [-> | Hne].
  - rewrite Hfail by exact Hs. reflexivity.
  - destruct (body i s) as [s' |] eqn:E; [| reflexivity].
    apply (IH (i + 1) s' j).
    + apply (Hstep i s s'); [lia | exact Hs | exact E].
    + lia.
    + intros k t t' Hk. apply Hstep. lia.
    + exact Hfail.
Qed.

(** For 8192 x 8192 the masks lack the lane positions 24 and 25: column 4096
    of the first row is looked for at offset [2^26], one past the end of the
    buffers. *)
Lemma fastSwizzle_8192_out_of_bounds (src dst : list Z) :
  Z.of_nat (length dst) = 67108864 ->
  fastSwizzle src dst 8192 8192 true = None.
Proof.
  intros Hd. unfold fastSwizzle.
  replace (fast_masks 8192 8192) with (4233450837, 11184810, 67108864)
    by (vm_compute; reflexivity).
  cbv beta iota zeta.
  match goal with
  | |- match ?L with _ => _ end = None => assert (E : L = None); [| rewrite E; reflexivity]
  end.
  unfold for_lt at 1. change (Z.to_nat 8192) with (Datatypes.S (Z.to_nat 8191)).
  cbn [for_loop].
  match goal with
  | |- match match ?L with _ => _ end with _ => _ end = None =>
      assert (E : L = None); [| rewrite E; reflexivity]
  end.
  unfold for_lt.
  apply (for_loop_none
           (fun (x : Z) (st : Z * list Z) =>
              0 <= x /\
              fst st = Nat.iter (Z.to_nat x) (masked_next 4233450837) 0 /\
              Z.of_nat (length (snd st)) = 67108864)
           _ _ 0 _ 4096).
  - cbn [fst snd]. split; [lia |]. split; [reflexivity | exact Hd].
  - vm_compute. split; [discriminate | reflexivity].
  - intros k [ox d] s' Hk (Hk0 & Hox & Hlen). cbn [fst snd] in Hox, Hlen.
    destruct (load src _) as [v |]; [| discriminate].
    destruct (store d _ v) as [d' |] eqn:Est; [| discriminate].
    intros [= <-]. cbn [fst snd]. split; [lia |]. split.
    + replace (Z.to_nat (k + 1)) with (Datatypes.S (Z.to_nat k)) by lia.
      rewrite Nat.iter_succ, <- Hox. reflexivity.
    + rewrite (store_length _ _ _ _ Est). exact Hlen.
  - intros [ox d] (_ & Hox & Hlen). cbn [fst snd] in Hox, Hlen.
    assert (Eox : ox = 67108864) by (rewrite Hox; vm_compute; reflexivity).
    destruct (load src _) as [v |]; [| reflexivity].
    rewrite store_out; [reflexivity |]. rewrite Eox. lia.
Qed.

(** * The claims of the specification *)


(** C2 (amended). For all [x], [y], [bitsX], [bitsY] with [x < 2^bitsX],
    [y < 2^bitsY] and [bitsX + bitsY <= 32] (the offset fits the 32-bit
    result), [linear_to_swizzle] returns the integer built by taking one bit
    of [x] and one bit of [y] alternately, [x]'s least significant bit first,
    each to the next free position, and the remaining bits of the longer axis
    once the shorter one is exhausted. *)
Theorem C2_mapper_interleaves (x y bitsX bitsY : Z) :
  0 <= bitsX -> 0 <= bitsY -> bitsX + bitsY <= 32 ->
  0 <= x < 2 ^ bitsX -> 0 <= y < 2 ^ bitsY ->
  linear_to_swizzle x y 0 bitsX bitsY 0 = Some (interleave_spec x y bitsX bitsY).
Proof.
  intros HbX HbY Hsum Hx Hy.
  rewrite linear_to_swizzle_interleave by assumption.
  unfold interleave_spec. rewrite interleave_spec_eq. reflexivity.
Qed.

(** C3. For power-of-two dimensions that fit [u16], the map
    [(x, y) -> linear_to_swizzle(x, y, 0, log2(width), log2(height), 0)] on
    [[0,width) x [0,height)] is a bijection onto [[0, width*height)]: every
    value lies in the range, no value is hit twice, and every offset of the
    range is hit. *)
Theorem C3_mapper_bijection (width height : Z) :
  pow2_dim width = true -> pow2_dim height = true ->
  (forall x y, 0 <= x < width -> 0 <= y < height ->
     exists o, linear_to_swizzle x y 0 (log2_trunc width) (log2_trunc height) 0 = Some o
               /\ 0 <= o < width * height) /\
  (forall x y x' y',
     0 <= x < width -> 0 <= y < height -> 0 <= x' < width -> 0 <= y' < height ->
     linear_to_swizzle x y 0 (log2_trunc width) (log2_trunc height) 0
     = linear_to_swizzle x' y' 0 (log2_trunc width) (log2_trunc height) 0 ->
     x = x' /\ y = y') /\
  (forall o, 0 <= o < width * height ->
     exists x y, 0 <= x < width /\ 0 <= y < height /\
       linear_to_swizzle x y 0 (log2_trunc width) (log2_trunc height) 0 = Some o).
Proof.
  intros Hw Hh.
  destruct (pow2_dim_exp width Hw) as (a & Ha & -> & ->).
  destruct (pow2_dim_exp height Hh) as (b & Hb & -> & ->).
  assert (Hl : forall x y,
            linear_to_swizzle x y 0 (Z.of_nat a) (Z.of_nat b) 0
            = Some (interleave a b x y)).
  { intros x y. rewrite linear_to_swizzle_interleave, !Nat2Z.id by lia. reflexivity. }
  split; [| split].
  - intros x y _ _. exists (interleave a b x y). split; [apply Hl |].
    rewrite <- Z.pow_add_r by lia. apply interleave_bound.
  - intros x y x' y' Hx Hy Hx' Hy' E. rewrite !Hl in E.
    injection E as E. eapply interleave_inj; eassumption.
  - intros o Ho. rewrite <- Z.pow_add_r in Ho by lia.
    destruct (interleave_surj a b o Ho) as (x & y & Hx & Hy & E).
    exists x, y. rewrite Hl, E. auto.
Qed.

(** C4 (amended).  For power-of-two dimensions that fit [u16], equal or not,
    and any source buffer of [width * height] elements: a transcode with
    [swap = true] followed by one with [swap = false] gives back the source
    buffer when both steps are done by the reference transcoder; it does so
    too when either step is done by the fast transcoder, provided the smaller
    dimension is at most 4096. *)
Theorem C4_round_trip (width height : Z) (src dst0 dst1 : list Z)
    (first_fast second_fast : bool) :
  pow2_dim width = true -> pow2_dim height = true ->
  (first_fast || second_fast = true -> Z.min width height <= 4096) ->
  Z.of_nat (length src) = width * height ->
  Z.of_nat (length dst0) = width * height ->
  Z.of_nat (length dst1) = width * height ->
  exists mid,
    run_transcoder first_fast src dst0 width height true = Some mid /\
    run_transcoder second_fast mid dst1 width height false = Some src.
Proof.
  intros Hw Hh Hmin Hs H0 H1.
  destruct (pow2_dim_exp width Hw) as (a & Ha & -> & _).
  destruct (pow2_dim_exp height Hh) as (b & Hb & -> & _).
  destruct (slow_round_trip a b src dst0 dst1 Ha Hb Hs H0 H1) as (mid & E1 & E2).
  exists mid. unfold run_transcoder.
  destruct first_fast, second_fast; cbn [orb] in Hmin;
    try (pose proof (min_dim_exp a b (Hmin eq_refl)) as Hm;
         rewrite ?fast_eq_slow by assumption);
    auto.
Qed.

(** C5 (amended). [linear_to_swizzle(3, 2, 0, 2, 2, 0)] returns
    [0b1101 = 13], the value obtained by interleaving the bits of 3 ([0b11])
    and 2 ([0b10]) starting with [x]'s least significant bit. *)
Theorem C5_mapper_example :
  linear_to_swizzle 3 2 0 2 2 0 = Some 13 /\ interleave_spec 3 2 2 2 = 13.
Proof. split; reflexivity. Qed.

(** C6 (amended). For power-of-two dimensions that fit [u16] and buffers of
    [width * height] elements, the reference transcoder ends with, for each
    [y] in [[0,height)] and [x] in [[0,width)] and
    [offset = linear_to_swizzle(x, y, 0, log2(width), log2(height), 0)]:
    [destination[y*width + x] = source[offset]] when [swap = false], and
    [destination[offset] = source[y*width + x]] when [swap = true].  In
    particular with [width = 4], [height = 4], [swap = false] it places
    [source[13]] at [destination[2*4+3] = destination[11]]. *)
Theorem C6_reference_transcoder (width height : Z) (src dst : list Z) (swap : bool) :
  pow2_dim width = true -> pow2_dim height = true ->
  Z.of_nat (length src) = width * height ->
  Z.of_nat (length dst) = width * height ->
  exists out,
    slowSwizzle src dst width height swap = Some out /\
    (forall x y, 0 <= x < width -> 0 <= y < height ->
       exists offset,
         linear_to_swizzle x y 0 (log2_trunc width) (log2_trunc height) 0 = Some offset /\
         if swap then load out offset = load src (y * width + x)
         else load out (y * width + x) = load src offset) /\
    (width = 4 -> height = 4 -> swap = false ->
       load out (2 * 4 + 3) = load src 13).
Proof.
  intros Hw Hh Hs Hd.
  destruct (pow2_dim_exp width Hw) as (a & Ha & Ew & La).
  destruct (pow2_dim_exp height Hh) as (b & Hb & Eh & Lb).
  rewrite La, Lb. subst width height.
  destruct (slowSwizzle_spec a b src dst swap Ha Hb Hs Hd) as (out & E & L & S).
  assert (Hcells : forall x y,
            0 <= x < 2 ^ Z.of_nat a -> 0 <= y < 2 ^ Z.of_nat b ->
            exists offset,
              linear_to_swizzle x y 0 (Z.of_nat a) (Z.of_nat b) 0 = Some offset /\
              if swap then load out offset = load src (y * 2 ^ Z.of_nat a + x)
              else load out (y * 2 ^ Z.of_nat a + x) = load src offset).
  { intros x y Hx Hy. exists (interleave a b x y).
    rewrite linear_to_swizzle_interleave, !Nat2Z.id by lia.
    split; [reflexivity |].
    rewrite <- (cell_offset_row_col a b x y Hx). apply S. nia. }
  exists out. split; [exact E |]. split; [exact Hcells |].
  intros Ew Eh ->.
  assert (a = 2%nat)
    by (apply Nat2Z.inj; apply (Z.pow_inj_r 2); [lia | lia | lia | exact Ew]).
  assert (b = 2%nat)
    by (apply Nat2Z.inj; apply (Z.pow_inj_r 2); [lia | lia | lia | exact Eh]).
  subst a b.
  destruct (Hcells 3 2 ltac:(rewrite Ew; lia) ltac:(rewrite Eh; lia))
    as (offset & Eo & Hl).
  rewrite linear_to_swizzle_interleave in Eo by lia.
  injection Eo as <-. rewrite Ew in Hl. exact Hl.
Qed.

(** C7. For [width = 1] or [height = 1], the other dimension any power of
    two that fits [u16], and buffers of [width * height] elements, both
    transcoders stay inside the buffers (they yield a result) and the
    destination ends equal to the source, element by element. *)
Theorem C7_degenerate_identity (width height : Z) (src dst : list Z) (swap : bool) :
  pow2_dim width = true -> pow2_dim height = true ->
  width = 1 \/ height = 1 ->
  Z.of_nat (length src) = width * height ->
  Z.of_nat (length dst) = width * height ->
  slowSwizzle src dst width height swap = Some src /\
  fastSwizzle src dst width height swap = Some src.
Proof.
  intros Hw Hh H1 Hs Hd.
  destruct (pow2_dim_exp width Hw) as (a & Ha & -> & _).
  destruct (pow2_dim_exp height Hh) as (b & Hb & -> & _).
  assert (Hz : a = 0%nat \/ b = 0%nat).
  { destruct H1 as [E | E]; [left | right];
      apply Nat2Z.inj; apply (Z.pow_inj_r 2); try lia; exact E. }
  rewrite fast_eq_slow by lia.
  split; apply slow_degenerate; assumption.
Qed.

(** C8. The comparison of the benchmark loop looks at [max_h * max_w] bytes,
    that is at the first quarter of the [max_h * max_w] 32-bit elements: two
    outputs that differ in element 4096 pass as equal. *)
Theorem C8_comparison_stops_after_a_quarter :
  length (replicate (Z.to_nat 16384) 0) = Z.to_nat (128 * 128) /\
  length (<[Z.to_nat 4096 := 1]> (replicate (Z.to_nat 16384) 0)) = Z.to_nat (128 * 128) /\
  load (replicate (Z.to_nat 16384) 0) 4096 = Some 0 /\
  load (<[Z.to_nat 4096 := 1]> (replicate (Z.to_nat 16384) 0)) 4096 = Some 1 /\
  outputs_differ (replicate (Z.to_nat 16384) 0)
                 (<[Z.to_nat 4096 := 1]> (replicate (Z.to_nat 16384) 0)) 128 128
  = Some false.
Proof. repeat split; vm_compute; reflexivity. Qed.

(** C9 (amended).  In a run of the entry point that completes, all four
    passes of the benchmark loop run, one after the other on the buffers the
    pass before left; every pass whose comparison detects a mismatch appends
    "mismatch!" and a read of an integer from standard input to what the
    program has emitted so far, and the passes after it still run; what the
    program emits in all is the reports of the passes in order, followed by
    the timing lines and the pause; and the exit status is 0. *)
Theorem C9_mismatch_reported_exit_zero (slow fast : transcoder)
    (l0 s0 f0 : list Z) (tr : list event) (code : Z) :
  main_with slow fast l0 s0 f0 = Some (tr, code) ->
  exists (linearPixels : list Z) (st : nat -> list Z * list Z * list event)
         (differ : nat -> bool),
    for_lt (128 * 128) (fun i linearPixels => store linearPixels i i) l0
    = Some linearPixels /\
    st 0%nat = (s0, f0, []) /\
    (forall j : nat, (j < 4)%nat ->
       bench_iteration slow fast linearPixels 128 128 (st j)
       = Some (st (Datatypes.S j)) /\
       outputs_differ (fst (fst (st (Datatypes.S j))))
                      (snd (fst (st (Datatypes.S j)))) 128 128
       = Some (differ j) /\
       snd (st (Datatypes.S j))
       = snd (st j) ++ (if differ j then mismatch_report else [])) /\
    tr = (if differ 0%nat then mismatch_report else [])
         ++ (if differ 1%nat then mismatch_report else [])
         ++ (if differ 2%nat then mismatch_report else [])
         ++ (if differ 3%nat then mismatch_report else [])
         ++ [CoutTimes; SystemPause] /\
    code = 0.
Proof.
  unfold main_with.
  destruct (for_lt (128 * 128) _ l0) as [l |] eqn:El; [| discriminate].
  destruct (for_lt 4 _ _) as [[[sp fp] out] |] eqn:E; [| discriminate].
  intros [= <- <-].
  unfold for_lt in E. change (Z.to_nat 4) with 4%nat in E.
  cbn [for_loop] in E.
  destruct (bench_iteration slow fast l 128 128 (s0, f0, []))
    as [[[sp1 fp1] out1] |] eqn:E1; [| discriminate].
  destruct (bench_iteration slow fast l 128 128 (sp1, fp1, out1))
    as [[[sp2 fp2] out2] |] eqn:E2; [| discriminate].
  destruct (bench_iteration slow fast l 128 128 (sp2, fp2, out2))
    as [[[sp3 fp3] out3] |] eqn:E3; [| discriminate].
  destruct (bench_iteration slow fast l 128 128 (sp3, fp3, out3))
    as [[[sp4 fp4] out4] |] eqn:E4; [| discriminate].
  injection E as <- <- <-.
  destruct (bench_iteration_report _ _ _ _ _ _ _ _ _ _ _ E1) as (d1 & D1 & O1).
  destruct (bench_iteration_report _ _ _ _ _ _ _ _ _ _ _ E2) as (d2 & D2 & O2).
  destruct (bench_iteration_report _ _ _ _ _ _ _ _ _ _ _ E3) as (d3 & D3 & O3).
  destruct (bench_iteration_report _ _ _ _ _ _ _ _ _ _ _ E4) as (d4 & D4 & O4).
  assert (G : forall (d : bool) (o : list event),
            (if d then o ++ [Printf ("mismatch!" ++ newline); CinInt] else o)
            = o ++ (if d then mismatch_report else [])).
  { intros [|] o; [reflexivity | rewrite app_nil_r; reflexivity]. }
  rewrite G in O1, O2, O3, O4.
  exists l,
    (fun j : nat =>
       match j with
       | 0%nat => (s0, f0, [])
       | 1%nat => (sp1, fp1, out1)
       | 2%nat => (sp2, fp2, out2)
       | 3%nat => (sp3, fp3, out3)
       | _ => (sp4, fp4, out4)
       end),
    (fun j : nat =>
       match j with 0%nat => d1 | 1%nat => d2 | 2%nat => d3 | _ => d4 end).
  split; [reflexivity |]. split; [reflexivity |]. split.
  - intros j Hj.
    destruct j as [| [| [| [| j]]]]; [| | | | lia]; cbn [fst snd]; auto.
  - split; [| reflexivity].
    rewrite O4, O3, O2, O1. cbn [app]. rewrite <- !app_assoc. reflexivity.
Qed.

(** C10. For any coordinates and any [u32] bit budgets,
    [linear_to_swizzle(x, y, 0, bitsX, bitsY, 0)] terminates with a result
    that depends only on [x mod 2^bitsX] and [y mod 2^bitsY] (two argument
    pairs that agree there give the same result, so in particular the pair
    reduced modulo the budgets does), and the result is below
    [2^(bitsX+bitsY)]. *)
Theorem C10_mapper_low_bits_only (x y x' y' bitsX bitsY : Z) :
  0 <= bitsX < 2 ^ 32 -> 0 <= bitsY < 2 ^ 32 ->
  x mod 2 ^ bitsX = x' mod 2 ^ bitsX ->
  y mod 2 ^ bitsY = y' mod 2 ^ bitsY ->
  exists o,
    linear_to_swizzle x y 0 bitsX bitsY 0 = Some o /\
    linear_to_swizzle x' y' 0 bitsX bitsY 0 = Some o /\
    linear_to_swizzle (x mod 2 ^ bitsX) (y mod 2 ^ bitsY) 0 bitsX bitsY 0 = Some o /\
    0 <= o < 2 ^ (bitsX + bitsY).
Proof.
  intros HbX HbY Ex Ey.
  destruct (linear_to_swizzle_total x y bitsX bitsY HbX HbY) as (o & E & Hr & Hb).
  pose proof (pow2_gt0 bitsX ltac:(lia)). pose proof (pow2_gt0 bitsY ltac:(lia)).
  exists o. repeat split; try lia; try exact E.
  - rewrite <- E. unfold linear_to_swizzle. symmetry.
    apply swz_loop_agree; lia.
  - rewrite <- E. unfold linear_to_swizzle. symmetry.
    apply swz_loop_agree; try lia; symmetry; apply Z.mod_mod; lia.
Qed.

(** * Further properties *)

(** ** linear_to_swizzle on three axes *)

Lemma axis_bit_range n v : 0 <= axis_bit n v < axis_step n.
Proof.
  destruct n; simpl; [lia |]. apply Z.mod_pos_bound. lia.
Qed.

Lemma axis_step_pow n : axis_step n = 2 ^ Z.of_nat (Nat.min 1 n).
Proof. destruct n; reflexivity. Qed.

Lemma min1_pred (n : nat) :
  0 <= Z.of_nat (Nat.min 1 n) /\
  Z.of_nat (Nat.min 1 n) + Z.of_nat (Nat.pred n) = Z.of_nat n.
Proof. destruct n; simpl Nat.min; simpl Nat.pred; lia. Qed.

Lemma take_bit_axis offset sc v (n : nat) :
  0 <= sc -> sc + Z.of_nat (Nat.min 1 n) <= 32 -> Z.of_nat n < 2 ^ 32 ->
  0 <= offset < 2 ^ sc ->
  take_bit offset sc v (Z.of_nat n)
  = (offset + 2 ^ sc * axis_bit n v, sc + Z.of_nat (Nat.min 1 n),
     axis_rest n v, Z.of_nat (Nat.pred n)) /\
  2 ^ (sc + Z.of_nat (Nat.min 1 n)) = 2 ^ sc * axis_step n /\
  0 <= offset + 2 ^ sc * axis_bit n v < 2 ^ (sc + Z.of_nat (Nat.min 1 n)).
Proof.
  intros Hsc Hle Hn Ho. pose proof (pow2_gt0 sc Hsc) as Hp.
  destruct n as [| n].
  - change (Z.of_nat (Nat.min 1 0)) with 0. rewrite Z.add_0_r.
    simpl axis_bit. simpl axis_step. simpl axis_rest.
    change (Z.of_nat (Nat.pred 0)) with 0. change (Z.of_nat 0) with 0.
    rewrite take_bit_zero, Z.mul_0_r, Z.add_0_r, Z.mul_1_r. auto.
  - change (Z.of_nat (Nat.min 1 (Datatypes.S n))) with 1 in *.
    rewrite take_bit_pos by lia.
    simpl axis_bit. simpl axis_step. simpl axis_rest. simpl Nat.pred.
    pose proof (Z.mod_pos_bound v 2 ltac:(lia)) as Hv.
    replace (Z.of_nat (Datatypes.S n) - 1) with (Z.of_nat n) by lia.
    rewrite (Z.mul_comm (v mod 2)).
    replace (sc + 1) with (Z.succ sc) by lia.
    rewrite Z.pow_succ_r by lia.
    split; [reflexivity | split; nia].
Qed.

Lemma interleave3_none rounds : forall x y z, interleave3 rounds 0 0 0 x y z = 0.
Proof.
  induction rounds as [| r IH]; intros x y z; [reflexivity |].
  simpl. rewrite IH. reflexivity.
Qed.

Lemma swz_loop_interleave3 fuel : forall (nx ny nz : nat) x y z offset sc,
  (Nat.max nx (Nat.max ny nz) <= fuel)%nat ->
  0 <= sc -> sc + Z.of_nat nx + Z.of_nat ny + Z.of_nat nz <= 32 ->
  0 <= offset < 2 ^ sc ->
  swz_loop fuel (SwzState x y z (Z.of_nat nx) (Z.of_nat ny) (Z.of_nat nz) offset sc)
  = Some (offset + 2 ^ sc * interleave3 fuel nx ny nz x y z).
Proof.
  induction fuel as [| fuel IH]; intros nx ny nz x y z offset sc Hf Hsc Hsum Ho.
  - assert (nx = 0%nat) by lia. assert (ny = 0%nat) by lia.
    assert (nz = 0%nat) by lia. subst. simpl. f_equal. lia.
  - cbn [swz_loop swz_log2_width swz_log2_height swz_log2_depth swz_offset].
    destruct (Z.eqb_spec
                (Z.lor (Z.lor (Z.of_nat nx) (Z.of_nat ny)) (Z.of_nat nz)) 0) as [E | _].
    + apply Z.lor_eq_0_iff in E. destruct E as [E Ez].
      apply Z.lor_eq_0_iff in E. destruct E as [Ex Ey].
      assert (nx = 0%nat) by lia. assert (ny = 0%nat) by lia.
      assert (nz = 0%nat) by lia. subst.
      rewrite interleave3_none. f_equal. lia.
    + unfold swz_body. cbn [swz_offset swz_shift_count swz_x swz_y swz_z
        swz_log2_width swz_log2_height swz_log2_depth].
      assert (H32 : forall n : nat, Z.of_nat n <= 32 -> Z.of_nat n < 2 ^ 32)
        by (intros n Hn; change (2 ^ 32) with 4294967296; lia).
      pose proof (min1_pred nx) as Mx. pose proof (min1_pred ny) as My.
      pose proof (min1_pred nz) as Mz.
      assert (Tx : Z.of_nat nx < 2 ^ 32) by (apply H32; lia).
      assert (Ty : Z.of_nat ny < 2 ^ 32) by (apply H32; lia).
      assert (Tz : Z.of_nat nz < 2 ^ 32) by (apply H32; lia).
      assert (S1 : sc + Z.of_nat (Nat.min 1 nx) <= 32) by lia.
      destruct (take_bit_axis offset sc x nx Hsc S1 Tx Ho) as (-> & Hp1 & Ho1).
      assert (S2 : sc + Z.of_nat (Nat.min 1 nx) + Z.of_nat (Nat.min 1 ny) <= 32) by lia.
      assert (P1 : 0 <= sc + Z.of_nat (Nat.min 1 nx)) by lia.
      destruct (take_bit_axis _ _ y ny P1 S2 Ty Ho1) as (-> & Hp2 & Ho2).
      assert (S3 : sc + Z.of_nat (Nat.min 1 nx) + Z.of_nat (Nat.min 1 ny)
                   + Z.of_nat (Nat.min 1 nz) <= 32) by lia.
      assert (P2 : 0 <= sc + Z.of_nat (Nat.min 1 nx) + Z.of_nat (Nat.min 1 ny)) by lia.
      destruct (take_bit_axis _ _ z nz P2 S3 Tz Ho2) as (-> & Hp3 & Ho3).
      rewrite IH by lia. f_equal.
      cbn [interleave3]. rewrite Hp3, Hp2, Hp1. ring.
Qed.

Lemma linear_to_swizzle_interleave3 x y z bitsX bitsY bitsZ :
  0 <= bitsX -> 0 <= bitsY -> 0 <= bitsZ -> bitsX + bitsY + bitsZ <= 32 ->
  linear_to_swizzle x y z bitsX bitsY bitsZ
  = Some (interleave3 (Z.to_nat (Z.max bitsX (Z.max bitsY bitsZ)))
            (Z.to_nat bitsX) (Z.to_nat bitsY) (Z.to_nat bitsZ) x y z).
Proof.
  intros Hx Hy Hz Hs. unfold linear_to_swizzle.
  rewrite <- (Z2Nat.id bitsX) at 2 by lia.
  rewrite <- (Z2Nat.id bitsY) at 2 by lia.
  rewrite <- (Z2Nat.id bitsZ) at 2 by lia.
  rewrite swz_loop_interleave3; [f_equal; lia | lia | lia | lia | lia].
Qed.

Lemma axis_rest_range n v :
  0 <= v < 2 ^ Z.of_nat n -> 0 <= axis_rest n v < 2 ^ Z.of_nat (Nat.pred n).
Proof.
  destruct n as [| n]; intros Hv; [exact Hv |].
  simpl axis_rest. simpl Nat.pred. rewrite pow2_succ_nat in Hv.
  split; [apply Z.div_pos; lia | apply Z.div_lt_upper_bound; lia].
Qed.

Lemma axis_inj n v v' :
  axis_bit n v = axis_bit n v' -> axis_rest n v = axis_rest n v' -> v = v'.
Proof.
  destruct n as [| n]; simpl; intros Hb Hr; [exact Hr |].
  rewrite (Z.div_mod v 2), (Z.div_mod v' 2) by lia. congruence.
Qed.

Lemma axis_join n b v' :
  0 <= b < axis_step n -> 0 <= v' < 2 ^ Z.of_nat (Nat.pred n) ->
  exists v, 0 <= v < 2 ^ Z.of_nat n /\ axis_bit n v = b /\ axis_rest n v = v'.
Proof.
  clear shl_oob.
  destruct n as [| n]; simpl axis_step; simpl Nat.pred; intros Hb Hv.
  - exists v'. simpl. split; [exact Hv |]. split; lia.
  - exists (2 * v' + b). rewrite pow2_succ_nat. simpl.
    rewrite double_add_mod2, double_add_div2 by lia. lia.
Qed.

Lemma axis_split n o R :
  0 <= o < axis_step n * R ->
  exists b o', 0 <= b < axis_step n /\ 0 <= o' < R /\ o = b + axis_step n * o'.
Proof.
  destruct n as [| n]; simpl axis_step; intros Ho.
  - exists 0, o. lia.
  - exists (o mod 2), (o / 2).
    pose proof (Z.div_mod o 2 ltac:(lia)). pose proof (Z.mod_pos_bound o 2 ltac:(lia)).
    lia.
Qed.

Lemma radix_split s b b' A A' :
  0 <= b < s -> 0 <= b' < s -> b + s * A = b' + s * A' -> b = b' /\ A = A'.
Proof.
  intros Hb Hb' E.
  assert (Eb : b = b').
  { rewrite <- (Z.mod_small b s), <- (Z.mod_small b' s) by lia.
    rewrite <- (Z.mod_add b A s), <- (Z.mod_add b' A' s) by lia.
    rewrite (Z.mul_comm A), (Z.mul_comm A'), E. reflexivity. }
  split; [exact Eb |]. subst b'. apply (Z.mul_reg_l _ _ s); lia.
Qed.

Lemma radix_bound s b A R :
  0 <= b < s -> 0 <= A < R -> 0 <= b + s * A < s * R.
Proof. intros Hb HA. nia. Qed.

Lemma axis_pow_sum (nx ny nz : nat) :
  2 ^ (Z.of_nat nx + Z.of_nat ny + Z.of_nat nz)
  = axis_step nx * (axis_step ny * (axis_step nz *
      2 ^ (Z.of_nat (Nat.pred nx) + Z.of_nat (Nat.pred ny) + Z.of_nat (Nat.pred nz)))).
Proof.
  rewrite !axis_step_pow, <- !Z.pow_add_r by lia. f_equal.
  pose proof (min1_pred nx). pose proof (min1_pred ny). pose proof (min1_pred nz). lia.
Qed.

Lemma interleave3_bound rounds : forall nx ny nz x y z,
  0 <= interleave3 rounds nx ny nz x y z
     < 2 ^ (Z.of_nat nx + Z.of_nat ny + Z.of_nat nz).
Proof.
  induction rounds as [| r IH]; intros nx ny nz x y z.
  - simpl. split; [lia | apply pow2_gt0; lia].
  - cbn [interleave3]. rewrite axis_pow_sum.
    specialize (IH (Nat.pred nx) (Nat.pred ny) (Nat.pred nz)
                  (axis_rest nx x) (axis_rest ny y) (axis_rest nz z)).
    repeat (apply radix_bound; [apply axis_bit_range |]). exact IH.
Qed.

Lemma interleave3_inj rounds : forall nx ny nz x y z x' y' z',
  (Nat.max nx (Nat.max ny nz) <= rounds)%nat ->
  0 <= x < 2 ^ Z.of_nat nx -> 0 <= y < 2 ^ Z.of_nat ny -> 0 <= z < 2 ^ Z.of_nat nz ->
  0 <= x' < 2 ^ Z.of_nat nx -> 0 <= y' < 2 ^ Z.of_nat ny -> 0 <= z' < 2 ^ Z.of_nat nz ->
  interleave3 rounds nx ny nz x y z = interleave3 rounds nx ny nz x' y' z' ->
  x = x' /\ y = y' /\ z = z'.
Proof.
  induction rounds as [| r IH]; intros nx ny nz x y z x' y' z' Hr Hx Hy Hz Hx' Hy' Hz' E.
  - assert (nx = 0%nat) by lia. assert (ny = 0%nat) by lia.
    assert (nz = 0%nat) by lia. subst. change (2 ^ Z.of_nat 0) with 1 in *. lia.
  - cbn [interleave3] in E.
    apply radix_split in E; try apply axis_bit_range. destruct E as [Ebx E].
    apply radix_split in E; try apply axis_bit_range. destruct E as [Eby E].
    apply radix_split in E; try apply axis_bit_range. destruct E as [Ebz E].
    apply IH in E; try (apply axis_rest_range; assumption); [| lia].
    destruct E as (Ex & Ey & Ez).
    repeat split; eapply axis_inj; eassumption.
Qed.

Lemma interleave3_surj rounds : forall nx ny nz o,
  (Nat.max nx (Nat.max ny nz) <= rounds)%nat ->
  0 <= o < 2 ^ (Z.of_nat nx + Z.of_nat ny + Z.of_nat nz) ->
  exists x y z,
    0 <= x < 2 ^ Z.of_nat nx /\ 0 <= y < 2 ^ Z.of_nat ny /\ 0 <= z < 2 ^ Z.of_nat nz /\
    interleave3 rounds nx ny nz x y z = o.
Proof.
  clear shl_oob.
  induction rounds as [| r IH]; intros nx ny nz o Hr Ho.
  - assert (nx = 0%nat) by lia. assert (ny = 0%nat) by lia.
    assert (nz = 0%nat) by lia. subst. change (2 ^ (Z.of_nat 0 + Z.of_nat 0 + Z.of_nat 0)) with 1 in Ho.
    exists 0, 0, 0. change (2 ^ Z.of_nat 0) with 1. simpl. lia.
  - rewrite axis_pow_sum in Ho.
    destruct (axis_split nx o _ Ho) as (bx & o1 & Hbx & Ho1 & ->).
    destruct (axis_split ny o1 _ Ho1) as (b_y & o2 & Hby & Ho2 & ->).
    destruct (axis_split nz o2 _ Ho2) as (bz & o3 & Hbz & Ho3 & ->).
    destruct (IH (Nat.pred nx) (Nat.pred ny) (Nat.pred nz) o3 ltac:(lia) Ho3)
      as (x' & y' & z' & Hx' & Hy' & Hz' & E).
    destruct (axis_join nx bx x' Hbx Hx') as (x & Hx & Bx & Rx).
    destruct (axis_join ny b_y y' Hby Hy') as (y & Hy & By & Ry).
    destruct (axis_join nz bz z' Hbz Hz') as (z & Hz & Bz & Rz).
    exists x, y, z. cbn [interleave3]. rewrite Bx, By, Bz, Rx, Ry, Rz, E. auto.
Qed.

Lemma interleave3_split rounds : forall nx ny nz x y z,
  interleave3 rounds nx ny nz x y z
  = interleave3 rounds nx ny nz x 0 0 + interleave3 rounds nx ny nz 0 y 0
    + interleave3 rounds nx ny nz 0 0 z.
Proof.
  assert (B0 : forall n, axis_bit n 0 = 0) by (intros [| n]; reflexivity).
  assert (R0 : forall n, axis_rest n 0 = 0) by (intros [| n]; reflexivity).
  induction rounds as [| r IH]; intros nx ny nz x y z; [reflexivity |].
  cbn [interleave3]. rewrite !B0, !R0.
  rewrite (IH _ _ _ (axis_rest nx x) (axis_rest ny y) (axis_rest nz z)). ring.
Qed.

(** *** Where each coordinate bit lands *)

Lemma testbit_radix low c rest p :
  0 <= c -> 0 <= p -> 0 <= low < 2 ^ c ->
  Z.testbit (low + 2 ^ c * rest) (c + p) = Z.testbit rest p.
Proof.
  intros Hc Hp Hlow. rewrite (Z.add_comm c p), <- Z.div_pow2_bits by lia.
  f_equal. rewrite (Z.mul_comm (2 ^ c)), Z.div_add by lia.
  rewrite Z.div_small by lia. reflexivity.
Qed.

Lemma testbit_axis n v A p :
  0 <= p ->
  Z.testbit (axis_bit n v + axis_step n * A) (Z.of_nat (Nat.min 1 n) + p)
  = Z.testbit A p.
Proof.
  intros Hp. rewrite axis_step_pow. apply testbit_radix; [lia | exact Hp |].
  rewrite <- axis_step_pow. apply axis_bit_range.
Qed.

Lemma testbit_axis_0 n v A :
  Z.testbit (axis_bit (Datatypes.S n) v + axis_step (Datatypes.S n) * A) 0
  = Z.testbit v 0.
Proof.
  simpl axis_bit. simpl axis_step. rewrite <- Z.bit0_mod.
  rewrite Z.add_comm. apply Z.testbit_0_r.
Qed.

Lemma testbit_half v (i : nat) :
  Z.testbit (v / 2) (Z.of_nat i) = Z.testbit v (Z.of_nat (Datatypes.S i)).
Proof.
  change (v / 2) with (v / 2 ^ 1). rewrite Z.div_pow2_bits by lia.
  f_equal. lia.
Qed.

Lemma min_succ_split (i n : nat) :
  Nat.min (Datatypes.S i) n = (Nat.min 1 n + Nat.min i (Nat.pred n))%nat.
Proof. destruct n as [| n]; destruct i as [| i]; simpl; lia. Qed.

Lemma interleave3_bit_x rounds : forall nx ny nz x y z (i : nat),
  (i < nx)%nat -> (i < rounds)%nat ->
  Z.testbit (interleave3 rounds nx ny nz x y z)
            (Z.of_nat (i + Nat.min i ny + Nat.min i nz))
  = Z.testbit x (Z.of_nat i).
Proof.
  induction rounds as [| r IH]; intros nx ny nz x y z i Hi Hr; [lia |].
  destruct nx as [| nx]; [lia |]. cbn [interleave3].
  destruct i as [| i].
  - simpl Nat.min. change (Z.of_nat (0 + 0 + 0)) with 0. apply testbit_axis_0.
  - rewrite (min_succ_split i ny), (min_succ_split i nz).
    replace (Z.of_nat (Datatypes.S i + (Nat.min 1 ny + Nat.min i (Nat.pred ny))
                       + (Nat.min 1 nz + Nat.min i (Nat.pred nz))))
      with (Z.of_nat (Nat.min 1 (Datatypes.S nx))
            + (Z.of_nat (Nat.min 1 ny)
               + (Z.of_nat (Nat.min 1 nz)
                  + Z.of_nat (i + Nat.min i (Nat.pred ny) + Nat.min i (Nat.pred nz)))))
      by (simpl Nat.min; lia).
    rewrite !testbit_axis by lia.
    simpl Nat.pred. rewrite IH by lia. simpl axis_rest. apply testbit_half.
Qed.

Lemma interleave3_bit_y rounds : forall nx ny nz x y z (i : nat),
  (i < ny)%nat -> (i < rounds)%nat ->
  Z.testbit (interleave3 rounds nx ny nz x y z)
            (Z.of_nat (i + Nat.min (Datatypes.S i) nx + Nat.min i nz))
  = Z.testbit y (Z.of_nat i).
Proof.
  induction rounds as [| r IH]; intros nx ny nz x y z i Hi Hr; [lia |].
  destruct ny as [| ny]; [lia |]. cbn [interleave3].
  destruct i as [| i].
  - replace (Z.of_nat (0 + Nat.min 1 nx + Nat.min 0 nz))
      with (Z.of_nat (Nat.min 1 nx) + 0) by (simpl Nat.min; lia).
    rewrite testbit_axis by lia. apply testbit_axis_0.
  - rewrite (min_succ_split (Datatypes.S i) nx), (min_succ_split i nz).
    replace (Z.of_nat (Datatypes.S i
                       + (Nat.min 1 nx + Nat.min (Datatypes.S i) (Nat.pred nx))
                       + (Nat.min 1 nz + Nat.min i (Nat.pred nz))))
      with (Z.of_nat (Nat.min 1 nx)
            + (Z.of_nat (Nat.min 1 (Datatypes.S ny))
               + (Z.of_nat (Nat.min 1 nz)
                  + Z.of_nat (i + Nat.min (Datatypes.S i) (Nat.pred nx)
                              + Nat.min i (Nat.pred nz)))))
      by (simpl Nat.min; lia).
    rewrite !testbit_axis by lia.
    simpl Nat.pred. rewrite IH by lia. simpl axis_rest. apply testbit_half.
Qed.

Lemma interleave3_bit_z rounds : forall nx ny nz x y z (i : nat),
  (i < nz)%nat -> (i < rounds)%nat ->
  Z.testbit (interleave3 rounds nx ny nz x y z)
            (Z.of_nat (i + Nat.min (Datatypes.S i) nx + Nat.min (Datatypes.S i) ny))
  = Z.testbit z (Z.of_nat i).
Proof.
  induction rounds as [| r IH]; intros nx ny nz x y z i Hi Hr; [lia |].
  destruct nz as [| nz]; [lia |]. cbn [interleave3].
  destruct i as [| i].
  - replace (Z.of_nat (0 + Nat.min 1 nx + Nat.min 1 ny))
      with (Z.of_nat (Nat.min 1 nx) + (Z.of_nat (Nat.min 1 ny) + 0)) by lia.
    rewrite !testbit_axis by lia. apply testbit_axis_0.
  - rewrite (min_succ_split (Datatypes.S i) nx), (min_succ_split (Datatypes.S i) ny).
    replace (Z.of_nat (Datatypes.S i
                       + (Nat.min 1 nx + Nat.min (Datatypes.S i) (Nat.pred nx))
                       + (Nat.min 1 ny + Nat.min (Datatypes.S i) (Nat.pred ny))))
      with (Z.of_nat (Nat.min 1 nx)
            + (Z.of_nat (Nat.min 1 ny)
               + (Z.of_nat (Nat.min 1 (Datatypes.S nz))
                  + Z.of_nat (i + Nat.min (Datatypes.S i) (Nat.pred nx)
                              + Nat.min (Datatypes.S i) (Nat.pred ny)))))
      by (simpl Nat.min; lia).
    rewrite !testbit_axis by lia.
    simpl Nat.pred. rewrite IH by lia. simpl axis_rest. apply testbit_half.
Qed.

(** *** Any budgets *)

Lemma swz_loop_total3 fuel : forall (nx ny nz : nat) x y z offset sc cnt,
  (Nat.max nx (Nat.max ny nz) <= fuel)%nat ->
  Z.of_nat nx < 2 ^ 32 -> Z.of_nat ny < 2 ^ 32 -> Z.of_nat nz < 2 ^ 32 ->
  0 <= cnt -> sc = cnt mod 2 ^ 32 ->
  0 <= offset < 2 ^ 32 -> offset < 2 ^ cnt ->
  exists o,
    swz_loop fuel (SwzState x y z (Z.of_nat nx) (Z.of_nat ny) (Z.of_nat nz) offset sc)
    = Some o /\
    0 <= o < 2 ^ 32 /\ o < 2 ^ (cnt + Z.of_nat nx + Z.of_nat ny + Z.of_nat nz).
Proof.
  induction fuel as [| fuel IH];
    intros nx ny nz x y z offset sc cnt Hf Hnx Hny Hnz Hcnt Hsc Ho Hoc.
  - assert (nx = 0%nat) by lia. assert (ny = 0%nat) by lia.
    assert (nz = 0%nat) by lia. subst nx ny nz.
    exists offset. simpl. rewrite !Z.add_0_r. auto.
  - cbn [swz_loop swz_log2_width swz_log2_height swz_log2_depth swz_offset].
    destruct (Z.eqb_spec
                (Z.lor (Z.lor (Z.of_nat nx) (Z.of_nat ny)) (Z.of_nat nz)) 0) as [E | Hne].
    + apply Z.lor_eq_0_iff in E. destruct E as [E Ez].
      apply Z.lor_eq_0_iff in E. destruct E as [Ex Ey].
      exists offset. rewrite Ex, Ey, Ez, !Z.add_0_r. auto.
    + unfold swz_body. cbn [swz_offset swz_shift_count swz_x swz_y swz_z
        swz_log2_width swz_log2_height swz_log2_depth].
      pose proof (min1_pred nx) as Mx. pose proof (min1_pred ny) as My.
      pose proof (min1_pred nz) as Mz.
      destruct (take_bit_count offset sc x nx cnt Hnx Hcnt Hsc Ho Hoc)
        as (o1 & x' & -> & Ho1 & Hoc1).
      assert (C1 : 0 <= cnt + Z.of_nat (Nat.min 1 nx)) by lia.
      destruct (take_bit_count o1 _ y ny _ Hny C1 eq_refl Ho1 Hoc1)
        as (o2 & y' & -> & Ho2 & Hoc2).
      assert (C2 : 0 <= cnt + Z.of_nat (Nat.min 1 nx) + Z.of_nat (Nat.min 1 ny)) by lia.
      destruct (take_bit_count o2 _ z nz _ Hnz C2 eq_refl Ho2 Hoc2)
        as (o3 & z' & -> & Ho3 & Hoc3).
      assert (C3 : 0 <= cnt + Z.of_nat (Nat.min 1 nx) + Z.of_nat (Nat.min 1 ny)
                        + Z.of_nat (Nat.min 1 nz)) by lia.
      destruct (IH (Nat.pred nx) (Nat.pred ny) (Nat.pred nz) x' y' z' o3 _ _
                  ltac:(lia) ltac:(lia) ltac:(lia) ltac:(lia) C3 eq_refl Ho3 Hoc3)
        as (o & E & Hor & Hob).
      exists o. split; [exact E |]. split; [exact Hor |].
      replace (cnt + Z.of_nat nx + Z.of_nat ny + Z.of_nat nz)
        with (cnt + Z.of_nat (Nat.min 1 nx) + Z.of_nat (Nat.min 1 ny)
              + Z.of_nat (Nat.min 1 nz)
              + Z.of_nat (Nat.pred nx) + Z.of_nat (Nat.pred ny) + Z.of_nat (Nat.pred nz))
        by lia.
      exact Hob.
Qed.

Lemma swz_loop_agree3 fuel : forall x1 x2 y1 y2 z1 z2 lw lh ld offset sc,
  0 <= lw -> 0 <= lh -> 0 <= ld ->
  x1 mod 2 ^ lw = x2 mod 2 ^ lw -> y1 mod 2 ^ lh = y2 mod 2 ^ lh ->
  z1 mod 2 ^ ld = z2 mod 2 ^ ld ->
  swz_loop fuel (SwzState x1 y1 z1 lw lh ld offset sc)
  = swz_loop fuel (SwzState x2 y2 z2 lw lh ld offset sc).
Proof.
  induction fuel as [| fuel IH];
    intros x1 x2 y1 y2 z1 z2 lw lh ld offset sc Hw Hh Hd Ex Ey Ez;
    cbn [swz_loop swz_log2_width swz_log2_height swz_log2_depth swz_offset];
    destruct (_ =? 0); try reflexivity.
  unfold swz_body. cbn [swz_offset swz_shift_count swz_x swz_y swz_z
    swz_log2_width swz_log2_height swz_log2_depth].
  destruct (take_bit_agree offset sc x1 x2 lw Hw Ex)
    as (o1 & s1 & x1' & x2' & lw' & -> & -> & Hw' & Ex').
  destruct (take_bit_agree o1 s1 y1 y2 lh Hh Ey)
    as (o2 & s2 & y1' & y2' & lh' & -> & -> & Hh' & Ey').
  destruct (take_bit_agree o2 s2 z1 z2 ld Hd Ez)
    as (o3 & s3 & z1' & z2' & ld' & -> & -> & Hd' & Ez').
  apply IH; assumption.
Qed.

(** X1. For any coordinates and any [u32] budgets on all three axes,
    [linear_to_swizzle] terminates; its result depends only on each
    coordinate modulo two to its budget (so a coordinate whose budget is 0 is
    ignored), fits [u32], and is below [2^(log2_width+log2_height+log2_depth)]. *)
Theorem X1_mapper_three_axes_low_bits (x y z x' y' z' bitsX bitsY bitsZ : Z) :
  0 <= bitsX < 2 ^ 32 -> 0 <= bitsY < 2 ^ 32 -> 0 <= bitsZ < 2 ^ 32 ->
  x mod 2 ^ bitsX = x' mod 2 ^ bitsX ->
  y mod 2 ^ bitsY = y' mod 2 ^ bitsY ->
  z mod 2 ^ bitsZ = z' mod 2 ^ bitsZ ->
  exists o,
    linear_to_swizzle x y z bitsX bitsY bitsZ = Some o /\
    linear_to_swizzle x' y' z' bitsX bitsY bitsZ = Some o /\
    0 <= o < 2 ^ 32 /\ o < 2 ^ (bitsX + bitsY + bitsZ).
Proof.
  intros HbX HbY HbZ Ex Ey Ez. unfold linear_to_swizzle.
  assert (Hf : (Nat.max (Z.to_nat bitsX) (Nat.max (Z.to_nat bitsY) (Z.to_nat bitsZ))
               <= Z.to_nat (Z.max bitsX (Z.max bitsY bitsZ)))%nat) by lia.
  assert (Hnx : Z.of_nat (Z.to_nat bitsX) < 2 ^ 32) by lia.
  assert (Hny : Z.of_nat (Z.to_nat bitsY) < 2 ^ 32) by lia.
  assert (Hnz : Z.of_nat (Z.to_nat bitsZ) < 2 ^ 32) by lia.
  assert (H0 : 0 <= 0 < 2 ^ 32) by (change (2 ^ 32) with 4294967296; lia).
  destruct (swz_loop_total3 _ _ _ _ x y z 0 0 0 Hf Hnx Hny Hnz (Z.le_refl 0) eq_refl H0
              ltac:(change (2 ^ 0) with 1; lia))
    as (o & E & Hr & Hb).
  rewrite !Z2Nat.id in E, Hb by lia. rewrite Z.add_0_l in Hb. exists o.
  split; [exact E |]. split; [| split; [exact Hr | exact Hb]].
  rewrite <- E. symmetry. apply swz_loop_agree3; lia.
Qed.

(** X2. With three budgets that add up to at most 32, [linear_to_swizzle] is
    a bijection from the box [[0,2^bitsX) x [0,2^bitsY) x [0,2^bitsZ)] onto
    [[0, 2^(bitsX+bitsY+bitsZ))]: values in range, no two cells share an
    offset, every offset is taken. *)
Theorem X2_mapper_three_axes_bijection (bitsX bitsY bitsZ : Z) :
  0 <= bitsX -> 0 <= bitsY -> 0 <= bitsZ -> bitsX + bitsY + bitsZ <= 32 ->
  (forall x y z, exists o,
     linear_to_swizzle x y z bitsX bitsY bitsZ = Some o /\
     0 <= o < 2 ^ (bitsX + bitsY + bitsZ)) /\
  (forall x y z x' y' z',
     0 <= x < 2 ^ bitsX -> 0 <= y < 2 ^ bitsY -> 0 <= z < 2 ^ bitsZ ->
     0 <= x' < 2 ^ bitsX -> 0 <= y' < 2 ^ bitsY -> 0 <= z' < 2 ^ bitsZ ->
     linear_to_swizzle x y z bitsX bitsY bitsZ
     = linear_to_swizzle x' y' z' bitsX bitsY bitsZ ->
     x = x' /\ y = y' /\ z = z') /\
  (forall o, 0 <= o < 2 ^ (bitsX + bitsY + bitsZ) ->
     exists x y z,
       0 <= x < 2 ^ bitsX /\ 0 <= y < 2 ^ bitsY /\ 0 <= z < 2 ^ bitsZ /\
       linear_to_swizzle x y z bitsX bitsY bitsZ = Some o).
Proof.
  intros Hx Hy Hz Hs.
  pose proof (fun x y z => linear_to_swizzle_interleave3 x y z _ _ _ Hx Hy Hz Hs) as Hl.
  set (r := Z.to_nat (Z.max bitsX (Z.max bitsY bitsZ))) in *.
  assert (Hr : (Nat.max (Z.to_nat bitsX) (Nat.max (Z.to_nat bitsY) (Z.to_nat bitsZ))
               <= r)%nat) by (unfold r; lia).
  assert (Ex : 2 ^ bitsX = 2 ^ Z.of_nat (Z.to_nat bitsX)) by (rewrite Z2Nat.id; auto).
  assert (Ey : 2 ^ bitsY = 2 ^ Z.of_nat (Z.to_nat bitsY)) by (rewrite Z2Nat.id; auto).
  assert (Ez : 2 ^ bitsZ = 2 ^ Z.of_nat (Z.to_nat bitsZ)) by (rewrite Z2Nat.id; auto).
  assert (Es : 2 ^ (bitsX + bitsY + bitsZ)
               = 2 ^ (Z.of_nat (Z.to_nat bitsX) + Z.of_nat (Z.to_nat bitsY)
                      + Z.of_nat (Z.to_nat bitsZ))) by (rewrite !Z2Nat.id; auto).
  rewrite Ex, Ey, Ez, Es.
  split; [| split].
  - intros x y z. eexists. split; [apply Hl |]. apply interleave3_bound.
  - intros x y z x' y' z' Bx By Bz Bx' By' Bz' E. rewrite !Hl in E.
    injection E as E. eapply (interleave3_inj r); eassumption.
  - intros o Ho. destruct (interleave3_surj r _ _ _ o Hr Ho) as (x & y & z & Bx & By & Bz & E).
    exists x, y, z. rewrite Hl, E. auto.
Qed.

(** X3. With budgets that add up to at most 32, bit [i] of [x] (for
    [i < bitsX]) is bit [i + min(i, bitsY) + min(i, bitsZ)] of the offset,
    bit [i] of [y] is bit [i + min(i+1, bitsX) + min(i, bitsZ)], and bit [i]
    of [z] is bit [i + min(i+1, bitsX) + min(i+1, bitsY)]. *)
Theorem X3_mapper_bit_positions (x y z bitsX bitsY bitsZ o : Z) :
  0 <= bitsX -> 0 <= bitsY -> 0 <= bitsZ -> bitsX + bitsY + bitsZ <= 32 ->
  linear_to_swizzle x y z bitsX bitsY bitsZ = Some o ->
  (forall i, 0 <= i < bitsX ->
     Z.testbit o (i + Z.min i bitsY + Z.min i bitsZ) = Z.testbit x i) /\
  (forall i, 0 <= i < bitsY ->
     Z.testbit o (i + Z.min (i + 1) bitsX + Z.min i bitsZ) = Z.testbit y i) /\
  (forall i, 0 <= i < bitsZ ->
     Z.testbit o (i + Z.min (i + 1) bitsX + Z.min (i + 1) bitsY) = Z.testbit z i).
Proof.
  intros Hx Hy Hz Hs E.
  rewrite linear_to_swizzle_interleave3 in E by assumption. injection E as <-.
  set (r := Z.to_nat (Z.max bitsX (Z.max bitsY bitsZ))).
  split; [| split]; intros i Hi.
  - rewrite <- (Z2Nat.id i) at 4 by lia.
    rewrite <- (interleave3_bit_x r (Z.to_nat bitsX) (Z.to_nat bitsY) (Z.to_nat bitsZ)
                  x y z (Z.to_nat i)) by (unfold r; lia).
    f_equal. lia.
  - rewrite <- (Z2Nat.id i) at 4 by lia.
    rewrite <- (interleave3_bit_y r (Z.to_nat bitsX) (Z.to_nat bitsY) (Z.to_nat bitsZ)
                  x y z (Z.to_nat i)) by (unfold r; lia).
    f_equal. lia.
  - rewrite <- (Z2Nat.id i) at 4 by lia.
    rewrite <- (interleave3_bit_z r (Z.to_nat bitsX) (Z.to_nat bitsY) (Z.to_nat bitsZ)
                  x y z (Z.to_nat i)) by (unfold r; lia).
    f_equal. lia.
Qed.

(** X4. With budgets that add up to at most 32, the offset of a cell is the
    sum of the offsets of its three coordinates taken alone:
    [offset(x,y,z) = offset(x,0,0) + offset(0,y,0) + offset(0,0,z)]. *)
Theorem X4_mapper_separates (x y z bitsX bitsY bitsZ : Z) :
  0 <= bitsX -> 0 <= bitsY -> 0 <= bitsZ -> bitsX + bitsY + bitsZ <= 32 ->
  exists ox oy oz,
    linear_to_swizzle x 0 0 bitsX bitsY bitsZ = Some ox /\
    linear_to_swizzle 0 y 0 bitsX bitsY bitsZ = Some oy /\
    linear_to_swizzle 0 0 z bitsX bitsY bitsZ = Some oz /\
    linear_to_swizzle x y z bitsX bitsY bitsZ = Some (ox + oy + oz).
Proof.
  intros Hx Hy Hz Hs.
  rewrite !linear_to_swizzle_interleave3 by assumption.
  eexists _, _, _. repeat (split; [reflexivity |]).
  f_equal. apply interleave3_split.
Qed.
(** ** The masked subtraction as a counter *)

Lemma odd_decompose m : Z.odd m = true -> m = 2 * (m / 2) + 1.
Proof.
  intros H. pose proof (Z.div_mod m 2 ltac:(lia)) as Hd.
  rewrite <- Z.bit0_odd, Z.bit0_eqb in H. apply Z.eqb_eq in H. lia.
Qed.

Lemma even_decompose m : Z.odd m = false -> m = 2 * (m / 2).
Proof.
  intros H. pose proof (Z.div_mod m 2 ltac:(lia)) as Hd.
  pose proof (Z.mod_pos_bound m 2 ltac:(lia)) as Hr.
  rewrite <- Z.bit0_odd, Z.bit0_eqb in H. apply Z.eqb_neq in H. lia.
Qed.

Lemma half_bound (n : nat) m :
  0 <= m < 2 ^ Z.of_nat (Datatypes.S n) -> 0 <= m / 2 < 2 ^ Z.of_nat n.
Proof.
  rewrite pow2_succ_nat. intros Hm.
  split; [apply Z.div_pos; lia | apply Z.div_lt_upper_bound; lia].
Qed.

Lemma land_odd_odd a b : Z.land (2 * a + 1) (2 * b + 1) = 2 * Z.land a b + 1.
Proof. exact (land_double_bit a b true true). Qed.

Lemma land_even_odd a b : Z.land (2 * a) (2 * b + 1) = 2 * Z.land a b.
Proof.
  pose proof (land_double_bit a b false true) as H. simpl in H.
  rewrite !Z.add_0_r in H. exact H.
Qed.

Lemma deposit_subset n : forall mask v,
  Z.land (deposit n mask v) mask = deposit n mask v.
Proof.
  induction n as [| n IH]; intros mask v; [reflexivity |].
  cbn [deposit]. destruct (Z.odd mask) eqn:Eo.
  - rewrite (odd_decompose mask Eo) at 2.
    pose proof (Z.mod_pos_bound v 2 ltac:(lia)) as Hr.
    assert (Hc : v mod 2 = 0 \/ v mod 2 = 1) by lia.
    destruct Hc as [-> | ->].
    + rewrite Z.add_0_l, land_even_odd, IH. reflexivity.
    + rewrite (Z.add_comm 1), land_odd_odd, IH. reflexivity.
  - rewrite (even_decompose mask Eo) at 2. rewrite land_double, IH. reflexivity.
Qed.

Lemma deposit_step n : forall mask v,
  0 <= mask < 2 ^ Z.of_nat n ->
  Z.land (deposit n mask v - mask) mask = deposit n mask (v + 1).
Proof.
  clear shl_oob.
  induction n as [| n IH]; intros mask v Hm.
  - change (2 ^ Z.of_nat 0) with 1 in Hm. assert (mask = 0) by lia. subst.
    simpl. reflexivity.
  - pose proof (half_bound n mask Hm) as Hh.
    pose proof (Z.div_mod v 2 ltac:(lia)) as Hdv.
    pose proof (Z.mod_pos_bound v 2 ltac:(lia)) as Hr.
    cbn [deposit]. destruct (Z.odd mask) eqn:Eo.
    + pose proof (odd_decompose mask Eo) as Em.
      assert (Hc : v mod 2 = 0 \/ v mod 2 = 1) by lia.
      destruct Hc as [Hc | Hc]; rewrite Hc.
      * replace ((v + 1) mod 2) with 1 by (Z.div_mod_to_equations; lia).
        replace ((v + 1) / 2) with (v / 2) by (Z.div_mod_to_equations; lia).
        set (D := deposit n (mask / 2) (v / 2)).
        rewrite Em at 1 2.
        replace (0 + 2 * D - (2 * (mask / 2) + 1))
          with (2 * (D - mask / 2 - 1) + 1) by lia.
        rewrite land_odd_odd, land_sub_pred_mask by apply deposit_subset.
        lia.
      * replace ((v + 1) mod 2) with 0 by (Z.div_mod_to_equations; lia).
        replace ((v + 1) / 2) with (v / 2 + 1) by (Z.div_mod_to_equations; lia).
        set (D := deposit n (mask / 2) (v / 2)).
        rewrite Em at 1 2.
        replace (1 + 2 * D - (2 * (mask / 2) + 1)) with (2 * (D - mask / 2)) by lia.
        unfold D. rewrite land_even_odd, IH by exact Hh. lia.
    + pose proof (even_decompose mask Eo) as Em.
      set (D := deposit n (mask / 2) v).
      rewrite Em at 1 2.
      replace (2 * D - 2 * (mask / 2)) with (2 * (D - mask / 2)) by lia.
      unfold D. rewrite land_double, IH by exact Hh. reflexivity.
Qed.

Lemma deposit_0 n : forall mask, deposit n mask 0 = 0.
Proof.
  induction n as [| n IH]; intros mask; [reflexivity |].
  cbn [deposit]. destruct (Z.odd mask); rewrite ?Zdiv_0_l, IH; reflexivity.
Qed.

Lemma masked_next_deposit mask v :
  0 <= mask < 2 ^ 32 ->
  masked_next mask (deposit 32 mask v) = deposit 32 mask (v + 1).
Proof.
  clear shl_oob.
  intros Hm. unfold masked_next. rewrite land_wrap32 by exact Hm.
  apply deposit_step. exact Hm.
Qed.

(** X5. For any 32-bit mask, [offs = (offs - mask) & mask] is a counter on
    the bits of the mask: from the value that has the bits of [v] on the
    positions of the mask it leads to the one that has the bits of [v + 1]
    there, so [k] steps from 0 lead to the value that spells [k], and every
    value it reaches lies within the mask. *)
Theorem X5_masked_subtraction_counts (mask v : Z) (k : nat) :
  0 <= mask < 2 ^ 32 ->
  masked_next mask (deposit 32 mask v) = deposit 32 mask (v + 1) /\
  Nat.iter k (masked_next mask) 0 = deposit 32 mask (Z.of_nat k) /\
  Z.land (Nat.iter k (masked_next mask) 0) mask = Nat.iter k (masked_next mask) 0.
Proof.
  clear shl_oob.
  intros Hm. split; [apply masked_next_deposit; exact Hm |].
  assert (Hk : forall j : nat,
            Nat.iter j (masked_next mask) 0 = deposit 32 mask (Z.of_nat j)).
  { induction j as [| j IH]; [change (Z.of_nat 0) with 0; rewrite deposit_0; reflexivity |].
    rewrite Nat.iter_succ, IH, masked_next_deposit by exact Hm.
    replace (Z.of_nat (Datatypes.S j)) with (Z.of_nat j + 1) by lia. reflexivity. }
  split; [apply Hk |]. rewrite Hk. apply deposit_subset.
Qed.
(** ** More on the reference transcoder *)

Lemma cell_offset_surj (a b : nat) o :
  0 <= o < 2 ^ Z.of_nat a * 2 ^ Z.of_nat b ->
  exists k, 0 <= k < 2 ^ Z.of_nat a * 2 ^ Z.of_nat b /\ cell_offset a b k = o.
Proof.
  clear shl_oob.
  intros Ho. rewrite <- Z.pow_add_r in Ho by lia.
  destruct (interleave_surj a b o Ho) as (x & y & Hx & Hy & E).
  exists (y * 2 ^ Z.of_nat a + x). rewrite cell_offset_row_col by exact Hx.
  split; [nia | exact E].
Qed.

Lemma load_of_nat (l : list Z) (i : nat) : load l (Z.of_nat i) = l !! i.
Proof.
  unfold load. destruct (Z.ltb_spec (Z.of_nat i) 0); [lia |].
  rewrite Nat2Z.id. reflexivity.
Qed.

Lemma for_loop_preserve {S : Type} (P : Z -> S -> Prop) (body : Z -> S -> option S) n :
  forall i s s',
  (forall j t t', i <= j < i + Z.of_nat n -> P j t -> body j t = Some t' -> P (j + 1) t') ->
  P i s -> for_loop n i body s = Some s' -> P (i + Z.of_nat n) s'.
Proof.
  induction n as [| n IH]; intros i s s' Hstep Hs E.
  - simpl in E. injection E as <-. rewrite Z.add_0_r. exact Hs.
  - simpl in E. destruct (body i s) as [s1 |] eqn:E1; [| discriminate].
    replace (i + Z.of_nat (Datatypes.S n)) with (i + 1 + Z.of_nat n) by lia.
    apply (IH (i + 1) s1 s'); [| | exact E].
    + intros j t t' Hj. apply Hstep. lia.
    + apply (Hstep i s s1); [lia | exact Hs | exact E1].
Qed.

(** The reference transcoder on buffers that may be longer than the
    surface. *)
Lemma slowSwizzle_frame (a b : nat) (src dst : list Z) (swap : bool) :
  (a <= 15)%nat -> (b <= 15)%nat ->
  2 ^ Z.of_nat a * 2 ^ Z.of_nat b <= Z.of_nat (length src) ->
  2 ^ Z.of_nat a * 2 ^ Z.of_nat b <= Z.of_nat (length dst) ->
  exists d',
    slowSwizzle src dst (2 ^ Z.of_nat a) (2 ^ Z.of_nat b) swap = Some d' /\
    length d' = length dst /\
    (forall k, 0 <= k < 2 ^ Z.of_nat a * 2 ^ Z.of_nat b ->
       if swap then load d' (cell_offset a b k) = load src k
       else load d' k = load src (cell_offset a b k)) /\
    (forall j, 2 ^ Z.of_nat a * 2 ^ Z.of_nat b <= j -> load d' j = load dst j).
Proof.
  intros Ha Hb Hsrc Hdst.
  pose proof (pow2_le_dim a Ha) as Hw. pose proof (pow2_le_dim b Hb) as Hh.
  pose proof (cell_offset_bound a b) as Hcb.
  pose proof (cell_offset_inj a b) as Hci.
  pose proof (cell_offset_row_col a b) as Hrc.
  unfold slowSwizzle, log2_trunc. rewrite !Z.log2_pow2 by lia.
  set (w := 2 ^ Z.of_nat a) in *. set (h := 2 ^ Z.of_nat b) in *.
  set (Q := fun (k : Z) (d : list Z) =>
              length d = length dst /\
              (forall j, 0 <= j < k ->
                 if swap then load d (cell_offset a b j) = load src j
                 else load d j = load src (cell_offset a b j)) /\
              (forall j, w * h <= j -> load d j = load dst j)).
  match goal with
  | |- exists d', for_lt _ ?F _ = _ /\ _ =>
      destruct (for_lt_inv (fun y d => Q (y * w) d) F h dst) as (d' & E & HQ)
  end.
  - lia.
  - split; [reflexivity |]. split; [intros j Hj; lia | reflexivity].
  - intros y d Hy HQ. cbv beta.
    match goal with
    | |- exists d', for_lt _ ?F _ = _ /\ _ =>
        destruct (for_lt_inv (fun x d => Q (y * w + x) d) F w d) as (d2 & E & HQ')
    end.
    + lia.
    + rewrite Z.add_0_r. exact HQ.
    + clear d HQ. intros x d Hx (Hlen & HQ & Hfr). cbv beta.
      assert (Hk : 0 <= y * w + x < w * h) by nia.
      rewrite linear_to_swizzle_interleave, !Nat2Z.id by lia.
      rewrite <- Hrc by lia. fold w.
      rewrite !wrap32_small
        by (change (2 ^ 32) with 4294967296; try rewrite wrap32_small; nia).
      set (k := y * w + x) in *.
      specialize (Hcb k).
      unfold Q. destruct swap.
      * destruct (load_in src k ltac:(lia)) as [v Hv]. rewrite Hv.
        rewrite store_in by lia. eexists. split; [reflexivity |].
        split; [rewrite length_insert; exact Hlen |]. split.
        -- intros j Hj. destruct (Z.eq_dec j k) as [-> | Hne].
           ++ rewrite Hv. eapply load_store_eq. apply store_in. lia.
           ++ rewrite <- HQ by lia.
              eapply load_store_ne; [apply store_in; lia |].
              intros Heq. apply Hne. apply Hci; [lia | lia | exact Heq].
        -- intros j Hj. rewrite <- Hfr by exact Hj.
           eapply load_store_ne; [apply store_in; lia | lia].
      * destruct (load_in src (cell_offset a b k) ltac:(lia)) as [v Hv]. rewrite Hv.
        rewrite store_in by lia. eexists. split; [reflexivity |].
        split; [rewrite length_insert; exact Hlen |]. split.
        -- intros j Hj. destruct (Z.eq_dec j k) as [-> | Hne].
           ++ rewrite Hv. eapply load_store_eq. apply store_in. lia.
           ++ rewrite <- HQ by lia.
              eapply load_store_ne; [apply store_in; lia | exact Hne].
        -- intros j Hj. rewrite <- Hfr by exact Hj.
           eapply load_store_ne; [apply store_in; lia | lia].
    + exists d2. split; [exact E |].
      replace ((y + 1) * w) with (y * w + w) by lia. exact HQ'.
  - exists d'. split; [exact E |]. destruct HQ as (Hlen & HQ & Hfr).
    split; [exact Hlen |]. split; [| exact Hfr]. intros k Hk. apply HQ. lia.
Qed.

Lemma slow_result_unique (a b : nat) (src out out' : list Z) (swap : bool) :
  length out = length out' ->
  Z.of_nat (length out) = 2 ^ Z.of_nat a * 2 ^ Z.of_nat b ->
  (forall k, 0 <= k < 2 ^ Z.of_nat a * 2 ^ Z.of_nat b ->
     if swap then load out (cell_offset a b k) = load src k
     else load out k = load src (cell_offset a b k)) ->
  (forall k, 0 <= k < 2 ^ Z.of_nat a * 2 ^ Z.of_nat b ->
     if swap then load out' (cell_offset a b k) = load src k
     else load out' k = load src (cell_offset a b k)) ->
  out = out'.
Proof.
  clear shl_oob.
  intros Hlen Hn S1 S2. apply load_ext; [exact Hlen |].
  intros o Ho. rewrite Hn in Ho. destruct swap.
  - destruct (cell_offset_surj a b o Ho) as (k & Hk & <-).
    rewrite (S1 k Hk), (S2 k Hk). reflexivity.
  - rewrite (S1 o Ho), (S2 o Ho). reflexivity.
Qed.

Lemma slow_permutation (a b : nat) (src dst : list Z) (swap : bool) :
  (a <= 15)%nat -> (b <= 15)%nat ->
  Z.of_nat (length src) = 2 ^ Z.of_nat a * 2 ^ Z.of_nat b ->
  Z.of_nat (length dst) = 2 ^ Z.of_nat a * 2 ^ Z.of_nat b ->
  exists out,
    slowSwizzle src dst (2 ^ Z.of_nat a) (2 ^ Z.of_nat b) swap = Some out /\
    Permutation out src.
Proof.
  intros Ha Hb Hs Hd.
  destruct (slowSwizzle_spec a b src dst swap Ha Hb Hs Hd) as (out & E & L & S).
  exists out. split; [exact E |].
  set (n := 2 ^ Z.of_nat a * 2 ^ Z.of_nat b) in *.
  set (f := fun i : nat =>
              if Z.of_nat i <? n then Z.to_nat (cell_offset a b (Z.of_nat i)) else i).
  assert (Hf : Inj (=) (=) f).
  { intros i j. unfold f.
    pose proof (cell_offset_bound a b (Z.of_nat i)) as Bi.
    pose proof (cell_offset_bound a b (Z.of_nat j)) as Bj. fold n in Bi, Bj.
    destruct (Z.ltb_spec (Z.of_nat i) n), (Z.ltb_spec (Z.of_nat j) n); intros Eij;
      try lia.
    apply Nat2Z.inj. apply (cell_offset_inj a b); fold n; lia. }
  assert (Hout : forall l : list Z, Z.of_nat (length l) = n ->
            forall i : nat, ~ Z.of_nat i < n -> l !! i = None)
    by (intros l Hl i Hi; apply lookup_ge_None; lia).
  destruct swap.
  - symmetry. apply Permutation_inj. split; [lia |].
    exists f. split; [exact Hf |]. intros i. unfold f.
    destruct (Z.ltb_spec (Z.of_nat i) n) as [Hi | Hi].
    + specialize (S (Z.of_nat i) ltac:(lia)).
      pose proof (cell_offset_bound a b (Z.of_nat i)) as Bi.
      rewrite <- (Z2Nat.id (cell_offset a b (Z.of_nat i))) in S by lia.
      rewrite !load_of_nat in S. symmetry. exact S.
    + rewrite !Hout by lia. reflexivity.
  - apply Permutation_inj. split; [lia |].
    exists f. split; [exact Hf |]. intros i. unfold f.
    destruct (Z.ltb_spec (Z.of_nat i) n) as [Hi | Hi].
    + specialize (S (Z.of_nat i) ltac:(lia)).
      pose proof (cell_offset_bound a b (Z.of_nat i)) as Bi.
      rewrite <- (Z2Nat.id (cell_offset a b (Z.of_nat i))) in S by lia.
      rewrite !load_of_nat in S. exact S.
    + rewrite !Hout by lia. reflexivity.
Qed.
Lemma slow_short_buffer (a b : nat) (src dst : list Z) (swap : bool) :
  (a <= 15)%nat -> (b <= 15)%nat ->
  Z.of_nat (length src) < 2 ^ Z.of_nat a * 2 ^ Z.of_nat b \/
  Z.of_nat (length dst) < 2 ^ Z.of_nat a * 2 ^ Z.of_nat b ->
  slowSwizzle src dst (2 ^ Z.of_nat a) (2 ^ Z.of_nat b) swap = None.
Proof.
  intros Ha Hb Hshort.
  pose proof (pow2_le_dim a Ha) as Hw. pose proof (pow2_le_dim b Hb) as Hh.
  pose proof (cell_offset_bound a b) as Hcb.
  pose proof (cell_offset_row_col a b) as Hrc.
  pose proof (cell_offset_surj a b) as Hsurj.
  set (w := 2 ^ Z.of_nat a) in *. set (h := 2 ^ Z.of_nat b) in *.
  (* a cell whose copy leaves the buffers *)
  assert (Hcell : exists k0, 0 <= k0 < w * h /\
            forall d v, length d = length dst ->
              if swap
              then load src k0 = None \/ store d (cell_offset a b k0) v = None
              else load src (cell_offset a b k0) = None \/ store d k0 v = None).
  { assert (Hn : 0 <= w * h - 1 < w * h) by nia.
    destruct (Hsurj (w * h - 1) Hn) as (ks & Hks & Eks).
    destruct swap, Hshort as [Hs | Hd].
    - exists (w * h - 1). split; [exact Hn |]. intros d v _. left.
      apply load_out. lia.
    - exists ks. split; [exact Hks |]. intros d v Hl. right.
      apply store_out. rewrite Eks, Hl. lia.
    - exists ks. split; [exact Hks |]. intros d v _. left.
      apply load_out. rewrite Eks. lia.
    - exists (w * h - 1). split; [exact Hn |]. intros d v Hl. right.
      apply store_out. rewrite Hl. lia. }
  destruct Hcell as (k0 & Hk0 & Hfail).
  assert (Hy0 : 0 <= k0 / w < h)
    by (split; [apply Z.div_pos; lia | apply Z.div_lt_upper_bound; lia]).
  pose proof (Z.mod_pos_bound k0 w ltac:(lia)) as Hx0.
  pose proof (Z.div_mod k0 w ltac:(lia)) as Hdm.
  assert (Lw : Z.log2 w = Z.of_nat a) by (unfold w; apply Z.log2_pow2; lia).
  assert (Lh : Z.log2 h = Z.of_nat b) by (unfold h; apply Z.log2_pow2; lia).
  unfold slowSwizzle, log2_trunc. cbv zeta. rewrite Lw, Lh.
  assert (Hlen : forall x y (d d' : list Z),
            (if swap
             then let? o := linear_to_swizzle x y 0 (Z.of_nat a) (Z.of_nat b) 0 in
                  let? v := load src (wrap32 (wrap32 (y * w) + x)) in store d o v
             else let? o := linear_to_swizzle x y 0 (Z.of_nat a) (Z.of_nat b) 0 in
                  let? v := load src o in store d (wrap32 (wrap32 (y * w) + x)) v)
            = Some d' -> length d' = length d).
  { intros x y d d' E.
    destruct swap;
      destruct (linear_to_swizzle x y 0 (Z.of_nat a) (Z.of_nat b) 0) as [o |];
      try discriminate E.
    - destruct (load src (wrap32 (wrap32 (y * w) + x))) as [v |];
        [| discriminate E].
      revert E. apply store_length.
    - destruct (load src o) as [v |]; [| discriminate E].
      revert E. apply store_length. }
  unfold for_lt at 1.
  apply (for_loop_none (fun (_ : Z) (d : list Z) => length d = length dst)
           _ _ 0 dst (k0 / w)).
  - reflexivity.
  - lia.
  - intros y d d' Hy Hd E. cbv beta in E. rewrite <- Hd.
    apply (for_loop_preserve (fun (_ : Z) (t : list Z) => length t = length d)
             _ _ 0 d d') in E; [exact E | | reflexivity].
    intros x t t' _ Ht Et. cbv beta in Et. rewrite <- Ht.
    apply (Hlen x y). exact Et.
  - intros d Hd. cbv beta. unfold for_lt.
    apply (for_loop_none (fun (_ : Z) (t : list Z) => length t = length dst)
             _ _ 0 d (k0 mod w)).
    + exact Hd.
    + lia.
    + intros x t t' _ Ht Et. cbv beta in Et. rewrite <- Ht.
      apply (Hlen x (k0 / w)). exact Et.
    + intros t Ht. cbv beta.
      rewrite linear_to_swizzle_interleave, !Nat2Z.id by lia.
      rewrite <- Hrc by (fold w; lia). fold w.
      rewrite !wrap32_small
        by (change (2 ^ 32) with 4294967296; try rewrite wrap32_small; nia).
      replace (k0 / w * w + k0 mod w) with k0 by lia.
      destruct swap.
      * destruct (load src k0) as [v |] eqn:El; [| reflexivity].
        destruct (Hfail t v Ht) as [Hl | Hst]; [congruence | exact Hst].
      * destruct (load src (cell_offset a b k0)) as [v |] eqn:El; [| reflexivity].
        destruct (Hfail t v Ht) as [Hl | Hst]; [congruence | exact Hst].
Qed.
(** X6. On power-of-two dimensions that fit [u16] and buffers of
    [width * height] elements, the destination the reference transcoder
    leaves is a permutation of the source, in either direction; the fast
    transcoder leaves the same when the smaller dimension is at most 4096. *)
Theorem X6_transcoders_permute (width height : Z) (src dst : list Z) (swap : bool) :
  pow2_dim width = true -> pow2_dim height = true ->
  Z.of_nat (length src) = width * height ->
  Z.of_nat (length dst) = width * height ->
  exists out,
    slowSwizzle src dst width height swap = Some out /\
    Permutation out src /\
    (Z.min width height <= 4096 ->
     fastSwizzle src dst width height swap = Some out).
Proof.
  intros Hw Hh Hs Hd.
  destruct (pow2_dim_exp width Hw) as (a & Ha & -> & _).
  destruct (pow2_dim_exp height Hh) as (b & Hb & -> & _).
  destruct (slow_permutation a b src dst swap Ha Hb Hs Hd) as (out & E & HP).
  exists out. split; [exact E |]. split; [exact HP |].
  intros Hmin. rewrite fast_eq_slow by (try apply min_dim_exp; assumption). exact E.
Qed.

(** X7. On buffers of [width * height] elements the reference transcoder
    overwrites the whole destination: what the destination held before has no
    influence on the result, in either direction. *)
Theorem X7_destination_overwritten (width height : Z) (src dst dst' : list Z)
    (swap : bool) :
  pow2_dim width = true -> pow2_dim height = true ->
  Z.of_nat (length src) = width * height ->
  Z.of_nat (length dst) = width * height ->
  Z.of_nat (length dst') = width * height ->
  exists out,
    slowSwizzle src dst width height swap = Some out /\
    slowSwizzle src dst' width height swap = Some out.
Proof.
  intros Hw Hh Hs Hd Hd'.
  destruct (pow2_dim_exp width Hw) as (a & Ha & -> & _).
  destruct (pow2_dim_exp height Hh) as (b & Hb & -> & _).
  destruct (slowSwizzle_spec a b src dst swap Ha Hb Hs Hd) as (out & E & L & S).
  destruct (slowSwizzle_spec a b src dst' swap Ha Hb Hs Hd') as (out' & E' & L' & S').
  exists out. split; [exact E |]. rewrite E'. f_equal.
  apply (slow_result_unique a b src out' out swap); [lia | lia | exact S' | exact S].
Qed.

(** X8. Buffers may be longer than the surface: the reference transcoder
    then still yields a result of the destination's length, and leaves every
    destination element from index [width * height] on as it was. *)
Theorem X8_reference_leaves_tail (width height : Z) (src dst : list Z) (swap : bool) :
  pow2_dim width = true -> pow2_dim height = true ->
  width * height <= Z.of_nat (length src) ->
  width * height <= Z.of_nat (length dst) ->
  exists out,
    slowSwizzle src dst width height swap = Some out /\
    length out = length dst /\
    forall j, width * height <= j -> load out j = load dst j.
Proof.
  intros Hw Hh Hs Hd.
  destruct (pow2_dim_exp width Hw) as (a & Ha & -> & _).
  destruct (pow2_dim_exp height Hh) as (b & Hb & -> & _).
  destruct (slowSwizzle_frame a b src dst swap Ha Hb Hs Hd) as (out & E & L & _ & F).
  exists out. auto.
Qed.

(** X9. The two directions also undo each other in the other order: a
    transcode with [swap = false] followed by one with [swap = true], each by
    either transcoder, gives back the source buffer (power-of-two dimensions
    that fit [u16], the smaller at most 4096, buffers of [width * height]
    elements). *)
Theorem X9_round_trip_deswizzle_first (width height : Z) (src dst0 dst1 : list Z)
    (first_fast second_fast : bool) :
  pow2_dim width = true -> pow2_dim height = true ->
  Z.min width height <= 4096 ->
  Z.of_nat (length src) = width * height ->
  Z.of_nat (length dst0) = width * height ->
  Z.of_nat (length dst1) = width * height ->
  exists mid,
    run_transcoder first_fast src dst0 width height false = Some mid /\
    run_transcoder second_fast mid dst1 width height true = Some src.
Proof.
  intros Hw Hh Hmin Hs H0 H1.
  destruct (pow2_dim_exp width Hw) as (a & Ha & -> & _).
  destruct (pow2_dim_exp height Hh) as (b & Hb & -> & _).
  pose proof (min_dim_exp a b Hmin) as Hm.
  destruct (slowSwizzle_spec a b src dst0 false Ha Hb Hs H0) as (mid & E1 & L1 & S1).
  destruct (slowSwizzle_spec a b mid dst1 true Ha Hb ltac:(lia) H1)
    as (out & E2 & L2 & S2).
  assert (Eout : out = src).
  { apply load_ext; [lia |]. intros o Ho. rewrite L2, H1 in Ho.
    destruct (cell_offset_surj a b o Ho) as (k & Hk & <-).
    rewrite (S2 k Hk), (S1 k Hk). reflexivity. }
  subst out. exists mid. unfold run_transcoder.
  destruct first_fast, second_fast; rewrite ?fast_eq_slow by assumption; auto.
Qed.

(** X10. The transcoders do not check the buffers: when the source or the
    destination has fewer than [width * height] elements, the reference
    transcoder accesses an element outside it, and so does the fast one
    (smaller dimension at most 4096). *)
Theorem X10_short_buffer_out_of_bounds (width height : Z) (src dst : list Z)
    (swap : bool) :
  pow2_dim width = true -> pow2_dim height = true ->
  Z.of_nat (length src) < width * height \/ Z.of_nat (length dst) < width * height ->
  slowSwizzle src dst width height swap = None /\
  (Z.min width height <= 4096 -> fastSwizzle src dst width height swap = None).
Proof.
  intros Hw Hh Hshort.
  destruct (pow2_dim_exp width Hw) as (a & Ha & -> & _).
  destruct (pow2_dim_exp height Hh) as (b & Hb & -> & _).
  pose proof (slow_short_buffer a b src dst swap Ha Hb Hshort) as E.
  split; [exact E |]. intros Hmin.
  rewrite fast_eq_slow by (try apply min_dim_exp; assumption). exact E.
Qed.
(** ** The masks of the fast transcoder *)

Lemma fast_masks_disjoint (a b : nat) :
  (a <= 15)%nat -> (b <= 15)%nat ->
  let '(x_mask, y_mask, y_incr) := fast_masks (2 ^ Z.of_nat a) (2 ^ Z.of_nat b) in
  Z.land x_mask y_mask = 0 /\ 0 <= x_mask < 2 ^ 32 /\ 0 <= y_mask < 2 ^ 32.
Proof.
  intros Ha Hb.
  do 16 (destruct a as [| a];
         [do 16 (destruct b as [| b];
                 [vm_compute; repeat split; congruence |]); lia |]).
  lia.
Qed.

Lemma fast_masks_cover (a b : nat) :
  (a <= 15)%nat -> (b <= 15)%nat -> (Nat.min a b <= 12)%nat ->
  let '(x_mask, y_mask, y_incr) := fast_masks (2 ^ Z.of_nat a) (2 ^ Z.of_nat b) in
  Z.lor x_mask y_mask = 2 ^ 32 - 1 /\
  y_incr = Z.min (2 ^ Z.of_nat a) (2 ^ Z.of_nat b) * Z.min (2 ^ Z.of_nat a) (2 ^ Z.of_nat b).
Proof.
  intros Ha Hb Hm.
  rewrite (fast_masks_pow2 (Z.of_nat a) (Z.of_nat b) (Nat.min a b))
    by (rewrite ?Nat2Z.inj_min; lia).
  replace (Z.min (2 ^ Z.of_nat a) (2 ^ Z.of_nat b)) with (2 ^ Z.of_nat (Nat.min a b)).
  - clear Ha Hb. set (m := Nat.min a b) in *. clearbody m.
    do 13 (destruct m as [| m]; [vm_compute; split; reflexivity |]). lia.
  - destruct (Nat.min_spec a b) as [[Hlt ->] | [Hle ->]].
    + rewrite Z.min_l; [reflexivity | apply Z.pow_le_mono_r; lia].
    + rewrite Z.min_r; [reflexivity | apply Z.pow_le_mono_r; lia].
Qed.

(** X11. For power-of-two dimensions that fit [u16] the two masks of
    [fastSwizzle] never share a bit; when the smaller dimension is at most
    4096 they make up all 32 bits between them, and [y_incr] is the square of
    the smaller dimension. *)
Theorem X11_fast_masks_partition (width height : Z) :
  pow2_dim width = true -> pow2_dim height = true ->
  let '(x_mask, y_mask, y_incr) := fast_masks width height in
  Z.land x_mask y_mask = 0 /\
  0 <= x_mask < 2 ^ 32 /\ 0 <= y_mask < 2 ^ 32 /\
  (Z.min width height <= 4096 ->
   Z.lor x_mask y_mask = 2 ^ 32 - 1 /\
   y_incr = Z.min width height * Z.min width height).
Proof.
  intros Hw Hh.
  destruct (pow2_dim_exp width Hw) as (a & Ha & -> & _).
  destruct (pow2_dim_exp height Hh) as (b & Hb & -> & _).
  pose proof (fast_masks_disjoint a b Ha Hb) as Hd.
  pose proof (fast_masks_cover a b Ha Hb) as Hc.
  destruct (fast_masks (2 ^ Z.of_nat a) (2 ^ Z.of_nat b)) as [[xm ym] yi].
  destruct Hd as (H1 & H2 & H3). repeat (split; [assumption |]).
  intros Hmin. apply Hc. apply min_dim_exp. exact Hmin.
Qed.

(** X12. The bound 4096 is sharp: for power-of-two dimensions that fit
    [u16] and are both larger than 4096, the fast transcoder looks for column
    4096 of the first row at the square of the smaller dimension, which is
    beyond [2^24], where [linear_to_swizzle] puts it. *)
Theorem X12_fast_bound_is_sharp (width height : Z) :
  pow2_dim width = true -> pow2_dim height = true ->
  4096 < Z.min width height ->
  fast_offset width height (Z.to_nat 4096) 0 = Z.min width height * Z.min width height /\
  linear_to_swizzle 4096 0 0 (log2_trunc width) (log2_trunc height) 0 = Some (2 ^ 24) /\
  2 ^ 24 < Z.min width height * Z.min width height.
Proof.
  intros Hw Hh Hmin.
  destruct (pow2_dim_exp width Hw) as (a & Ha & -> & ->).
  destruct (pow2_dim_exp height Hh) as (b & Hb & -> & ->).
  assert (Ha' : (13 <= a)%nat /\ (13 <= b)%nat).
  { change 4096 with (2 ^ 12) in Hmin.
    assert (2 ^ 12 < 2 ^ Z.of_nat a) by lia. assert (2 ^ 12 < 2 ^ Z.of_nat b) by lia.
    split; apply Nat2Z.inj_le; change (Z.of_nat 13) with (Z.succ 12);
      apply Z.le_succ_l; apply (Z.pow_lt_mono_r_iff 2); lia. }
  destruct Ha' as [Ha' Hb'].
  do 13 (destruct a as [| a]; [lia |]). do 13 (destruct b as [| b]; [lia |]).
  do 3 (destruct a as [| a];
        [do 3 (destruct b as [| b]; [vm_compute; split; [reflexivity | split; reflexivity] |]); lia |]).
  lia.
Qed.
(** ** The benchmark: reports and comparison *)

Lemma concat_replicate_snoc {A : Type} (k : nat) (r : list A) :
  concat (replicate k r) ++ r = concat (replicate (Datatypes.S k) r).
Proof.
  induction k as [| k IH]; simpl; [rewrite app_nil_r; reflexivity |].
  rewrite <- app_assoc, IH. reflexivity.
Qed.

(** X13. With [slowSwizzle] and [fastSwizzle], whatever the three arrays
    hold when allocated, [main] runs its four passes without reporting a
    mismatch and exits with status 0. *)
Theorem X13_main_reports_nothing (linear0 slow0 fast0 : list Z) :
  length linear0 = Z.to_nat 16384 -> length slow0 = Z.to_nat 16384 ->
  length fast0 = Z.to_nat 16384 ->
  main linear0 slow0 fast0 = Some ([CoutTimes; SystemPause], 0).
Proof. apply main_reports_no_mismatch. Qed.

(** X14. Whatever the two transcoders do, a run of the benchmark that
    completes emits nothing but mismatch reports, at most four of them (one
    per pass), then the timing lines and the pause, and exits with status
    0. *)
Theorem X14_main_trace_shape (slow fast : transcoder) (linear0 slow0 fast0 : list Z)
    (tr : list event) (code : Z) :
  main_with slow fast linear0 slow0 fast0 = Some (tr, code) ->
  code = 0 /\
  exists k : nat, (k <= 4)%nat /\
    tr = concat (replicate k mismatch_report) ++ [CoutTimes; SystemPause].
Proof.
  unfold main_with.
  destruct (for_lt (128 * 128) _ linear0) as [l |]; [| discriminate].
  destruct (for_lt 4 _ _) as [[[sp fp] out] |] eqn:E; [| discriminate].
  intros [= <- <-]. split; [reflexivity |].
  unfold for_lt in E.
  apply (for_loop_preserve
           (fun (j : Z) (st : list Z * list Z * list event) =>
              exists k : nat, Z.of_nat k <= j /\
                snd st = concat (replicate k mismatch_report))) in E.
  - destruct E as (k & Hk & Ek). cbn [snd] in Ek. exists k.
    split; [lia |]. rewrite Ek. reflexivity.
  - intros j [[sp1 fp1] out1] [[sp2 fp2] out2] Hj (k & Hk & Ek) Eit.
    cbn [snd] in *.
    destruct (bench_iteration_report _ _ _ _ _ _ _ _ _ _ _ Eit) as (differ & _ & ->).
    destruct differ.
    + exists (Datatypes.S k). split; [lia |]. rewrite Ek.
      apply (concat_replicate_snoc k mismatch_report).
    + exists k. split; [lia | exact Ek].
  - exists 0%nat. split; [lia | reflexivity].
Qed.

Lemma u32s_of_bytes_cons v bs :
  is_u32 v -> u32s_of_bytes (bytes_of_u32 v ++ bs) = v :: u32s_of_bytes bs.
Proof.
  clear shl_oob.
  unfold is_u32. intros Hv. unfold bytes_of_u32. cbn [app u32s_of_bytes]. f_equal.
  change (2 ^ 32) with 4294967296 in Hv.
  change (2 ^ 8) with 256. change (2 ^ 16) with 65536. change (2 ^ 24) with 16777216.
  assert (v / 16777216 < 256) by (apply Z.div_lt_upper_bound; lia).
  assert (0 <= v / 16777216) by (apply Z.div_pos; lia).
  rewrite (Z.mod_small (v / 16777216)) by lia.
  Z.div_mod_to_equations. lia.
Qed.

Lemma u32s_of_buffer_bytes (l : list Z) :
  Forall is_u32 l -> u32s_of_bytes (buffer_bytes l) = l.
Proof.
  clear shl_oob.
  unfold buffer_bytes. induction 1 as [| v l Hv Hl IH]; [reflexivity |].
  cbn [flat_map]. rewrite u32s_of_bytes_cons, IH by exact Hv. reflexivity.
Qed.

Lemma bytes_cmp_eq (a : list Z) : forall b,
  length a = length b -> bytes_cmp a b = 0 -> a = b.
Proof.
  induction a as [| x a IH]; intros [| y b] Hlen Hc; try discriminate; [reflexivity |].
  cbn [bytes_cmp] in Hc. destruct (Z.eqb_spec x y) as [-> | Hne]; [| lia].
  f_equal. apply IH; [simpl in Hlen; lia | exact Hc].
Qed.

(** X15. The comparison of the benchmark loop, called with a byte count
    [max_h * max_w = 4 * q], reports a difference exactly when the two
    outputs differ within their first [q] elements (buffers of [u32] values
    with at least [q] elements): elements from index [q] on are never
    looked at. *)
Theorem X15_comparison_sees_first_quarter (a b : list Z) (max_w max_h : Z) (q : nat) :
  max_h * max_w = 4 * Z.of_nat q ->
  (q <= length a)%nat -> (q <= length b)%nat ->
  Forall is_u32 a -> Forall is_u32 b ->
  exists differ,
    outputs_differ a b max_w max_h = Some differ /\
    (differ = false <-> take q a = take q b).
Proof.
  clear shl_oob.
  intros Hn Ha Hb Ua Ub. unfold outputs_differ, memcmp. rewrite Hn.
  destruct (Z.leb_spec 0 (4 * Z.of_nat q)); [| lia].
  destruct (Z.leb_spec (4 * Z.of_nat q) (4 * Z.of_nat (length a))); [| lia].
  destruct (Z.leb_spec (4 * Z.of_nat q) (4 * Z.of_nat (length b))); [| lia].
  cbn [andb].
  replace (Z.to_nat (4 * Z.of_nat q)) with (4 * q)%nat by lia.
  rewrite !take_buffer_bytes.
  eexists. split; [reflexivity |].
  rewrite negb_false_iff, Z.eqb_eq. split.
  - intros Hc. apply bytes_cmp_eq in Hc.
    + rewrite <- (u32s_of_buffer_bytes (take q a)), <- (u32s_of_buffer_bytes (take q b))
        by (apply Forall_take; assumption).
      rewrite Hc. reflexivity.
    + rewrite !buffer_bytes_length, !length_take. lia.
  - intros ->. apply bytes_cmp_refl.
Qed.
Lemma drop_buffer_bytes (k : nat) :
  forall l, drop (4 * k) (buffer_bytes l) = buffer_bytes (drop k l).
Proof.
  unfold buffer_bytes. induction k as [| k IH]; intros l; [reflexivity |].
  destruct l as [| v l]; [reflexivity |].
  replace (4 * Datatypes.S k)%nat
    with (Datatypes.S (Datatypes.S (Datatypes.S (Datatypes.S (4 * k))))) by lia.
  cbn [flat_map]. unfold bytes_of_u32 at 1.
  cbn [app drop skipn]. rewrite IH. reflexivity.
Qed.

Lemma u32s_of_bytes_replicate (q : nat) c bs :
  u32s_of_bytes (replicate (4 * q) c ++ bs)
  = replicate q (c + 2 ^ 8 * c + 2 ^ 16 * c + 2 ^ 24 * c) ++ u32s_of_bytes bs.
Proof.
  induction q as [| q IH]; [reflexivity |].
  replace (4 * Datatypes.S q)%nat
    with (Datatypes.S (Datatypes.S (Datatypes.S (Datatypes.S (4 * q))))) by lia.
  cbn [replicate app u32s_of_bytes]. rewrite IH. reflexivity.
Qed.

Lemma memset_first_words (buf : list Z) (c : Z) (q : nat) :
  (q <= length buf)%nat -> Forall is_u32 buf ->
  memset buf c (4 * Z.of_nat q)
  = Some (replicate q (c mod 256 * 16843009) ++ drop q buf).
Proof.
  clear shl_oob.
  intros Hq Hu. unfold memset.
  destruct (Z.leb_spec 0 (4 * Z.of_nat q)); [| lia].
  destruct (Z.leb_spec (4 * Z.of_nat q) (4 * Z.of_nat (length buf))); [| lia].
  cbn [andb]. f_equal.
  replace (Z.to_nat (4 * Z.of_nat q)) with (4 * q)%nat by lia.
  rewrite drop_buffer_bytes, u32s_of_bytes_replicate.
  rewrite u32s_of_buffer_bytes by (apply Forall_drop; exact Hu).
  f_equal. f_equal.
  change (2 ^ 8) with 256. change (2 ^ 16) with 65536. change (2 ^ 24) with 16777216.
  lia.
Qed.

(** X16. The [memset] of the benchmark loop, called with a byte count
    [4 * q] on a buffer of [u32] values with at least [q] elements, sets the
    first [q] elements to the byte [c] repeated four times ([0xcccccccc] for
    [0xcc]) and leaves the elements from index [q] on as they were.  So a
    pass of the benchmark loop with [max_w * max_h = 4 * q] hands each
    transcoder a destination whose first [q] elements are [0xcccccccc] and
    whose other elements are what the pass found there. *)
Theorem X16_memset_resets_first_quarter (buf : list Z) (c : Z) (q : nat) :
  (q <= length buf)%nat -> Forall is_u32 buf ->
  memset buf c (4 * Z.of_nat q)
  = Some (replicate q (c mod 256 * 16843009) ++ drop q buf) /\
  forall (slow fast : transcoder) (linearPixels fp : list Z) (out : list event)
         (max_w max_h : Z),
    max_w * max_h = 4 * Z.of_nat q ->
    (q <= length fp)%nat -> Forall is_u32 fp ->
    bench_iteration slow fast linearPixels max_w max_h (buf, fp, out)
    = (let? sp' := slow linearPixels (replicate q 0xcccccccc ++ drop q buf)
                     max_w max_h false in
       let? fp' := fast linearPixels (replicate q 0xcccccccc ++ drop q fp)
                     max_w max_h false in
       let? differ := outputs_differ sp' fp' max_w max_h in
       Some (sp', fp', if differ then out ++ mismatch_report else out)).
Proof.
  clear shl_oob.
  intros Hq Hu. split; [apply memset_first_words; assumption |].
  intros slow fast linearPixels fp out max_w max_h Hn Hq' Hu'.
  unfold bench_iteration. rewrite Hn.
  rewrite !memset_first_words by assumption.
  change (0xcc mod 256 * 16843009) with 0xcccccccc. reflexivity.
Qed.

End Transcoders.

(** * Instances

    The theorems above at concrete inputs, on the shift of an x86 processor,
    and the inputs at which the specification's wording fails. *)


(** The claim C2 as worded fails where the interleaved value needs a 33rd
    bit: bit 16 of [x] belongs at position 32, which a [u32] does not
    have. *)
Lemma C2_counterexample :
  0 <= 65536 < 2 ^ 17 /\ 0 <= 0 < 2 ^ 17 /\
  interleave_spec 65536 0 17 17 = 2 ^ 32 /\
  linear_to_swizzle shl_x86 65536 0 0 17 17 0 = Some 1 /\
  linear_to_swizzle shl_x86 65536 0 0 17 17 0
  <> Some (interleave_spec 65536 0 17 17).
Proof. repeat split; vm_compute; congruence. Qed.

Lemma C2_mapper_interleaves_witness :
  0 <= 2 /\ 0 <= 3 /\ 2 + 3 <= 32 /\ 0 <= 3 < 2 ^ 2 /\ 0 <= 5 < 2 ^ 3 /\
  linear_to_swizzle shl_x86 3 5 0 2 3 0 = Some (interleave_spec 3 5 2 3).
Proof.
  assert (H1 : 0 <= 2) by lia.
  assert (H2 : 0 <= 3) by lia.
  assert (H3 : 2 + 3 <= 32) by lia.
  assert (H4 : 0 <= 3 < 2 ^ 2) by (change (2 ^ 2) with 4; lia).
  assert (H5 : 0 <= 5 < 2 ^ 3) by (change (2 ^ 3) with 8; lia).
  split; [exact H1 |]. split; [exact H2 |]. split; [exact H3 |].
  split; [exact H4 |]. split; [exact H5 |].
  apply (C2_mapper_interleaves shl_x86 3 5 2 3 H1 H2 H3 H4 H5).
Defined.

Lemma C3_mapper_bijection_witness :
  pow2_dim 4 = true /\ pow2_dim 2 = true /\
  exists x y, 0 <= x < 4 /\ 0 <= y < 2 /\
    linear_to_swizzle shl_x86 x y 0 (log2_trunc 4) (log2_trunc 2) 0 = Some 5.
Proof.
  assert (H1 : pow2_dim 4 = true) by reflexivity.
  assert (H2 : pow2_dim 2 = true) by reflexivity.
  split; [exact H1 |]. split; [exact H2 |].
  apply (proj2 (proj2 (C3_mapper_bijection shl_x86 4 2 H1 H2))). lia.
Defined.

(** The claim C4 as worded fails for 8192 x 8192: the fast transcoder
    leaves the buffers at column 4096 of the first row. *)
Lemma C4_counterexample :
  pow2_dim 8192 = true /\
  Z.of_nat (length (replicate (Z.to_nat 67108864) 0)) = 8192 * 8192 /\
  run_transcoder shl_x86 true
    (replicate (Z.to_nat 67108864) 0) (replicate (Z.to_nat 67108864) 0)
    8192 8192 true
  = None.
Proof.
  assert (Hlen : Z.of_nat (length (replicate (Z.to_nat 67108864) 0)) = 67108864)
    by (rewrite length_replicate; apply Z2Nat.id; lia).
  split; [reflexivity |]. split; [exact Hlen |].
  unfold run_transcoder. apply fastSwizzle_8192_out_of_bounds. exact Hlen.
Qed.

Lemma C4_round_trip_witness :
  pow2_dim 4 = true /\ pow2_dim 2 = true /\
  (true || false = true -> Z.min 4 2 <= 4096) /\
  Z.of_nat (length [10; 11; 12; 13; 14; 15; 16; 17]) = 4 * 2 /\
  Z.of_nat (length [0; 0; 0; 0; 0; 0; 0; 0]) = 4 * 2 /\
  exists mid,
    run_transcoder shl_x86 true [10; 11; 12; 13; 14; 15; 16; 17]
      [0; 0; 0; 0; 0; 0; 0; 0] 4 2 true = Some mid /\
    run_transcoder shl_x86 false mid [0; 0; 0; 0; 0; 0; 0; 0] 4 2 false
    = Some [10; 11; 12; 13; 14; 15; 16; 17].
Proof.
  assert (H1 : pow2_dim 4 = true) by reflexivity.
  assert (H2 : pow2_dim 2 = true) by reflexivity.
  assert (H3 : true || false = true -> Z.min 4 2 <= 4096) by (intros _; lia).
  assert (H4 : Z.of_nat (length [10; 11; 12; 13; 14; 15; 16; 17]) = 4 * 2) by reflexivity.
  assert (H5 : Z.of_nat (length [0; 0; 0; 0; 0; 0; 0; 0]) = 4 * 2) by reflexivity.
  split; [exact H1 |]. split; [exact H2 |]. split; [exact H3 |].
  split; [exact H4 |]. split; [exact H5 |].
  apply (C4_round_trip shl_x86 4 2 _ _ _ true false H1 H2 H3 H4 H5 H5).
Defined.

(** The claim C5 as worded fails: the value is 13, not 11. *)
Lemma C5_counterexample :
  linear_to_swizzle shl_x86 3 2 0 2 2 0 = Some 13 /\
  linear_to_swizzle shl_x86 3 2 0 2 2 0 <> Some 11.
Proof. split; vm_compute; congruence. Qed.

(** The example of the claim C6 as worded fails: on the 4 x 4 surface
    holding [0 .. 15], element 11 of the destination is [source[13]]. *)
Lemma C6_counterexample :
  slowSwizzle shl_x86 [0; 1; 2; 3; 4; 5; 6; 7; 8; 9; 10; 11; 12; 13; 14; 15]
    [0; 0; 0; 0; 0; 0; 0; 0; 0; 0; 0; 0; 0; 0; 0; 0] 4 4 false
  = Some [0; 1; 4; 5; 2; 3; 6; 7; 8; 9; 12; 13; 10; 11; 14; 15] /\
  load [0; 1; 4; 5; 2; 3; 6; 7; 8; 9; 12; 13; 10; 11; 14; 15] (2 * 4 + 3) = Some 13 /\
  load [0; 1; 2; 3; 4; 5; 6; 7; 8; 9; 10; 11; 12; 13; 14; 15] 11 = Some 11.
Proof. repeat split; vm_compute; reflexivity. Qed.

Lemma C6_reference_transcoder_witness :
  pow2_dim 4 = true /\
  Z.of_nat (length [0; 1; 2; 3; 4; 5; 6; 7; 8; 9; 10; 11; 12; 13; 14; 15]) = 4 * 4 /\
  Z.of_nat (length [0; 0; 0; 0; 0; 0; 0; 0; 0; 0; 0; 0; 0; 0; 0; 0]) = 4 * 4 /\
  exists out,
    slowSwizzle shl_x86 [0; 1; 2; 3; 4; 5; 6; 7; 8; 9; 10; 11; 12; 13; 14; 15]
      [0; 0; 0; 0; 0; 0; 0; 0; 0; 0; 0; 0; 0; 0; 0; 0] 4 4 false = Some out /\
    load out (2 * 4 + 3)
    = load [0; 1; 2; 3; 4; 5; 6; 7; 8; 9; 10; 11; 12; 13; 14; 15] 13.
Proof.
  assert (H1 : pow2_dim 4 = true) by reflexivity.
  assert (H2 : Z.of_nat (length [0; 1; 2; 3; 4; 5; 6; 7; 8; 9; 10; 11; 12; 13; 14; 15])
               = 4 * 4) by reflexivity.
  assert (H3 : Z.of_nat (length [0; 0; 0; 0; 0; 0; 0; 0; 0; 0; 0; 0; 0; 0; 0; 0])
               = 4 * 4) by reflexivity.
  split; [exact H1 |]. split; [exact H2 |]. split; [exact H3 |].
  destruct (C6_reference_transcoder shl_x86 4 4 _ _ false H1 H1 H2 H3)
    as (out & E & _ & Hex).
  exists out. split; [exact E |]. apply Hex; reflexivity.
Defined.

Lemma C7_degenerate_identity_witness :
  pow2_dim 1 = true /\ pow2_dim 4 = true /\ (1 = 1 \/ 4 = 1) /\
  Z.of_nat (length [5; 6; 7; 8]) = 1 * 4 /\
  Z.of_nat (length [0; 0; 0; 0]) = 1 * 4 /\
  slowSwizzle shl_x86 [5; 6; 7; 8] [0; 0; 0; 0] 1 4 true = Some [5; 6; 7; 8] /\
  fastSwizzle shl_x86 [5; 6; 7; 8] [0; 0; 0; 0] 1 4 true = Some [5; 6; 7; 8].
Proof.
  assert (H1 : pow2_dim 1 = true) by reflexivity.
  assert (H2 : pow2_dim 4 = true) by reflexivity.
  assert (H3 : 1 = 1 \/ 4 = 1) by (left; reflexivity).
  assert (H4 : Z.of_nat (length [5; 6; 7; 8]) = 1 * 4) by reflexivity.
  assert (H5 : Z.of_nat (length [0; 0; 0; 0]) = 1 * 4) by reflexivity.
  split; [exact H1 |]. split; [exact H2 |]. split; [exact H3 |].
  split; [exact H4 |]. split; [exact H5 |].
  apply (C7_degenerate_identity shl_x86 1 4 _ _ true H1 H2 H3 H4 H5).
Defined.

(** The claim C9 as worded fails: with outputs that differ in every pass the
    program reports four times and still exits with status 0. *)
Lemma C9_counterexample :
  main_with keep_destination zero_first
    (replicate (Z.to_nat 16384) 0) (replicate (Z.to_nat 16384) 0)
    (replicate (Z.to_nat 16384) 0)
  = Some ([Printf ("mismatch!" ++ newline); CinInt;
           Printf ("mismatch!" ++ newline); CinInt;
           Printf ("mismatch!" ++ newline); CinInt;
           Printf ("mismatch!" ++ newline); CinInt;
           CoutTimes; SystemPause], 0) /\
  In (Printf ("mismatch!" ++ newline))
     [Printf ("mismatch!" ++ newline); CinInt;
      Printf ("mismatch!" ++ newline); CinInt;
      Printf ("mismatch!" ++ newline); CinInt;
      Printf ("mismatch!" ++ newline); CinInt;
      CoutTimes; SystemPause].
Proof.
  split; [apply main_with_defective_run |]. left. reflexivity.
Qed.

Lemma C9_mismatch_reported_exit_zero_witness :
  main_with keep_destination zero_first
    (replicate (Z.to_nat 16384) 0) (replicate (Z.to_nat 16384) 0)
    (replicate (Z.to_nat 16384) 0)
  = Some (mismatch_report ++ mismatch_report ++ mismatch_report ++ mismatch_report
            ++ [CoutTimes; SystemPause], 0) /\
  exists (linearPixels : list Z) (st : nat -> list Z * list Z * list event)
         (differ : nat -> bool),
    for_lt (128 * 128) (fun i linearPixels => store linearPixels i i)
      (replicate (Z.to_nat 16384) 0)
    = Some linearPixels /\
    st 0%nat = (replicate (Z.to_nat 16384) 0, replicate (Z.to_nat 16384) 0, []) /\
    (forall j : nat, (j < 4)%nat ->
       bench_iteration keep_destination zero_first linearPixels 128 128 (st j)
       = Some (st (Datatypes.S j)) /\
       outputs_differ (fst (fst (st (Datatypes.S j))))
                      (snd (fst (st (Datatypes.S j)))) 128 128
       = Some (differ j) /\
       snd (st (Datatypes.S j))
       = snd (st j) ++ (if differ j then mismatch_report else [])) /\
    mismatch_report ++ mismatch_report ++ mismatch_report ++ mismatch_report
      ++ [CoutTimes; SystemPause]
    = (if differ 0%nat then mismatch_report else [])
      ++ (if differ 1%nat then mismatch_report else [])
      ++ (if differ 2%nat then mismatch_report else [])
      ++ (if differ 3%nat then mismatch_report else [])
      ++ [CoutTimes; SystemPause] /\
    0 = 0.
Proof.
  assert (H1 : main_with keep_destination zero_first
                 (replicate (Z.to_nat 16384) 0) (replicate (Z.to_nat 16384) 0)
                 (replicate (Z.to_nat 16384) 0)
               = Some (mismatch_report ++ mismatch_report ++ mismatch_report
                         ++ mismatch_report ++ [CoutTimes; SystemPause], 0))
    by exact main_with_defective_run.
  split; [exact H1 |].
  apply (C9_mismatch_reported_exit_zero keep_destination zero_first _ _ _ _ _ H1).
Defined.

Lemma C10_mapper_low_bits_only_witness :
  0 <= 2 < 2 ^ 32 /\ 0 <= 3 < 2 ^ 32 /\
  7 mod 2 ^ 2 = 3 mod 2 ^ 2 /\ 9 mod 2 ^ 3 = 1 mod 2 ^ 3 /\
  exists o,
    linear_to_swizzle shl_x86 7 9 0 2 3 0 = Some o /\
    linear_to_swizzle shl_x86 3 1 0 2 3 0 = Some o /\
    linear_to_swizzle shl_x86 (7 mod 2 ^ 2) (9 mod 2 ^ 3) 0 2 3 0 = Some o /\
    0 <= o < 2 ^ (2 + 3).
Proof.
  assert (H1 : 0 <= 2 < 2 ^ 32) by (change (2 ^ 32) with 4294967296; lia).
  assert (H2 : 0 <= 3 < 2 ^ 32) by (change (2 ^ 32) with 4294967296; lia).
  assert (H3 : 7 mod 2 ^ 2 = 3 mod 2 ^ 2) by reflexivity.
  assert (H4 : 9 mod 2 ^ 3 = 1 mod 2 ^ 3) by reflexivity.
  split; [exact H1 |]. split; [exact H2 |]. split; [exact H3 |]. split; [exact H4 |].
  apply (C10_mapper_low_bits_only shl_x86 7 9 3 1 2 3 H1 H2 H3 H4).
Defined.
(** ** Instances of the further properties *)

Lemma X1_mapper_three_axes_low_bits_witness :
  0 <= 2 < 2 ^ 32 /\ 0 <= 3 < 2 ^ 32 /\ 0 <= 1 < 2 ^ 32 /\
  7 mod 2 ^ 2 = 3 mod 2 ^ 2 /\ 9 mod 2 ^ 3 = 1 mod 2 ^ 3 /\ 5 mod 2 ^ 1 = 1 mod 2 ^ 1 /\
  exists o,
    linear_to_swizzle shl_x86 7 9 5 2 3 1 = Some o /\
    linear_to_swizzle shl_x86 3 1 1 2 3 1 = Some o /\
    0 <= o < 2 ^ 32 /\ o < 2 ^ (2 + 3 + 1).
Proof.
  assert (H1 : 0 <= 2 < 2 ^ 32) by (change (2 ^ 32) with 4294967296; lia).
  assert (H2 : 0 <= 3 < 2 ^ 32) by (change (2 ^ 32) with 4294967296; lia).
  assert (H3 : 0 <= 1 < 2 ^ 32) by (change (2 ^ 32) with 4294967296; lia).
  assert (H4 : 7 mod 2 ^ 2 = 3 mod 2 ^ 2) by reflexivity.
  assert (H5 : 9 mod 2 ^ 3 = 1 mod 2 ^ 3) by reflexivity.
  assert (H6 : 5 mod 2 ^ 1 = 1 mod 2 ^ 1) by reflexivity.
  split; [exact H1 |]. split; [exact H2 |]. split; [exact H3 |].
  split; [exact H4 |]. split; [exact H5 |]. split; [exact H6 |].
  apply (X1_mapper_three_axes_low_bits shl_x86 7 9 5 3 1 1 2 3 1 H1 H2 H3 H4 H5 H6).
Defined.

Lemma X2_mapper_three_axes_bijection_witness :
  0 <= 1 /\ 0 <= 2 /\ 0 <= 1 /\ 1 + 2 + 1 <= 32 /\
  exists x y z,
    0 <= x < 2 ^ 1 /\ 0 <= y < 2 ^ 2 /\ 0 <= z < 2 ^ 1 /\
    linear_to_swizzle shl_x86 x y z 1 2 1 = Some 11.
Proof.
  assert (H1 : 0 <= 1) by lia.
  assert (H2 : 0 <= 2) by lia.
  assert (H4 : 1 + 2 + 1 <= 32) by lia.
  split; [exact H1 |]. split; [exact H2 |]. split; [exact H1 |]. split; [exact H4 |].
  apply (proj2 (proj2 (X2_mapper_three_axes_bijection shl_x86 1 2 1 H1 H2 H1 H4))).
  change (2 ^ (1 + 2 + 1)) with 16. lia.
Defined.

Lemma X3_mapper_bit_positions_witness :
  0 <= 2 /\ 0 <= 2 /\ 0 <= 1 /\ 2 + 2 + 1 <= 32 /\
  linear_to_swizzle shl_x86 3 2 1 2 2 1 = Some 29 /\
  Z.testbit 29 (1 + Z.min 1 2 + Z.min 1 1) = Z.testbit 3 1 /\
  Z.testbit 29 (1 + Z.min (1 + 1) 2 + Z.min 1 1) = Z.testbit 2 1 /\
  Z.testbit 29 (0 + Z.min (0 + 1) 2 + Z.min (0 + 1) 2) = Z.testbit 1 0.
Proof.
  assert (H1 : 0 <= 2) by lia.
  assert (H3 : 0 <= 1) by lia.
  assert (H4 : 2 + 2 + 1 <= 32) by lia.
  assert (H5 : linear_to_swizzle shl_x86 3 2 1 2 2 1 = Some 29) by reflexivity.
  split; [exact H1 |]. split; [exact H1 |]. split; [exact H3 |]. split; [exact H4 |].
  split; [exact H5 |].
  destruct (X3_mapper_bit_positions shl_x86 3 2 1 2 2 1 29 H1 H1 H3 H4 H5)
    as (Hx & Hy & Hz).
  split; [apply Hx; lia |]. split; [apply Hy; lia | apply Hz; lia].
Defined.

Lemma X4_mapper_separates_witness :
  0 <= 2 /\ 0 <= 2 /\ 0 <= 1 /\ 2 + 2 + 1 <= 32 /\
  exists ox oy oz,
    linear_to_swizzle shl_x86 3 0 0 2 2 1 = Some ox /\
    linear_to_swizzle shl_x86 0 2 0 2 2 1 = Some oy /\
    linear_to_swizzle shl_x86 0 0 1 2 2 1 = Some oz /\
    linear_to_swizzle shl_x86 3 2 1 2 2 1 = Some (ox + oy + oz).
Proof.
  assert (H1 : 0 <= 2) by lia.
  assert (H3 : 0 <= 1) by lia.
  assert (H4 : 2 + 2 + 1 <= 32) by lia.
  split; [exact H1 |]. split; [exact H1 |]. split; [exact H3 |]. split; [exact H4 |].
  apply (X4_mapper_separates shl_x86 3 2 1 2 2 1 H1 H1 H3 H4).
Defined.

Lemma X5_masked_subtraction_counts_witness :
  0 <= 5592405 < 2 ^ 32 /\
  masked_next 5592405 (deposit 32 5592405 5) = deposit 32 5592405 (5 + 1) /\
  Nat.iter 3 (masked_next 5592405) 0 = deposit 32 5592405 (Z.of_nat 3) /\
  Z.land (Nat.iter 3 (masked_next 5592405) 0) 5592405
  = Nat.iter 3 (masked_next 5592405) 0.
Proof.
  assert (H1 : 0 <= 5592405 < 2 ^ 32) by (change (2 ^ 32) with 4294967296; lia).
  split; [exact H1 |].
  apply (X5_masked_subtraction_counts 5592405 5 3 H1).
Defined.

Lemma X6_transcoders_permute_witness :
  pow2_dim 4 = true /\ pow2_dim 2 = true /\
  Z.of_nat (length [10; 11; 12; 13; 14; 15; 16; 17]) = 4 * 2 /\
  Z.of_nat (length [0; 0; 0; 0; 0; 0; 0; 0]) = 4 * 2 /\
  exists out,
    slowSwizzle shl_x86 [10; 11; 12; 13; 14; 15; 16; 17] [0; 0; 0; 0; 0; 0; 0; 0]
      4 2 true = Some out /\
    Permutation out [10; 11; 12; 13; 14; 15; 16; 17] /\
    (Z.min 4 2 <= 4096 ->
     fastSwizzle shl_x86 [10; 11; 12; 13; 14; 15; 16; 17] [0; 0; 0; 0; 0; 0; 0; 0]
       4 2 true = Some out).
Proof.
  assert (H1 : pow2_dim 4 = true) by reflexivity.
  assert (H2 : pow2_dim 2 = true) by reflexivity.
  assert (H3 : Z.of_nat (length [10; 11; 12; 13; 14; 15; 16; 17]) = 4 * 2) by reflexivity.
  assert (H4 : Z.of_nat (length [0; 0; 0; 0; 0; 0; 0; 0]) = 4 * 2) by reflexivity.
  split; [exact H1 |]. split; [exact H2 |]. split; [exact H3 |]. split; [exact H4 |].
  apply (X6_transcoders_permute shl_x86 4 2 _ _ true H1 H2 H3 H4).
Defined.

Lemma X7_destination_overwritten_witness :
  pow2_dim 2 = true /\
  Z.of_nat (length [10; 11; 12; 13]) = 2 * 2 /\
  Z.of_nat (length [0; 0; 0; 0]) = 2 * 2 /\
  Z.of_nat (length [7; 7; 7; 7]) = 2 * 2 /\
  exists out,
    slowSwizzle shl_x86 [10; 11; 12; 13] [0; 0; 0; 0] 2 2 true = Some out /\
    slowSwizzle shl_x86 [10; 11; 12; 13] [7; 7; 7; 7] 2 2 true = Some out.
Proof.
  assert (H1 : pow2_dim 2 = true) by reflexivity.
  assert (H2 : Z.of_nat (length [10; 11; 12; 13]) = 2 * 2) by reflexivity.
  assert (H3 : Z.of_nat (length [0; 0; 0; 0]) = 2 * 2) by reflexivity.
  assert (H4 : Z.of_nat (length [7; 7; 7; 7]) = 2 * 2) by reflexivity.
  split; [exact H1 |]. split; [exact H2 |]. split; [exact H3 |]. split; [exact H4 |].
  apply (X7_destination_overwritten shl_x86 2 2 _ _ _ true H1 H1 H2 H3 H4).
Defined.

Lemma X8_reference_leaves_tail_witness :
  pow2_dim 2 = true /\
  2 * 2 <= Z.of_nat (length [10; 11; 12; 13; 14]) /\
  2 * 2 <= Z.of_nat (length [0; 0; 0; 0; 8; 9]) /\
  exists out,
    slowSwizzle shl_x86 [10; 11; 12; 13; 14] [0; 0; 0; 0; 8; 9] 2 2 false = Some out /\
    length out = length [0; 0; 0; 0; 8; 9] /\
    forall j, 2 * 2 <= j -> load out j = load [0; 0; 0; 0; 8; 9] j.
Proof.
  assert (H1 : pow2_dim 2 = true) by reflexivity.
  assert (H2 : 2 * 2 <= Z.of_nat (length [10; 11; 12; 13; 14])) by (simpl; lia).
  assert (H3 : 2 * 2 <= Z.of_nat (length [0; 0; 0; 0; 8; 9])) by (simpl; lia).
  split; [exact H1 |]. split; [exact H2 |]. split; [exact H3 |].
  apply (X8_reference_leaves_tail shl_x86 2 2 _ _ false H1 H1 H2 H3).
Defined.

Lemma X9_round_trip_deswizzle_first_witness :
  pow2_dim 4 = true /\ pow2_dim 2 = true /\ Z.min 4 2 <= 4096 /\
  Z.of_nat (length [10; 11; 12; 13; 14; 15; 16; 17]) = 4 * 2 /\
  Z.of_nat (length [0; 0; 0; 0; 0; 0; 0; 0]) = 4 * 2 /\
  exists mid,
    run_transcoder shl_x86 false [10; 11; 12; 13; 14; 15; 16; 17]
      [0; 0; 0; 0; 0; 0; 0; 0] 4 2 false = Some mid /\
    run_transcoder shl_x86 true mid [0; 0; 0; 0; 0; 0; 0; 0] 4 2 true
    = Some [10; 11; 12; 13; 14; 15; 16; 17].
Proof.
  assert (H1 : pow2_dim 4 = true) by reflexivity.
  assert (H2 : pow2_dim 2 = true) by reflexivity.
  assert (H3 : Z.min 4 2 <= 4096) by lia.
  assert (H4 : Z.of_nat (length [10; 11; 12; 13; 14; 15; 16; 17]) = 4 * 2) by reflexivity.
  assert (H5 : Z.of_nat (length [0; 0; 0; 0; 0; 0; 0; 0]) = 4 * 2) by reflexivity.
  split; [exact H1 |]. split; [exact H2 |]. split; [exact H3 |].
  split; [exact H4 |]. split; [exact H5 |].
  apply (X9_round_trip_deswizzle_first shl_x86 4 2 _ _ _ false true H1 H2 H3 H4 H5 H5).
Defined.

Lemma X10_short_buffer_out_of_bounds_witness :
  pow2_dim 2 = true /\
  (Z.of_nat (length [10; 11; 12]) < 2 * 2 \/ Z.of_nat (length [0; 0; 0; 0]) < 2 * 2) /\
  slowSwizzle shl_x86 [10; 11; 12] [0; 0; 0; 0] 2 2 false = None /\
  (Z.min 2 2 <= 4096 -> fastSwizzle shl_x86 [10; 11; 12] [0; 0; 0; 0] 2 2 false = None).
Proof.
  assert (H1 : pow2_dim 2 = true) by reflexivity.
  assert (H2 : Z.of_nat (length [10; 11; 12]) < 2 * 2
               \/ Z.of_nat (length [0; 0; 0; 0]) < 2 * 2) by (left; simpl; lia).
  split; [exact H1 |]. split; [exact H2 |].
  apply (X10_short_buffer_out_of_bounds shl_x86 2 2 _ _ false H1 H1 H2).
Defined.

Lemma X11_fast_masks_partition_witness :
  pow2_dim 256 = true /\ pow2_dim 64 = true /\
  let '(x_mask, y_mask, y_incr) := fast_masks shl_x86 256 64 in
  Z.land x_mask y_mask = 0 /\
  0 <= x_mask < 2 ^ 32 /\ 0 <= y_mask < 2 ^ 32 /\
  (Z.min 256 64 <= 4096 ->
   Z.lor x_mask y_mask = 2 ^ 32 - 1 /\ y_incr = Z.min 256 64 * Z.min 256 64).
Proof.
  assert (H1 : pow2_dim 256 = true) by reflexivity.
  assert (H2 : pow2_dim 64 = true) by reflexivity.
  split; [exact H1 |]. split; [exact H2 |].
  apply (X11_fast_masks_partition shl_x86 256 64 H1 H2).
Defined.

Lemma X12_fast_bound_is_sharp_witness :
  pow2_dim 8192 = true /\ pow2_dim 16384 = true /\ 4096 < Z.min 8192 16384 /\
  fast_offset shl_x86 8192 16384 (Z.to_nat 4096) 0
  = Z.min 8192 16384 * Z.min 8192 16384 /\
  linear_to_swizzle shl_x86 4096 0 0 (log2_trunc 8192) (log2_trunc 16384) 0
  = Some (2 ^ 24) /\
  2 ^ 24 < Z.min 8192 16384 * Z.min 8192 16384.
Proof.
  assert (H1 : pow2_dim 8192 = true) by reflexivity.
  assert (H2 : pow2_dim 16384 = true) by reflexivity.
  assert (H3 : 4096 < Z.min 8192 16384) by lia.
  split; [exact H1 |]. split; [exact H2 |]. split; [exact H3 |].
  apply (X12_fast_bound_is_sharp shl_x86 8192 16384 H1 H2 H3).
Defined.

Lemma X13_main_reports_nothing_witness :
  length (replicate (Z.to_nat 16384) 7) = Z.to_nat 16384 /\
  main shl_x86 (replicate (Z.to_nat 16384) 7) (replicate (Z.to_nat 16384) 7)
    (replicate (Z.to_nat 16384) 7)
  = Some ([CoutTimes; SystemPause], 0).
Proof.
  assert (H1 : length (replicate (Z.to_nat 16384) 7) = Z.to_nat 16384)
    by apply length_replicate.
  split; [exact H1 |].
  apply (X13_main_reports_nothing shl_x86 _ _ _ H1 H1 H1).
Defined.

Lemma X14_main_trace_shape_witness :
  main_with keep_destination zero_first
    (replicate (Z.to_nat 16384) 0) (replicate (Z.to_nat 16384) 0)
    (replicate (Z.to_nat 16384) 0)
  = Some (concat (replicate 4 mismatch_report) ++ [CoutTimes; SystemPause], 0) /\
  0 = 0 /\
  exists k : nat, (k <= 4)%nat /\
    concat (replicate 4 mismatch_report) ++ [CoutTimes; SystemPause]
    = concat (replicate k mismatch_report) ++ [CoutTimes; SystemPause].
Proof.
  assert (H1 : main_with keep_destination zero_first
                 (replicate (Z.to_nat 16384) 0) (replicate (Z.to_nat 16384) 0)
                 (replicate (Z.to_nat 16384) 0)
               = Some (concat (replicate 4 mismatch_report)
                         ++ [CoutTimes; SystemPause], 0))
    by exact main_with_defective_run.
  split; [exact H1 |].
  apply (X14_main_trace_shape _ _ _ _ _ _ _ H1).
Defined.

Lemma X15_comparison_sees_first_quarter_witness :
  2 * 2 = 4 * Z.of_nat 1 /\
  (1 <= length [1; 2; 3; 4]%Z)%nat /\ (1 <= length [1; 9; 9; 9]%Z)%nat /\
  Forall is_u32 [1; 2; 3; 4] /\ Forall is_u32 [1; 9; 9; 9] /\
  exists differ,
    outputs_differ [1; 2; 3; 4] [1; 9; 9; 9] 2 2 = Some differ /\
    (differ = false <-> take 1 [1; 2; 3; 4] = take 1 [1; 9; 9; 9]).
Proof.
  assert (H1 : 2 * 2 = 4 * Z.of_nat 1) by reflexivity.
  assert (H2 : (1 <= length [1; 2; 3; 4]%Z)%nat) by (simpl; lia).
  assert (H3 : (1 <= length [1; 9; 9; 9]%Z)%nat) by (simpl; lia).
  assert (U : forall v, 0 <= v < 10 -> is_u32 v)
    by (intros v Hv; unfold is_u32; change (2 ^ 32) with 4294967296; lia).
  assert (H4 : Forall is_u32 [1; 2; 3; 4]) by (repeat constructor; apply U; lia).
  assert (H5 : Forall is_u32 [1; 9; 9; 9]) by (repeat constructor; apply U; lia).
  split; [exact H1 |]. split; [exact H2 |]. split; [exact H3 |].
  split; [exact H4 |]. split; [exact H5 |].
  apply (X15_comparison_sees_first_quarter _ _ 2 2 1 H1 H2 H3 H4 H5).
Defined.

Lemma X16_memset_resets_first_quarter_witness :
  (1 <= length [1; 2; 3; 4]%Z)%nat /\ Forall is_u32 [1; 2; 3; 4] /\
  memset [1; 2; 3; 4] 204 (4 * Z.of_nat 1)
  = Some (replicate 1 (204 mod 256 * 16843009) ++ drop 1 [1; 2; 3; 4]) /\
  forall (slow fast : transcoder) (linearPixels fp : list Z) (out : list event)
         (max_w max_h : Z),
    max_w * max_h = 4 * Z.of_nat 1 ->
    (1 <= length fp)%nat -> Forall is_u32 fp ->
    bench_iteration slow fast linearPixels max_w max_h ([1; 2; 3; 4], fp, out)
    = (let? sp' := slow linearPixels (replicate 1 0xcccccccc ++ drop 1 [1; 2; 3; 4])
                     max_w max_h false in
       let? fp' := fast linearPixels (replicate 1 0xcccccccc ++ drop 1 fp)
                     max_w max_h false in
       let? differ := outputs_differ sp' fp' max_w max_h in
       Some (sp', fp', if differ then out ++ mismatch_report else out)).
Proof.
  assert (H1 : (1 <= length [1; 2; 3; 4]%Z)%nat) by (simpl; lia).
  assert (U : forall v, 0 <= v < 10 -> is_u32 v)
    by (intros v Hv; unfold is_u32; change (2 ^ 32) with 4294967296; lia).
  assert (H2 : Forall is_u32 [1; 2; 3; 4]) by (repeat constructor; apply U; lia).
  split; [exact H1 |]. split; [exact H2 |].
  apply (X16_memset_resets_first_quarter _ 204 1 H1 H2).
Defined.
